(** * chaq-di-ts: cycle validation and lazy memoised resolution

    A shallow embedding of the last revision of [src/index.ts]
    ([CyclicDependencyError], [getCycles], [anyCycilcDependencies],
    [makeInjectorFactory] and the accessor [get]) together with the
    properties the specification states about them. *)

From Stdlib Require Import ZArith String List Lia.
From stdpp Require Import base tactics option list relations gmap strings fin_maps sorting.

Local Open Scope string_scope.
Local Open Scope list_scope.
Local Open Scope nat_scope.

(** ** Data model *)

(** [DependenciesListRecord<I>]: an object whose own enumerable properties are
    the member names, each holding the array of names it depends on.  The
    association list is read in property-enumeration order ([for ... in]). *)
Abbreviation DependenciesListRecord := (list (string * list string)).

(** [dependencies[key]]; [None] stands for [undefined]. *)
Fixpoint deps_lookup (dependencies : DependenciesListRecord) (key : string)
  : option (list string) :=
  match dependencies with
  | [] => None
  | (k, neighbors) :: rest =>
      if decide (k = key) then Some neighbors else deps_lookup rest key
  end.

(** The keys in the order [for (const key in dependencies)] yields them. *)
Definition keys (dependencies : DependenciesListRecord) : list string :=
  dependencies.*1.

(** Values a provider can produce. *)
Inductive value : Type :=
| VUndefined
| VNull
| VNum (n : Z)
| VStr (s : string)
| VObj (ref : nat).

(** [v != undefined] (loose inequality: false on [null] and [undefined]). *)
Definition neq_undefined (v : value) : bool :=
  match v with
  | VUndefined | VNull => false
  | _ => true
  end.

(** ** [CyclicDependencyError] *)

Record CyclicDependencyError : Type := mkCyclicDependencyError {
  message : string;
  cycles : option (list (list string))
}.

(** What a call can throw. *)
Inductive exn : Type :=
| TypeError
| Error (msg : string)
| ECyclicDependency (err : CyclicDependencyError)
| Thrown (v : value).

(** Result of running a piece of the program: a value, a thrown exception,
    or exhaustion of the recursion budget of the model. *)
Inductive outcome (A : Type) : Type :=
| Done (a : A)
| Throw (e : exn)
| OutOfFuel.
Arguments Done {A} a.
Arguments Throw {A} e.
Arguments OutOfFuel {A}.

(** ** [anyCycilcDependencies] *)

Module Simple.

Inductive VisitState : Type := VISITNG | VISITED.

(** The body of [for (const neighbor of neighbors)] inside [dfsVisit key];
    [visit] is the recursive call. *)
Fixpoint dfsNeighbors
  (visit : string -> gmap string VisitState -> outcome (bool * gmap string VisitState))
  (key : string) (neighbors : list string) (visitaitonMap : gmap string VisitState)
  : outcome (bool * gmap string VisitState) :=
  match neighbors with
  | [] => Done (false, visitaitonMap)
  | neighbor :: rest =>
      if decide (neighbor = key) then Done (true, visitaitonMap)
      else
        match visitaitonMap !! neighbor with
        | Some VISITNG => Done (true, visitaitonMap)
        | Some VISITED => dfsNeighbors visit key rest visitaitonMap
        | None =>
            match visit neighbor visitaitonMap with
            | Done (true, m) => Done (true, m)
            | Done (false, m) => dfsNeighbors visit key rest m
            | Throw e => Throw e
            | OutOfFuel => OutOfFuel
            end
        end
  end.

Fixpoint dfsVisit (fuel : nat) (dependencies : DependenciesListRecord)
  (key : string) (visitaitonMap : gmap string VisitState)
  : outcome (bool * gmap string VisitState) :=
  match fuel with
  | O => OutOfFuel
  | S fuel' =>
      match deps_lookup dependencies key with
      | None => Throw TypeError
      | Some [] => Done (false, <[key := VISITED]> visitaitonMap)
      | Some neighbors =>
          match dfsNeighbors (dfsVisit fuel' dependencies) key neighbors
                  (<[key := VISITNG]> visitaitonMap) with
          | Done (false, m) => Done (false, <[key := VISITED]> m)
          | r => r
          end
      end
  end.

(** [for (const key in dependencies)] of [anyCycilcDependencies]. *)
Fixpoint visitAll (fuel : nat) (dependencies : DependenciesListRecord)
  (ks : list string) (visitaitonMap : gmap string VisitState) : outcome bool :=
  match ks with
  | [] => Done false
  | key :: rest =>
      match visitaitonMap !! key with
      | Some _ => visitAll fuel dependencies rest visitaitonMap
      | None =>
          match dfsVisit fuel dependencies key visitaitonMap with
          | Done (true, _) => Done true
          | Done (false, m) => visitAll fuel dependencies rest m
          | Throw e => Throw e
          | OutOfFuel => OutOfFuel
          end
      end
  end.

Definition anyCycilcDependencies (dependencies : DependenciesListRecord)
  : outcome bool :=
  visitAll (S (length dependencies)) dependencies (keys dependencies) ∅.

End Simple.

(** ** Insertion-ordered [Map] and [Set]

    [getCycles] iterates over [mapNodeInfo.entries()], [mapComponents.values()]
    and [setSelfCycle.keys()], which enumerate in insertion order; these
    containers are therefore association lists kept in insertion order. *)

Module JsMap.
Section JsMap.
Context {V : Type}.

(** [map.get(key)] *)
Fixpoint get (m : list (string * V)) (key : string) : option V :=
  match m with
  | [] => None
  | (k, v) :: rest => if decide (k = key) then Some v else get rest key
  end.

(** [map.set(key, v)]: an existing key keeps its position. *)
Fixpoint set (m : list (string * V)) (key : string) (v : V) : list (string * V) :=
  match m with
  | [] => [(key, v)]
  | (k, w) :: rest =>
      if decide (k = key) then (k, v) :: rest else (k, w) :: set rest key v
  end.

End JsMap.
End JsMap.

(** [set.add(x)] *)
Definition set_add (s : list string) (x : string) : list string :=
  if decide (x ∈ s) then s else s ++ [x].

(** ** [getCycles] *)

Module Detailed.

(** [VisitingInfo | VisitedInfo]; [cycleParent] is [None] when
    [visitOrderedList[minVisitIdx]] is [undefined]. *)
Inductive NodeInfo : Type :=
| VisitingInfo (visitIdx minVisitIdx : nat)
| VisitedInfo (minVisitIdx : nat) (cycleParent : option string).

Definition minVisitIdx (info : NodeInfo) : nat :=
  match info with
  | VisitingInfo _ m => m
  | VisitedInfo m _ => m
  end.

(** The variables [dfsVisit] closes over. *)
Record State : Type := mkState {
  mapNodeInfo : list (string * NodeInfo);
  visitOrderedList : list string;
  setSelfCycle : list string;
  cycles : bool
}.

Definition init : State := mkState [] [] [] false.

Definition setInfo (st : State) (key : string) (info : NodeInfo) : State :=
  mkState (JsMap.set (mapNodeInfo st) key info) (visitOrderedList st)
          (setSelfCycle st) (cycles st).

(** [for (const neighbor of neighbors)] of [dfsVisit key].  [nodeInfo] is the
    object stored in [mapNodeInfo] under [key]: every assignment to
    [nodeInfo.minVisitIdx] is seen through the map, so the loop writes the new
    minimum (the loop variable [minIdx]) back to the entry.  Names are strings,
    so the [typeof neighbor !== 'string'] guard never fires. *)
Fixpoint dfsNeighbors (visit : string -> State -> outcome (NodeInfo * State))
  (key : string) (visitIdx : nat) (neighbors : list string)
  (minIdx : nat) (st : State) : outcome (nat * State) :=
  match neighbors with
  | [] => Done (minIdx, st)
  | neighbor :: rest =>
      if decide (neighbor = key) then
        dfsNeighbors visit key visitIdx rest minIdx
          (mkState (mapNodeInfo st) (visitOrderedList st)
                   (set_add (setSelfCycle st) key) true)
      else
        match JsMap.get (mapNodeInfo st) neighbor with
        | None =>
            match visit neighbor st with
            | Done (neighborInfo, st') =>
                let m := Nat.min minIdx (minVisitIdx neighborInfo) in
                dfsNeighbors visit key visitIdx rest m
                  (setInfo st' key (VisitingInfo visitIdx m))
            | Throw e => Throw e
            | OutOfFuel => OutOfFuel
            end
        | Some (VisitingInfo i n) =>
            let m := Nat.min minIdx n in
            dfsNeighbors visit key visitIdx rest m
              (setInfo (mkState (mapNodeInfo st) (visitOrderedList st)
                                (setSelfCycle st) true)
                       key (VisitingInfo visitIdx m))
        | Some (VisitedInfo n p) =>
            let m := Nat.min minIdx n in
            dfsNeighbors visit key visitIdx rest m
              (setInfo st key (VisitingInfo visitIdx m))
        end
  end.

(** [dfsVisit]; iterating over [dependencies[key]] when it is [undefined]
    throws a [TypeError] after the node has been recorded. *)
Fixpoint dfsVisit (fuel : nat) (dependencies : DependenciesListRecord)
  (key : string) (st : State) : outcome (NodeInfo * State) :=
  match fuel with
  | O => OutOfFuel
  | S fuel' =>
      let visitIdx := length (visitOrderedList st) in
      let st1 :=
        mkState (JsMap.set (mapNodeInfo st) key (VisitingInfo visitIdx visitIdx))
                (visitOrderedList st ++ [key]) (setSelfCycle st) (cycles st) in
      match deps_lookup dependencies key with
      | None => Throw TypeError
      | Some neighbors =>
          match dfsNeighbors (dfsVisit fuel' dependencies) key visitIdx
                  neighbors visitIdx st1 with
          | Done (m, st2) =>
              let nodeInfo := VisitedInfo m (visitOrderedList st2 !! m) in
              Done (nodeInfo, setInfo st2 key nodeInfo)
          | Throw e => Throw e
          | OutOfFuel => OutOfFuel
          end
      end
  end.

(** [for (const node in dependencies)] *)
Fixpoint visitAll (fuel : nat) (dependencies : DependenciesListRecord)
  (ks : list string) (st : State) : outcome State :=
  match ks with
  | [] => Done st
  | node :: rest =>
      match JsMap.get (mapNodeInfo st) node with
      | Some _ => visitAll fuel dependencies rest st
      | None =>
          match dfsVisit fuel dependencies node st with
          | Done (_, st') => visitAll fuel dependencies rest st'
          | Throw e => Throw e
          | OutOfFuel => OutOfFuel
          end
      end
  end.

Definition UNEXPECTED : string := "Unexpected node state, there's a bug".

(** [getComponentRoot(node, nodeInfo)], given [nodeInfo.cycleParent]; reading
    [state] of a missing entry is a [TypeError]. *)
Fixpoint getComponentRoot (fuel : nat) (infos : list (string * NodeInfo))
  (mapComponentRoot : gmap string string) (node : string)
  (cycleParent : option string) : outcome string :=
  match fuel with
  | O => OutOfFuel
  | S fuel' =>
      if decide (cycleParent = Some node) then Done node
      else
        match mapComponentRoot !! node with
        | Some cachedRoot => Done cachedRoot
        | None =>
            match cycleParent with
            | None => Throw TypeError
            | Some parent =>
                match JsMap.get infos parent with
                | None => Throw TypeError
                | Some (VisitingInfo _ _) => Throw (Error UNEXPECTED)
                | Some (VisitedInfo _ next) =>
                    getComponentRoot fuel' infos mapComponentRoot parent next
                end
            end
        end
  end.

(** [for (const [node, nodeInfo] of mapNodeInfo.entries())]: fills
    [mapComponentRoot] and [mapComponents]. *)
Fixpoint collect (infos entries : list (string * NodeInfo))
  (mapComponentRoot : gmap string string)
  (mapComponents : list (string * list string))
  : outcome (gmap string string * list (string * list string)) :=
  match entries with
  | [] => Done (mapComponentRoot, mapComponents)
  | (node, VisitingInfo _ _) :: _ => Throw (Error UNEXPECTED)
  | (node, VisitedInfo _ parent) :: rest =>
      match getComponentRoot (S (length infos)) infos mapComponentRoot node parent with
      | Done componentRoot =>
          let roots := <[node := componentRoot]> mapComponentRoot in
          match JsMap.get mapComponents componentRoot with
          | None =>
              collect infos rest roots
                (JsMap.set mapComponents componentRoot [node])
          | Some components =>
              collect infos rest roots
                (JsMap.set mapComponents componentRoot (components ++ [node]))
          end
      | Throw e => Throw e
      | OutOfFuel => OutOfFuel
      end
  end.

(** The filter of [listSelfCycles]. *)
Definition isLoneSelfCycle (mapComponentRoot : gmap string string)
  (mapComponents : list (string * list string)) (node : string) : bool :=
  if decide (mapComponentRoot !! node = Some node) then
    match JsMap.get mapComponents node with
    | Some component => negb (bool_decide (1 < length component))
    | None => true
    end
  else false.

Definition getCycles (dependencies : DependenciesListRecord)
  : outcome (list (list string)) :=
  match visitAll (S (length dependencies)) dependencies (keys dependencies) init with
  | Done st =>
      if negb (cycles st) then Done []
      else
        match collect (mapNodeInfo st) (mapNodeInfo st) ∅ [] with
        | Done (mapComponentRoot, mapComponents) =>
            let listNonSelfCycles :=
              filter (λ l, 1 < length l) (mapComponents.*2) in
            let listSelfCycles :=
              (λ node, [node]) <$>
                filter (λ node, isLoneSelfCycle mapComponentRoot mapComponents node = true)
                       (setSelfCycle st) in
            Done (listSelfCycles ++ listNonSelfCycles)
        | Throw e => Throw e
        | OutOfFuel => OutOfFuel
        end
  | Throw e => Throw e
  | OutOfFuel => OutOfFuel
  end.

End Detailed.

(** ** Construction of [CyclicDependencyError] *)

(** [Array.prototype.sort]: stable (ES2019); [cmp a b <= 0] keeps [a] first. *)
Fixpoint sort_insert {A : Type} (cmp : A -> A -> Z) (x : A) (l : list A) : list A :=
  match l with
  | [] => [x]
  | y :: l' => if (cmp x y <=? 0)%Z then x :: y :: l' else y :: sort_insert cmp x l'
  end.

Definition sortBy {A : Type} (cmp : A -> A -> Z) (l : list A) : list A :=
  foldr (sort_insert cmp) [] l.

(** The default comparator of [sort()]: code-unit order of the strings. *)
Definition defaultCompare (a b : string) : Z :=
  match String.compare a b with
  | Lt => (-1)%Z
  | Eq => 0%Z
  | Gt => 1%Z
  end.

(** [a.join()] *)
Definition join (a : list string) : string := String.concat "," a.

Definition STANDARD_MESSAGE : string :=
  "At least one cycle found in provided dependencies".

Section ErrorClass.
(** [String.prototype.localeCompare] belongs to the host, not to the
    repository: the comparator takes it as given. *)
Variable localeCompare : string -> string -> Z.

Definition compareCycles (a b : list string) : Z :=
  let lenCmp := (Z.of_nat (length a) - Z.of_nat (length b))%Z in
  if decide (lenCmp ≠ 0%Z) then lenCmp
  else localeCompare (join a) (join b).

(** [cycles?.map((list) => Array.from(list).sort()).sort(...)] *)
Definition normalizeCycles (cs : list (list string)) : list (list string) :=
  sortBy compareCycles (sortBy defaultCompare <$> cs).

(** [new CyclicDependencyError(message, cycles?)] *)
Definition newCyclicDependencyError (msg : string)
  (cs : option (list (list string))) : CyclicDependencyError :=
  mkCyclicDependencyError msg (normalizeCycles <$> cs).

End ErrorClass.

(** ** [makeInjectorFactory] and the accessor [get] *)

Inductive CheckForCycles : Type := skip | simple | detailed.

Record DependencyInjectionOptions : Type := mkOptions {
  checkForCycles : option CheckForCycles;
  (** whether a [log] sink is present *)
  log : bool
}.

(** How a provider call ends. *)
Inductive completion : Type :=
| Normal (v : value)
| Abrupt (e : exn).

(** What the injector does to its environment, in order: a line handed to
    the [log] sink, a provider entered with its argument object, and the way
    that provider call ended. *)
Inductive event : Type :=
| Log (statement : string)
| Invoke (member : string) (memberDeps : gmap string value)
| Returned (member : string) (v : value)
| Raised (member : string) (e : exn).

Module Injector.
Section Injector.
(** The state providers may read and write besides their arguments. *)
Context {W : Type}.
Variable localeCompare : string -> string -> Z.

(** A provider receives the object of its resolved dependencies. *)
Definition Provider : Type := gmap string value -> W -> completion * W.

(** The mutable store behind one injector: [mapModuleObjects], the providers'
    own state, and the events so far. *)
Record State : Type := mkState {
  mapModuleObjects : gmap string value;
  world : W;
  trace : list event
}.

Definition fresh (w : W) : State := mkState ∅ w [].

(** Result of an accessor: the state survives a throw. *)
Inductive result (A : Type) : Type :=
| Ok (a : A) (st : State)
| Raise (e : exn) (st : State)
| NoFuel.
Arguments Ok {A} a st.
Arguments Raise {A} e st.
Arguments NoFuel {A}.

(** What the getters close over. *)
Record Injector : Type := mkInjector {
  dependencies : DependenciesListRecord;
  module : gmap string Provider;
  options : option DependencyInjectionOptions;
  (** the enumerable properties defined on [finishedInjector] *)
  members : list string
}.

(** [if (options?.log) options.log(statement)]; the sink is taken to return
    normally and to leave the store alone. *)
Definition emit (options : option DependencyInjectionOptions)
  (statement : string) (st : State) : State :=
  match options with
  | Some o =>
      if log o then
        mkState (mapModuleObjects st) (world st) (trace st ++ [Log statement])
      else st
  | None => st
  end.

Definition record (ev : event) (st : State) : State :=
  mkState (mapModuleObjects st) (world st) (trace st ++ [ev]).

(** [tryGet != undefined], on the result of [mapModuleObjects.get(member)]. *)
Definition hit (tryGet : option value) : option value :=
  match tryGet with
  | Some v => if neq_undefined v then Some v else None
  | None => None
  end.

(** [Object.fromEntries]: a later entry overwrites an earlier one. *)
Definition fromEntries (entries : list (string * value)) : gmap string value :=
  foldl (λ o kv, <[kv.1 := kv.2]> o) ∅ entries.

(** [memberDepsNames.values()] mapped through [finishedInjector[depName]],
    left to right; [access] is the property read on the injector. *)
Fixpoint getDeps (access : string -> State -> result value)
  (memberDepsNames : list string) (st : State) : result (list (string * value)) :=
  match memberDepsNames with
  | [] => Ok [] st
  | depName :: rest =>
      match access depName st with
      | Ok v st1 =>
          match getDeps access rest st1 with
          | Ok entries st2 => Ok ((depName, v) :: entries) st2
          | Raise e st2 => Raise e st2
          | NoFuel => NoFuel
          end
      | Raise e st1 => Raise e st1
      | NoFuel => NoFuel
      end
  end.

(** The getter [get] defined for [member], whose closure holds
    [memberDepsNames = dependencies[member]]. *)
Definition get (mdl : gmap string Provider)
  (opts : option DependencyInjectionOptions)
  (access : string -> State -> result value)
  (member : string) (memberDepsNames : list string) (st : State) : result value :=
  let st := emit opts (member +:+ " - get") st in
  match hit (mapModuleObjects st !! member) with
  | Some tryGet => Ok tryGet (emit opts (member +:+ " - already constructed") st)
  | None =>
      let st := emit opts (member +:+ " - constructing") st in
      match getDeps access memberDepsNames st with
      | Ok entries st =>
          let memberDeps := fromEntries entries in
          match mdl !! member with
          | None => Raise TypeError st
          | Some memberProvider =>
              let st := record (Invoke member memberDeps) st in
              match memberProvider memberDeps (world st) with
              | (Normal memberObject, w) =>
                  let st :=
                    mkState (<[member := memberObject]> (mapModuleObjects st)) w
                            (trace st ++ [Returned member memberObject]) in
                  Ok memberObject (emit opts (member +:+ " - constructed") st)
              | (Abrupt e, w) =>
                  Raise e (mkState (mapModuleObjects st) w (trace st ++ [Raised member e]))
              end
          end
      | Raise e st => Raise e st
      | NoFuel => NoFuel
      end
  end.

(** [finishedInjector[name]]: runs the getter when [name] is a member, and is
    [undefined] otherwise (names inherited from [Object.prototype] are left
    out of the model). *)
Fixpoint access (inj : Injector) (fuel : nat) (name : string) (st : State)
  : result value :=
  match deps_lookup (dependencies inj) name with
  | None => Ok VUndefined st
  | Some memberDepsNames =>
      match fuel with
      | O => NoFuel
      | S fuel' =>
          get (module inj) (options inj) (access inj fuel') name memberDepsNames st
      end
  end.

(** A caller reading members one after the other, stopping at a throw. *)
Fixpoint accesses (inj : Injector) (fuel : nat) (names : list string) (st : State)
  : result (list value) :=
  match names with
  | [] => Ok [] st
  | name :: rest =>
      match access inj fuel name st with
      | Ok v st1 =>
          match accesses inj fuel rest st1 with
          | Ok vs st2 => Ok (v :: vs) st2
          | Raise e st2 => Raise e st2
          | NoFuel => NoFuel
          end
      | Raise e st1 => Raise e st1
      | NoFuel => NoFuel
      end
  end.

(** [options?.checkForCycles ?? 'simple'] *)
Definition checkCyclesOption (opts : option DependencyInjectionOptions)
  : CheckForCycles :=
  default simple (opts ≫= checkForCycles).

(** The function returned by [makeInjectorFactory<I>()]. *)
Definition makeInjectorFactory (deps : DependenciesListRecord)
  (mdl : gmap string Provider) (opts : option DependencyInjectionOptions)
  : outcome Injector :=
  let finishedInjector := mkInjector deps mdl opts (keys deps) in
  match checkCyclesOption opts with
  | simple =>
      match Simple.anyCycilcDependencies deps with
      | Done true =>
          Throw (ECyclicDependency
                   (newCyclicDependencyError localeCompare STANDARD_MESSAGE None))
      | Done false => Done finishedInjector
      | Throw e => Throw e
      | OutOfFuel => OutOfFuel
      end
  | detailed =>
      match Detailed.getCycles deps with
      | Done cycles =>
          if bool_decide (0 < length cycles) then
            Throw (ECyclicDependency
                     (newCyclicDependencyError localeCompare STANDARD_MESSAGE
                        (Some cycles)))
          else Done finishedInjector
      | Throw e => Throw e
      | OutOfFuel => OutOfFuel
      end
  | skip => Done finishedInjector
  end.

End Injector.

Arguments State W : clear implicits.
Arguments Provider W : clear implicits.
Arguments Injector W : clear implicits.
Arguments result W A : clear implicits.
Arguments Ok {W A} a st.
Arguments Raise {W A} e st.
Arguments NoFuel {W A}.

End Injector.

(** ** Graph vocabulary of the specification *)

(** [member -> dependency] edges of the mapping. *)
Definition edge (D : DependenciesListRecord) (x y : string) : Prop :=
  ∃ ns, deps_lookup D x = Some ns ∧ y ∈ ns.

(** A cycle: some member reaches itself along one or more edges. *)
Definition has_cycle (D : DependenciesListRecord) : Prop :=
  ∃ x, tc (edge D) x x.

Definition on_cycle (D : DependenciesListRecord) (x : string) : Prop :=
  tc (edge D) x x.

(** Every dependency name occurs as a key. *)
Definition closed (D : DependenciesListRecord) : Prop :=
  Forall (λ kv, Forall (λ n, n ∈ keys D) kv.2) D.

Definition acyclic (D : DependenciesListRecord) : Prop := ¬ has_cycle D.

(** ** Basic facts about the mapping *)

Section Mapping.
Context (D : DependenciesListRecord).

Lemma deps_lookup_Some_elem key ns :
  deps_lookup D key = Some ns → (key, ns) ∈ D.
Proof.
  induction D as [|[k l] D' IH]; simpl; [done|].
  case_decide; intros Hl.
  - simplify_eq. left.
  - right. by apply IH.
Qed.

Lemma deps_lookup_Some_key key ns :
  deps_lookup D key = Some ns → key ∈ keys D.
Proof.
  intros H%deps_lookup_Some_elem. apply list_elem_of_fmap. by exists (key, ns).
Qed.

Lemma deps_lookup_key key : key ∈ keys D → is_Some (deps_lookup D key).
Proof.
  unfold keys. induction D as [|[k l] D' IH]; simpl.
  - by intros ?%elem_of_nil.
  - intros [->|?]%elem_of_cons; case_decide; eauto; done.
Qed.

Lemma closed_edge x y : closed D → edge D x y → y ∈ keys D.
Proof.
  intros Hc (ns & Hl & Hy). apply deps_lookup_Some_elem in Hl.
  unfold closed in Hc. rewrite Forall_forall in Hc.
  specialize (Hc _ Hl). simpl in Hc. rewrite Forall_forall in Hc. by apply Hc.
Qed.

Lemma edge_key x y : edge D x y → x ∈ keys D.
Proof. intros (ns & Hl & _). by eapply deps_lookup_Some_key. Qed.

Lemma tc_edge_key x y : tc (edge D) x y → x ∈ keys D.
Proof. destruct 1; by eapply edge_key. Qed.

End Mapping.

(** ** Counting list elements that satisfy a predicate *)

Section FilterLength.
Context {A : Type} (P Q : A → Prop) `{!∀ x, Decision (P x)} `{!∀ x, Decision (Q x)}.

Lemma filter_length_mono (l : list A) :
  (∀ x, x ∈ l → P x → Q x) → length (filter P l) ≤ length (filter Q l).
Proof.
  induction l as [|a l IH]; intros HPQ; [done|].
  rewrite !filter_cons.
  assert (length (filter P l) ≤ length (filter Q l)) as Hl.
  { apply IH. intros x Hx. apply HPQ. by right. }
  destruct (decide (P a)) as [HP|HP].
  - rewrite decide_True by (apply HPQ; [left|done]). simpl. lia.
  - destruct (decide (Q a)); simpl; lia.
Qed.

Lemma filter_length_lt (l : list A) (a : A) :
  (∀ x, x ∈ l → P x → Q x) → a ∈ l → Q a → ¬ P a →
  length (filter P l) < length (filter Q l).
Proof.
  induction l as [|b l IH]; intros HPQ Ha HQ HnP.
  - by apply elem_of_nil in Ha.
  - rewrite !filter_cons.
    assert (length (filter P l) ≤ length (filter Q l)) as Hl.
    { apply filter_length_mono. intros x Hx. apply HPQ. by right. }
    apply elem_of_cons in Ha as [<-|Ha].
    + rewrite decide_False by done. rewrite decide_True by done. simpl. lia.
    + assert (length (filter P l) < length (filter Q l)) as Hlt.
      { apply IH; try done. intros x Hx. apply HPQ. by right. }
      destruct (decide (P b)) as [HP|HP].
      * rewrite decide_True by (apply HPQ; [left|done]). simpl. lia.
      * destruct (decide (Q b)); simpl; lia.
Qed.

End FilterLength.

Lemma tc_first_step {A : Type} (R : relation A) x z :
  tc R x z → ∃ y, R x y ∧ rtc R y z.
Proof.
  destruct 1 as [x z H|x y z H Ht].
  - exists z. split; [done|constructor].
  - exists y. split; [done|by apply tc_rtc].
Qed.

(** ** Correctness of [anyCycilcDependencies] *)

Section SimpleCorrect.
Import Simple.
Context (D : DependenciesListRecord) (Hclosed : closed D).

(** Keys the traversal has not reached yet: the measure of the recursion. *)
Definition unvisited (vm : gmap string VisitState) : nat :=
  length (filter (λ k, vm !! k = None) (keys D)).

(** Every node under visit reaches [key]: the in-progress nodes are the
    ancestors of the current call. *)
Definition stack_reaches (vm : gmap string VisitState) (key : string) : Prop :=
  ∀ v, vm !! v = Some VISITNG → tc (edge D) v key.

(** The finished nodes are closed under edges and lie on no cycle. *)
Definition done_closed (vm : gmap string VisitState) : Prop :=
  ∀ v w, vm !! v = Some VISITED → edge D v w → vm !! w = Some VISITED.

Definition done_acyclic (vm : gmap string VisitState) : Prop :=
  ∀ v, vm !! v = Some VISITED → ¬ tc (edge D) v v.

Definition same_visiting (vm vm' : gmap string VisitState) : Prop :=
  ∀ v, vm' !! v = Some VISITNG ↔ vm !! v = Some VISITNG.

Definition keeps_done (vm vm' : gmap string VisitState) : Prop :=
  ∀ v, vm !! v = Some VISITED → vm' !! v = Some VISITED.

Record visit_post (key : string) (vm vm' : gmap string VisitState) : Prop := {
  post_key : vm' !! key = Some VISITED;
  post_visiting : same_visiting vm vm';
  post_done : keeps_done vm vm';
  post_closed : done_closed vm';
  post_acyclic : done_acyclic vm'
}.

(** What a call [visit key vm] on an unvisited key guarantees when at most
    [budget] keys are unvisited. *)
Definition visit_spec
  (visit : string → gmap string VisitState → outcome (bool * gmap string VisitState))
  (budget : nat) : Prop :=
  ∀ key vm,
    key ∈ keys D → vm !! key = None → stack_reaches vm key →
    done_closed vm → done_acyclic vm → unvisited vm ≤ budget →
    ∃ b vm', visit key vm = Done (b, vm') ∧
             if b then has_cycle D else visit_post key vm vm'.

Lemma unvisited_insert (vm : gmap string VisitState) key s :
  key ∈ keys D → vm !! key = None → unvisited (<[key := s]> vm) < unvisited vm.
Proof.
  intros Hk Hn. unfold unvisited.
  apply (filter_length_lt _ _ _ key); try done.
  - intros x _ Hx. destruct (decide (key = x)) as [->|Hne].
    + by rewrite lookup_insert_eq in Hx.
    + by rewrite lookup_insert_ne in Hx.
  - by rewrite lookup_insert_eq.
Qed.

Lemma unvisited_mono (vm vm' : gmap string VisitState) :
  same_visiting vm vm' → keeps_done vm vm' → unvisited vm' ≤ unvisited vm.
Proof.
  intros Hv Hd. apply filter_length_mono. intros x _ Hx.
  destruct (vm !! x) as [[]|] eqn:E; [| |done].
  - apply Hv in E. congruence.
  - apply Hd in E. congruence.
Qed.

Lemma unvisited_pos (vm : gmap string VisitState) key :
  key ∈ keys D → vm !! key = None → 0 < unvisited vm.
Proof.
  intros Hk Hn. pose proof (unvisited_insert vm key VISITED Hk Hn). lia.
Qed.

Lemma same_visiting_refl (vm : gmap string VisitState) : same_visiting vm vm.
Proof. by intros v. Qed.

Lemma same_visiting_trans (vm1 vm2 vm3 : gmap string VisitState) :
  same_visiting vm1 vm2 → same_visiting vm2 vm3 → same_visiting vm1 vm3.
Proof. intros H12 H23 v. by rewrite (H23 v), (H12 v). Qed.

Lemma keeps_done_refl (vm : gmap string VisitState) : keeps_done vm vm.
Proof. by intros v. Qed.

Lemma keeps_done_trans (vm1 vm2 vm3 : gmap string VisitState) :
  keeps_done vm1 vm2 → keeps_done vm2 vm3 → keeps_done vm1 vm3.
Proof. intros H12 H23 v Hv. by apply H23, H12. Qed.

Lemma dfsNeighbors_spec visit budget key :
  visit_spec visit budget →
  ∀ ns vm,
    (∀ n, n ∈ ns → edge D key n) →
    vm !! key = Some VISITNG →
    (∀ v, vm !! v = Some VISITNG → v = key ∨ tc (edge D) v key) →
    done_closed vm → done_acyclic vm → unvisited vm ≤ budget →
    ∃ b vm', dfsNeighbors visit key ns vm = Done (b, vm') ∧
      if b then has_cycle D
      else same_visiting vm vm' ∧ keeps_done vm vm' ∧ done_closed vm' ∧
           done_acyclic vm' ∧ ∀ n, n ∈ ns → vm' !! n = Some VISITED.
Proof.
  intros Hvisit. induction ns as [|n ns IH]; intros vm Hedges Hkey Hstack Hcl Hac Hbud.
  - exists false, vm. split; [done|].
    split_and!; [apply same_visiting_refl | apply keeps_done_refl | done | done |].
    intros n Hn. by apply elem_of_nil in Hn.
  - assert (edge D key n) as Hn by (apply Hedges; left).
    assert (∀ n', n' ∈ ns → edge D key n') as Hedges' by (intros; apply Hedges; by right).
    simpl. destruct (decide (n = key)) as [->|Hne].
    { exists true, vm. split; [done|]. exists key. by apply tc_once. }
    destruct (vm !! n) as [[]|] eqn:En.
    + exists true, vm. split; [done|]. exists key.
      destruct (Hstack n En) as [?|Hreach]; [done|]. by eapply tc_l.
    + destruct (IH vm) as (b & vm' & -> & Hb); try done.
      exists b, vm'. split; [done|]. destruct b; [done|].
      destruct Hb as (Hv & Hd & Hcl' & Hac' & Hall). split_and!; try done.
      intros n' [->|Hn']%elem_of_cons; [by apply Hd | by apply Hall].
    + destruct (Hvisit n vm) as (b1 & vm1 & -> & Hb1); try done.
      { by eapply closed_edge. }
      { intros v Hv. destruct (Hstack v Hv) as [->|Hreach].
        - by apply tc_once.
        - by eapply tc_r. }
      destruct b1.
      { exists true, vm1. by split. }
      destruct Hb1 as [Hk1 Hv1 Hd1 Hcl1 Hac1].
      destruct (IH vm1) as (b & vm' & -> & Hb); try done.
      { by apply Hv1. }
      { intros v Hv. apply Hstack. by apply Hv1. }
      { pose proof (unvisited_mono vm vm1 Hv1 Hd1). lia. }
      exists b, vm'. split; [done|]. destruct b; [done|].
      destruct Hb as (Hv & Hd & Hcl' & Hac' & Hall).
      split_and!; try done.
      * by eapply same_visiting_trans.
      * by eapply keeps_done_trans.
      * intros n' [->|Hn']%elem_of_cons; [by apply Hd | by apply Hall].
Qed.

Lemma done_closed_rtc (vm : gmap string VisitState) v w :
  done_closed vm → vm !! v = Some VISITED → rtc (edge D) v w →
  vm !! w = Some VISITED.
Proof. intros Hcl Hv Hr. induction Hr; eauto. Qed.

Lemma dfsVisit_spec fuel : visit_spec (dfsVisit fuel D) fuel.
Proof.
  induction fuel as [|fuel IH]; intros key vm Hk Hnone Hstack Hcl Hac Hbud.
  { pose proof (unvisited_pos vm key Hk Hnone). lia. }
  simpl. destruct (deps_lookup_key D key Hk) as [ns Hns]. rewrite Hns.
  assert (∀ v w, vm !! v = Some VISITED → edge D v w → w ≠ key) as Hnk.
  { intros v w Hv He ->. specialize (Hcl _ _ Hv He). congruence. }
  destruct ns as [|n0 ns0].
  - exists false, (<[key := VISITED]> vm). split; [done|]. split.
    + by rewrite lookup_insert_eq.
    + intros v. destruct (decide (key = v)) as [<-|Hne].
      * rewrite lookup_insert_eq, Hnone. split; congruence.
      * by rewrite lookup_insert_ne.
    + intros v Hv. rewrite lookup_insert_ne; [done|]. congruence.
    + intros v w Hv He. destruct (decide (key = v)) as [<-|Hne].
      * destruct He as (ns & Hl & Hw). rewrite Hns in Hl. simplify_eq.
        by apply elem_of_nil in Hw.
      * rewrite lookup_insert_ne in Hv by done.
        rewrite lookup_insert_ne; [by eapply Hcl | intros ->; by eapply Hnk].
    + intros v Hv Hcyc. destruct (decide (key = v)) as [<-|Hne].
      * apply tc_first_step in Hcyc as (w & (ns & Hl & Hw) & _).
        rewrite Hns in Hl. simplify_eq. by apply elem_of_nil in Hw.
      * rewrite lookup_insert_ne in Hv by done. by eapply Hac.
  - remember (n0 :: ns0) as ns eqn:Ens.
    destruct (dfsNeighbors_spec (dfsVisit fuel D) fuel key IH ns
                (<[key := VISITNG]> vm)) as (b & vm' & Hrun & Hb).
    + intros n Hn. by exists ns.
    + by rewrite lookup_insert_eq.
    + intros v. destruct (decide (key = v)) as [<-|Hne]; [by left|].
      rewrite lookup_insert_ne by done. intros Hv. right. by apply Hstack.
    + intros v w Hv He. destruct (decide (key = v)) as [<-|Hne].
      * by rewrite lookup_insert_eq in Hv.
      * rewrite lookup_insert_ne in Hv by done.
        rewrite lookup_insert_ne; [by eapply Hcl | intros ->; by eapply Hnk].
    + intros v Hv. destruct (decide (key = v)) as [<-|Hne].
      * by rewrite lookup_insert_eq in Hv.
      * rewrite lookup_insert_ne in Hv by done. by apply Hac.
    + pose proof (unvisited_insert vm key VISITNG Hk Hnone). lia.
    + assert (match dfsNeighbors (dfsVisit fuel D) key ns (<[key:=VISITNG]> vm) with
              | Done (false, m) => Done (false, <[key:=VISITED]> m)
              | r => r
              end = if b then Done (true, vm') else Done (false, <[key:=VISITED]> vm'))
        as Hmatch by (rewrite Hrun; by destruct b).
      subst ns. simpl in Hmatch |- *. rewrite Hmatch. clear Hmatch.
      remember (n0 :: ns0) as ns eqn:Ens.
      destruct b.
      { exists true, vm'. by split. }
      exists false, (<[key := VISITED]> vm'). split; [done|].
      destruct Hb as (Hv & Hd & Hcl' & Hac' & Hall).
      assert (vm' !! key = Some VISITNG) as Hkey'.
      { apply Hv. by rewrite lookup_insert_eq. }
      split.
      * by rewrite lookup_insert_eq.
      * intros v. destruct (decide (key = v)) as [<-|Hne].
        -- rewrite lookup_insert_eq, Hnone. split; congruence.
        -- rewrite lookup_insert_ne by done. rewrite (Hv v).
           by rewrite lookup_insert_ne.
      * intros v Hv'. assert (key ≠ v) by congruence.
        rewrite lookup_insert_ne by done. apply Hd. by rewrite lookup_insert_ne.
      * intros v w Hv' He. destruct (decide (key = w)) as [<-|Hnw].
        { by rewrite lookup_insert_eq. }
        rewrite lookup_insert_ne by done.
        destruct (decide (key = v)) as [<-|Hne].
        -- destruct He as (ns' & Hl & Hw). rewrite Hns in Hl. simplify_eq.
           by apply Hall.
        -- rewrite lookup_insert_ne in Hv' by done. by eapply Hcl'.
      * intros v Hv' Hcyc. destruct (decide (key = v)) as [<-|Hne].
        -- apply tc_first_step in Hcyc as (w & (ns' & Hl & Hw) & Hback).
           rewrite Hns in Hl. simplify_eq.
           pose proof (done_closed_rtc vm' w key Hcl' (Hall w Hw) Hback).
           congruence.
        -- rewrite lookup_insert_ne in Hv' by done. by eapply Hac'.
Qed.

Lemma visitAll_spec fuel ks vm :
  ks ⊆ keys D → (∀ v, vm !! v ≠ Some VISITNG) →
  done_closed vm → done_acyclic vm → unvisited vm ≤ fuel →
  ∃ b, visitAll fuel D ks vm = Done b ∧
    if b then has_cycle D
    else ∃ vm', keeps_done vm vm' ∧ done_acyclic vm' ∧
                ∀ k, k ∈ ks → vm' !! k = Some VISITED.
Proof.
  revert vm. induction ks as [|k ks IH]; intros vm Hks Hnv Hcl Hac Hbud.
  - exists false. split; [done|]. exists vm.
    split_and!; [apply keeps_done_refl | done |].
    intros k Hk. by apply elem_of_nil in Hk.
  - assert (k ∈ keys D) as Hk by (apply Hks; left).
    assert (ks ⊆ keys D) as Hks' by (intros x Hx; apply Hks; by right).
    simpl. destruct (vm !! k) as [s|] eqn:Ek.
    + destruct (IH vm) as (b & -> & Hb); try done.
      exists b. split; [done|]. destruct b; [done|].
      destruct Hb as (vm' & Hd & Hac' & Hall). exists vm'. split_and!; try done.
      intros k' [->|Hk']%elem_of_cons; [|by apply Hall].
      apply Hd. destruct s; [by apply Hnv in Ek | done].
    + destruct (dfsVisit_spec fuel k vm) as (b1 & vm1 & -> & Hb1); try done.
      { intros v Hv. by apply Hnv in Hv. }
      destruct b1; [by exists true|].
      destruct Hb1 as [Hk1 Hv1 Hd1 Hcl1 Hac1].
      destruct (IH vm1) as (b & -> & Hb); try done.
      { intros v Hv. apply Hv1 in Hv. by apply Hnv in Hv. }
      { pose proof (unvisited_mono vm vm1 Hv1 Hd1). lia. }
      exists b. split; [done|]. destruct b; [done|].
      destruct Hb as (vm' & Hd & Hac' & Hall). exists vm'. split_and!; try done.
      * by eapply keeps_done_trans.
      * intros k' [->|Hk']%elem_of_cons; [by apply Hd | by apply Hall].
Qed.

Lemma anyCycilcDependencies_spec :
  ∃ b, anyCycilcDependencies D = Done b ∧ (b = true ↔ has_cycle D).
Proof.
  unfold anyCycilcDependencies.
  destruct (visitAll_spec (S (length D)) (keys D) ∅) as (b & Hrun & Hb).
  - done.
  - intros v. by rewrite lookup_empty.
  - intros v w. by rewrite lookup_empty.
  - intros v. by rewrite lookup_empty.
  - unfold unvisited. etrans; [apply length_filter|].
    unfold keys. rewrite length_fmap. lia.
  - exists b. split; [done|]. destruct b; [done|].
    destruct Hb as (vm' & _ & Hac & Hall). split; [done|].
    intros [x Hx]. exfalso. eapply Hac; [|done].
    apply Hall. by eapply tc_edge_key.
Qed.

End SimpleCorrect.

(** ** Facts about the insertion-ordered map *)

Section JsMapFacts.
Context {V : Type}.
Implicit Types (m : list (string * V)) (k : string) (v : V).

Lemma jsmap_get_set_eq m k v : JsMap.get (JsMap.set m k v) k = Some v.
Proof.
  induction m as [|[k' w] m IH]; simpl.
  - by rewrite decide_True.
  - destruct (decide (k' = k)) as [->|Hne]; simpl.
    + by rewrite decide_True.
    + by rewrite decide_False.
Qed.

Lemma jsmap_get_set_ne m k k' v :
  k ≠ k' → JsMap.get (JsMap.set m k v) k' = JsMap.get m k'.
Proof.
  intros Hne. induction m as [|[k0 w] m IH]; simpl.
  - by rewrite decide_False.
  - destruct (decide (k0 = k)) as [->|Hne0]; simpl.
    + by rewrite !decide_False.
    + by rewrite IH.
Qed.

Lemma jsmap_get_None m k : JsMap.get m k = None ↔ k ∉ m.*1.
Proof.
  induction m as [|[k' w] m IH]; simpl.
  - split; [intros _ H; by apply elem_of_nil in H | done].
  - rewrite not_elem_of_cons. destruct (decide (k' = k)) as [->|Hne].
    + split; [done | intros [? _]; done].
    + rewrite IH. split; [intros ?; split; [congruence|done] | by intros [_ ?]].
Qed.

Lemma jsmap_get_Some_elem m k v : JsMap.get m k = Some v → (k, v) ∈ m.
Proof.
  induction m as [|[k' w] m IH]; simpl; [done|].
  destruct (decide (k' = k)) as [->|Hne]; intros Hg.
  - simplify_eq. left.
  - right. by apply IH.
Qed.

Lemma jsmap_elem_get m k v : NoDup m.*1 → (k, v) ∈ m → JsMap.get m k = Some v.
Proof.
  induction m as [|[k' w] m IH]; simpl; intros Hnd Hin.
  - by apply elem_of_nil in Hin.
  - apply NoDup_cons in Hnd as [Hk' Hnd].
    apply elem_of_cons in Hin as [Heq|Hin].
    + simplify_eq. by rewrite decide_True.
    + rewrite decide_False; [by apply IH|].
      intros ->. apply Hk'. apply list_elem_of_fmap. by exists (k, v).
Qed.

Lemma jsmap_set_new m k v : JsMap.get m k = None → JsMap.set m k v = m ++ [(k, v)].
Proof.
  induction m as [|[k' w] m IH]; simpl; [done|].
  destruct (decide (k' = k)); [done|]. intros Hg. by rewrite IH.
Qed.

Lemma jsmap_set_keys_old m k v :
  is_Some (JsMap.get m k) → (JsMap.set m k v).*1 = m.*1.
Proof.
  induction m as [|[k' w] m IH]; cbn [JsMap.set JsMap.get].
  - by intros [? ?].
  - destruct (decide (k' = k)); [done|]. intros Hg.
    rewrite !fmap_cons. f_equal. by apply IH.
Qed.

Lemma jsmap_get_values m k v : JsMap.get m k = Some v → v ∈ m.*2.
Proof.
  intros H%jsmap_get_Some_elem. apply list_elem_of_fmap. by exists (k, v).
Qed.

End JsMapFacts.

(** ** The traversal of [getCycles] *)

Section DetailedTraversal.
Import Detailed.
Context (D : DependenciesListRecord) (Hclosed : closed D).

Definition info_of (st : State) (k : string) : option NodeInfo :=
  JsMap.get (mapNodeInfo st) k.

Definition visiting (st : State) (k : string) : Prop :=
  ∃ i m, info_of st k = Some (VisitingInfo i m).

Definition visited (st : State) (k : string) : Prop :=
  ∃ m p, info_of st k = Some (VisitedInfo m p).

Definition pending (st : State) : nat :=
  length (filter (λ k, info_of st k = None) (keys D)).

(** Shape of the bookkeeping: the map is keyed in visit order, every node
    knows its own index, low-links never exceed it, and a finished node's
    [cycleParent] is the node visited at its low-link. *)
Record wf (st : State) : Prop := {
  wf_keys : (mapNodeInfo st).*1 = visitOrderedList st;
  wf_nodup : NoDup (visitOrderedList st);
  wf_self : setSelfCycle st ⊆ visitOrderedList st;
  wf_info : ∀ k info, info_of st k = Some info →
    ∃ i, visitOrderedList st !! i = Some k ∧ minVisitIdx info ≤ i ∧
         match info with
         | VisitingInfo idx _ => idx = i
         | VisitedInfo m p => p = visitOrderedList st !! m
         end
}.

(** Evidence kept once [cycles] is set: a recorded self-loop, or a node whose
    low-link lies strictly below its own index. *)
Definition marked (st : State) : Prop :=
  setSelfCycle st ≠ [] ∨
  ∃ k info i, info_of st k = Some info ∧ visitOrderedList st !! i = Some k ∧
              minVisitIdx info < i.

Definition fin_closed (st : State) : Prop :=
  ∀ v w, visited st v → edge D v w → visited st w.

Definition fin_acyclic (st : State) : Prop :=
  ∀ v, visited st v → ¬ tc (edge D) v v.

Record flag_inv (st : State) : Prop := {
  flag_off : cycles st = false → fin_closed st ∧ fin_acyclic st;
  flag_on : cycles st = true → has_cycle D ∧ marked st
}.

(** What a step leaves alone. *)
Definition frame (st st' : State) : Prop :=
  ∀ k info, info_of st k = Some info → info_of st' k = Some info.

Definition fresh_finished (st st' : State) : Prop :=
  ∀ k i m, info_of st' k = Some (VisitingInfo i m) →
           info_of st k = Some (VisitingInfo i m).

Definition flag_mono (st st' : State) : Prop :=
  cycles st = true → cycles st' = true.

Lemma visited_not_visiting st k : visited st k → visiting st k → False.
Proof. intros (m & p & H1) (i & n & H2). congruence. Qed.

Lemma frame_visited st st' k : frame st st' → visited st k → visited st' k.
Proof. intros Hf (m & p & H). exists m, p. by apply Hf. Qed.

Lemma pending_mono st st' :
  (∀ k, info_of st' k = None → info_of st k = None) → pending st' ≤ pending st.
Proof. intros H. apply filter_length_mono. intros x _. apply H. Qed.

Lemma pending_lt st st' key :
  (∀ k, info_of st' k = None → info_of st k = None) →
  key ∈ keys D → info_of st key = None → info_of st' key ≠ None →
  pending st' < pending st.
Proof.
  intros H Hk Hn Hs. apply (filter_length_lt _ _ _ key); try done.
  intros x _. apply H.
Qed.

Lemma pending_pos st key : key ∈ keys D → info_of st key = None → 0 < pending st.
Proof.
  intros Hk Hn. unfold pending.
  assert (key ∈ filter (λ k, info_of st k = None) (keys D)) as Hin
    by (by apply list_elem_of_filter).
  destruct (filter _ _); [by apply elem_of_nil in Hin | simpl; lia].
Qed.

Lemma frame_pending st st' : frame st st' → pending st' ≤ pending st.
Proof.
  intros Hf. apply pending_mono. intros k Hk.
  destruct (info_of st k) eqn:E; [|done]. apply Hf in E. congruence.
Qed.

Lemma fin_closed_rtc st v w :
  fin_closed st → visited st v → rtc (edge D) v w → visited st w.
Proof. intros Hcl Hv Hr. induction Hr; eauto. Qed.

Lemma wf_in_list st k :
  wf st → is_Some (info_of st k) ↔ k ∈ visitOrderedList st.
Proof.
  intros Hwf. rewrite <- (wf_keys st Hwf). unfold info_of.
  rewrite <- not_eq_None_Some, jsmap_get_None.
  split; [apply dec_stable | by intros ? ?].
Qed.

Lemma setInfo_info_eq st key info : info_of (setInfo st key info) key = Some info.
Proof. apply jsmap_get_set_eq. Qed.

Lemma setInfo_info_ne st key k info :
  key ≠ k → info_of (setInfo st key info) k = info_of st k.
Proof. apply jsmap_get_set_ne. Qed.

(** Replacing the entry of a recorded node. *)
Lemma wf_setInfo st key info i :
  wf st → visitOrderedList st !! i = Some key → minVisitIdx info ≤ i →
  match info with
  | VisitingInfo idx _ => idx = i
  | VisitedInfo m p => p = visitOrderedList st !! m
  end →
  wf (setInfo st key info).
Proof.
  intros Hwf Hi Hmin Hshape.
  assert (is_Some (info_of st key)) as Hsome.
  { apply wf_in_list; [done|]. by eapply list_elem_of_lookup_2. }
  split.
  - change ((JsMap.set (mapNodeInfo st) key info).*1 = visitOrderedList st).
    rewrite jsmap_set_keys_old by done. apply Hwf.
  - apply Hwf.
  - apply Hwf.
  - intros k info' Hk. change (visitOrderedList (setInfo st key info))
      with (visitOrderedList st).
    destruct (decide (key = k)) as [<-|Hne].
    + rewrite setInfo_info_eq in Hk. simplify_eq. by exists i.
    + rewrite setInfo_info_ne in Hk by done. by apply (wf_info st Hwf).
Qed.

Lemma marked_setInfo st key info old :
  info_of st key = Some old → minVisitIdx info ≤ minVisitIdx old →
  marked st → marked (setInfo st key info).
Proof.
  intros Hold Hle [Hself|(k & inf & i & Hk & Hi & Hlt)]; [by left|right].
  destruct (decide (key = k)) as [<-|Hne].
  - exists key, info, i. rewrite setInfo_info_eq.
    split_and!; [done|done|]. simplify_eq. lia.
  - exists k, inf, i. by rewrite setInfo_info_ne.
Qed.

Lemma wf_flag st self b :
  wf st → self ⊆ visitOrderedList st →
  wf (mkState (mapNodeInfo st) (visitOrderedList st) self b).
Proof. intros [H1 H2 H3 H4] Hself. by split. Qed.

Lemma visited_setInfo_visiting st key i m v :
  visiting st key →
  visited (setInfo st key (VisitingInfo i m)) v ↔ visited st v.
Proof.
  intros (i0 & m0 & Hkey). unfold visited.
  destruct (decide (key = v)) as [<-|Hne].
  - rewrite setInfo_info_eq, Hkey. split; intros (? & ? & ?); congruence.
  - by rewrite setInfo_info_ne.
Qed.

(** Lowering the low-link of the node under visit keeps the invariants. *)
Lemma lower_ok st key visitIdx minIdx m :
  info_of st key = Some (VisitingInfo visitIdx minIdx) → m ≤ minIdx →
  wf st → flag_inv st →
  wf (setInfo st key (VisitingInfo visitIdx m)) ∧
  flag_inv (setInfo st key (VisitingInfo visitIdx m)).
Proof.
  intros Hkey Hle Hwf Hflag.
  destruct (wf_info st Hwf _ _ Hkey) as (i & Hi & Hmin & <-). simpl in Hmin.
  assert (visiting st key) as Hvis by (by exists visitIdx, minIdx).
  split.
  - apply (wf_setInfo st key _ visitIdx); simpl; try done. lia.
  - split.
    + intros Hoff. destruct (flag_off st Hflag Hoff) as [Hcl Hac]. split.
      * intros v w Hv He. apply visited_setInfo_visiting; [done|].
        apply visited_setInfo_visiting in Hv; [|done]. by eapply Hcl.
      * intros v Hv. apply visited_setInfo_visiting in Hv; [|done]. by apply Hac.
    + intros Hon. destruct (flag_on st Hflag Hon) as [Hcyc Hmark]. split; [done|].
      by eapply marked_setInfo.
Qed.

Record dfs_post (key : string) (st : State) (info : NodeInfo) (st' : State)
  : Prop := {
  vp_info : info_of st' key = Some info;
  vp_visited : visited st' key;
  vp_wf : wf st';
  vp_frame : frame st st';
  vp_fresh : fresh_finished st st';
  vp_flag : flag_inv st';
  vp_mono : flag_mono st st'
}.

Definition dfs_ok (visit : string → State → outcome (NodeInfo * State))
  (budget : nat) : Prop :=
  ∀ key st,
    key ∈ keys D → info_of st key = None → wf st →
    (∀ v, visiting st v → tc (edge D) v key) →
    flag_inv st → pending st ≤ budget →
    ∃ info st', visit key st = Done (info, st') ∧ dfs_post key st info st'.

Record loop_post (key : string) (visitIdx : nat) (ns : list string)
  (st : State) (m : nat) (st' : State) : Prop := {
  lp_info : info_of st' key = Some (VisitingInfo visitIdx m);
  lp_wf : wf st';
  lp_frame : ∀ k info, k ≠ key → info_of st k = Some info → info_of st' k = Some info;
  lp_fresh : ∀ k i n, k ≠ key → info_of st' k = Some (VisitingInfo i n) →
                      info_of st k = Some (VisitingInfo i n);
  lp_flag : flag_inv st';
  lp_mono : flag_mono st st';
  lp_done : cycles st' = false → ∀ n, n ∈ ns → visited st' n
}.

Lemma dfsNeighbors_ok visit budget key visitIdx :
  dfs_ok visit budget →
  ∀ ns minIdx st,
    (∀ n, n ∈ ns → edge D key n) →
    info_of st key = Some (VisitingInfo visitIdx minIdx) →
    wf st →
    (∀ v, visiting st v → v = key ∨ tc (edge D) v key) →
    (∀ k i n, info_of st k = Some (VisitingInfo i n) → i ≤ visitIdx) →
    flag_inv st → pending st ≤ budget →
    ∃ m st', dfsNeighbors visit key visitIdx ns minIdx st = Done (m, st') ∧
             loop_post key visitIdx ns st m st'.
Proof.
  intros Hvisit. induction ns as [|n ns IH];
    intros minIdx st Hedges Hkey Hwf Hstack Hbound Hflag Hbud.
  { exists minIdx, st. split; [done|].
    split; [done|done|done|done|done|by intros ?|].
    intros _ n Hn. by apply elem_of_nil in Hn. }
  assert (edge D key n) as Hn by (apply Hedges; left).
  assert (∀ n', n' ∈ ns → edge D key n') as Hedges'
    by (intros; apply Hedges; by right).
  destruct (wf_info st Hwf _ _ Hkey) as (ik & Hik & Hmin & <-). simpl in Hmin.
  assert (visiting st key) as Hvkey by (by exists visitIdx, minIdx).
  cbn [dfsNeighbors]. destruct (decide (n = key)) as [->|Hne].
  { (* self-loop *)
    set (st1 := mkState (mapNodeInfo st) (visitOrderedList st)
                        (set_add (setSelfCycle st) key) true).
    assert (set_add (setSelfCycle st) key ⊆ visitOrderedList st) as Hsub.
    { unfold set_add. case_decide; [apply Hwf|].
      intros x [Hx| ->%list_elem_of_singleton]%elem_of_app.
      - by apply (wf_self st Hwf).
      - by eapply list_elem_of_lookup_2. }
    destruct (IH minIdx st1) as (m & st' & Hrun & Hpost); try done.
    { by apply wf_flag. }
    { split; [done|]. intros _. split.
      - exists key. by apply tc_once.
      - left. simpl. unfold set_add. case_decide as Hin.
        + intros Heq. rewrite Heq in Hin. by apply elem_of_nil in Hin.
        + by destruct (setSelfCycle st). }
    exists m, st'. split; [done|]. destruct Hpost.
    split; [done|done|done|done|done|intros _; by apply lp_mono0|].
    intros Hoff. by rewrite (lp_mono0 eq_refl) in Hoff. }
  fold (info_of st n). destruct (info_of st n) as [[i nmin|nmin p]|] eqn:En.
  - (* neighbour under visit: a back edge *)
    set (m := Nat.min minIdx nmin).
    set (st1 := mkState (mapNodeInfo st) (visitOrderedList st) (setSelfCycle st) true).
    set (st2 := setInfo st1 key (VisitingInfo visitIdx m)).
    assert (wf st1) as Hwf1 by (apply wf_flag; [done|apply Hwf]).
    destruct (wf_info st Hwf _ _ En) as (i' & Hi' & Hnmin & <-). simpl in Hnmin.
    assert (i ≠ visitIdx) as Hineq.
    { intros ->. rewrite Hik in Hi'. congruence. }
    pose proof (Hbound _ _ _ En) as Hile.
    assert (wf st2) as Hwf2.
    { apply (wf_setInfo st1 key _ visitIdx); simpl; try done. lia. }
    destruct (IH m st2) as (m' & st' & Hrun & Hpost); try done.
    { apply setInfo_info_eq. }
    { intros v (iv & mv & Hv). destruct (decide (key = v)) as [<-|Hnv]; [by left|].
      unfold st2 in Hv. rewrite setInfo_info_ne in Hv by done.
      apply Hstack. by exists iv, mv. }
    { intros k ik nk Hk. destruct (decide (key = k)) as [<-|Hnk].
      - unfold st2 in Hk. rewrite setInfo_info_eq in Hk. by simplify_eq.
      - unfold st2 in Hk. rewrite setInfo_info_ne in Hk by done. by eapply Hbound. }
    { split; [done|]. intros _. split.
      - exists key. destruct (Hstack n) as [?|Hreach]; [by exists i, nmin|done|].
        by eapply tc_l.
      - right. exists key, (VisitingInfo visitIdx m), visitIdx.
        unfold st2. rewrite setInfo_info_eq. split_and!; [done|done|].
        simpl. lia. }
    { etrans; [|apply Hbud]. apply pending_mono. intros k Hk.
      destruct (decide (key = k)) as [<-|Hnk].
      - unfold st2 in Hk. by rewrite setInfo_info_eq in Hk.
      - unfold st2 in Hk. by rewrite setInfo_info_ne in Hk. }
    exists m', st'. split; [done|]. destruct Hpost. split; [done|done| | |done| |].
    + intros k info Hk Hinfo. apply lp_frame0; [done|].
      unfold st2. by rewrite setInfo_info_ne.
    + intros k ik nk Hk Hinfo. apply lp_fresh0 in Hinfo; [|done].
      unfold st2 in Hinfo. by rewrite setInfo_info_ne in Hinfo.
    + intros _. by apply lp_mono0.
    + intros Hoff. by rewrite (lp_mono0 eq_refl) in Hoff.
  - (* neighbour finished earlier *)
    set (m := Nat.min minIdx nmin).
    set (st2 := setInfo st key (VisitingInfo visitIdx m)).
    destruct (lower_ok st key visitIdx minIdx m) as [Hwf2 Hflag2]; try done.
    { lia. }
    destruct (IH m st2) as (m' & st' & Hrun & Hpost); try done.
    { apply setInfo_info_eq. }
    { intros v (iv & mv & Hv). destruct (decide (key = v)) as [<-|Hnv]; [by left|].
      unfold st2 in Hv. rewrite setInfo_info_ne in Hv by done.
      apply Hstack. by exists iv, mv. }
    { intros k ik nk Hk. destruct (decide (key = k)) as [<-|Hnk].
      - unfold st2 in Hk. rewrite setInfo_info_eq in Hk. by simplify_eq.
      - unfold st2 in Hk. rewrite setInfo_info_ne in Hk by done. by eapply Hbound. }
    { etrans; [|apply Hbud]. apply pending_mono. intros k Hk.
      destruct (decide (key = k)) as [<-|Hnk].
      - unfold st2 in Hk. by rewrite setInfo_info_eq in Hk.
      - unfold st2 in Hk. by rewrite setInfo_info_ne in Hk. }
    exists m', st'. split; [done|]. destruct Hpost. split; [done|done| | |done| |].
    + intros k info Hk Hinfo. apply lp_frame0; [done|].
      unfold st2. by rewrite setInfo_info_ne.
    + intros k ik nk Hk Hinfo. apply lp_fresh0 in Hinfo; [|done].
      unfold st2 in Hinfo. by rewrite setInfo_info_ne in Hinfo.
    + intros Hon. by apply lp_mono0.
    + intros Hoff n' [->|Hn']%elem_of_cons; [|by apply lp_done0].
      exists nmin, p. apply lp_frame0; [done|].
      unfold st2. by rewrite setInfo_info_ne.
  - (* unvisited neighbour: recursive visit *)
    destruct (Hvisit n st) as (info & st1 & -> & Hp1); try done.
    { by eapply closed_edge. }
    { intros v Hv. destruct (Hstack v Hv) as [->|Hreach].
      - by apply tc_once.
      - by eapply tc_r. }
    destruct Hp1 as [Hinfo1 Hvis1 Hwf1 Hframe1 Hfresh1 Hflag1 Hmono1].
    set (m := Nat.min minIdx (minVisitIdx info)).
    set (st2 := setInfo st1 key (VisitingInfo visitIdx m)).
    assert (info_of st1 key = Some (VisitingInfo visitIdx minIdx)) as Hkey1
      by (by apply Hframe1).
    destruct (lower_ok st1 key visitIdx minIdx m) as [Hwf2 Hflag2]; try done.
    { lia. }
    destruct (IH m st2) as (m' & st' & Hrun & Hpost); try done.
    { apply setInfo_info_eq. }
    { intros v (iv & mv & Hv). destruct (decide (key = v)) as [<-|Hnv]; [by left|].
      unfold st2 in Hv. rewrite setInfo_info_ne in Hv by done.
      apply Hstack. exists iv, mv. by apply Hfresh1. }
    { intros k ik nk Hk. destruct (decide (key = k)) as [<-|Hnk].
      - unfold st2 in Hk. rewrite setInfo_info_eq in Hk. by simplify_eq.
      - unfold st2 in Hk. rewrite setInfo_info_ne in Hk by done.
        eapply Hbound. by apply Hfresh1. }
    { etrans; [|apply Hbud]. etrans; [|by apply frame_pending].
      apply pending_mono. intros k Hk.
      destruct (decide (key = k)) as [<-|Hnk].
      - unfold st2 in Hk. by rewrite setInfo_info_eq in Hk.
      - unfold st2 in Hk. by rewrite setInfo_info_ne in Hk. }
    exists m', st'. split; [done|]. destruct Hpost. split; [done|done| | |done| |].
    + intros k info' Hk Hinfo. apply lp_frame0; [done|].
      unfold st2. rewrite setInfo_info_ne by done. by apply Hframe1.
    + intros k ik nk Hk Hinfo. apply lp_fresh0 in Hinfo; [|done].
      unfold st2 in Hinfo. rewrite setInfo_info_ne in Hinfo by done.
      by apply Hfresh1.
    + intros Hon. apply lp_mono0. simpl. by apply Hmono1.
    + intros Hoff n' [->|Hn']%elem_of_cons; [|by apply lp_done0].
      destruct Hvis1 as (mn & pn & Hn1). exists mn, pn. apply lp_frame0; [done|].
      unfold st2. by rewrite setInfo_info_ne.
Qed.

Lemma visited_setInfo_visited st key m p v :
  visited (setInfo st key (VisitedInfo m p)) v ↔ v = key ∨ (v ≠ key ∧ visited st v).
Proof.
  unfold visited. destruct (decide (key = v)) as [<-|Hne].
  - rewrite setInfo_info_eq. split; [by left|]. intros _. by exists m, p.
  - rewrite setInfo_info_ne by done. split.
    + intros ?. right. split; [congruence|done].
    + by intros [->|[_ ?]].
Qed.

(** Recording a node that has not been seen before. *)
Lemma enter_ok st key :
  wf st → info_of st key = None → flag_inv st →
  let visitIdx := length (visitOrderedList st) in
  let st1 := mkState (JsMap.set (mapNodeInfo st) key (VisitingInfo visitIdx visitIdx))
                     (visitOrderedList st ++ [key]) (setSelfCycle st) (cycles st) in
  info_of st1 key = Some (VisitingInfo visitIdx visitIdx) ∧
  (∀ k, k ≠ key → info_of st1 k = info_of st k) ∧
  wf st1 ∧ flag_inv st1.
Proof.
  intros Hwf Hnone Hflag visitIdx st1.
  assert (info_of st1 key = Some (VisitingInfo visitIdx visitIdx)) as Hkey
    by apply jsmap_get_set_eq.
  assert (∀ k, k ≠ key → info_of st1 k = info_of st k) as Hother.
  { intros k Hk. apply jsmap_get_set_ne. congruence. }
  assert (key ∉ visitOrderedList st) as Hnotin.
  { intros Hin. apply (wf_in_list st key Hwf) in Hin as [? ?]. congruence. }
  assert (∀ v, visited st1 v ↔ visited st v) as Hvis.
  { intros v. unfold visited. destruct (decide (v = key)) as [->|Hne].
    - rewrite Hkey, Hnone. split; intros (? & ? & ?); congruence.
    - by rewrite Hother. }
  split_and!; try done.
  - split.
    + change ((JsMap.set (mapNodeInfo st) key (VisitingInfo visitIdx visitIdx)).*1
              = visitOrderedList st ++ [key]).
      rewrite jsmap_set_new by done. rewrite fmap_app. by rewrite (wf_keys st Hwf).
    + change (NoDup (visitOrderedList st ++ [key])).
      apply NoDup_app. split_and!; [apply Hwf| |apply NoDup_singleton].
      intros x Hx ->%list_elem_of_singleton. done.
    + change (setSelfCycle st ⊆ visitOrderedList st ++ [key]).
      intros x Hx. apply elem_of_app. left. by apply (wf_self st Hwf).
    + intros k info Hk. change (visitOrderedList st1) with (visitOrderedList st ++ [key]).
      destruct (decide (k = key)) as [->|Hne].
      * rewrite Hkey in Hk. simplify_eq. exists visitIdx. split_and!; try done.
        rewrite lookup_app_r by done. unfold visitIdx. by rewrite Nat.sub_diag.
      * rewrite Hother in Hk by done.
        destruct (wf_info st Hwf _ _ Hk) as (i & Hi & Hmin & Hshape).
        pose proof (lookup_lt_Some _ _ _ Hi) as Hlt.
        exists i. split_and!; try done.
        { by apply lookup_app_l_Some. }
        destruct info; [done|]. rewrite lookup_app_l; [done|]. simpl in Hmin. lia.
  - split.
    + intros Hoff. destruct (flag_off st Hflag Hoff) as [Hcl Hac]. split.
      * intros v w Hv He. apply Hvis. apply Hvis in Hv. by eapply Hcl.
      * intros v Hv. apply Hvis in Hv. by apply Hac.
    + intros Hon. destruct (flag_on st Hflag Hon) as [Hcyc Hmark]. split; [done|].
      destruct Hmark as [Hself|(k & info & i & Hk & Hi & Hlt)]; [by left|right].
      exists k, info, i. split_and!; try done.
      * rewrite Hother; [done|]. intros ->. congruence.
      * by apply lookup_app_l_Some.
Qed.

Lemma dfsVisit_ok fuel : dfs_ok (dfsVisit fuel D) fuel.
Proof.
  induction fuel as [|fuel IH]; intros key st Hk Hnone Hwf Hstack Hflag Hbud.
  { pose proof (pending_pos st key Hk Hnone). lia. }
  cbn [dfsVisit]. destruct (deps_lookup_key D key Hk) as [ns Hns]. rewrite Hns.
  set (visitIdx := length (visitOrderedList st)).
  set (st1 := mkState _ _ _ _).
  destruct (enter_ok st key Hwf Hnone Hflag) as (Hkey1 & Hother1 & Hwf1 & Hflag1).
  fold visitIdx in Hkey1, Hother1, Hwf1, Hflag1. fold st1 in Hkey1, Hother1, Hwf1, Hflag1.
  destruct (dfsNeighbors_ok (dfsVisit fuel D) fuel key visitIdx IH ns visitIdx st1)
    as (m & st2 & -> & Hpost); try done.
  { intros n Hn. by exists ns. }
  { intros v (i & n & Hv). destruct (decide (v = key)) as [->|Hne]; [by left|].
    right. apply Hstack. exists i, n. by rewrite <- Hother1. }
  { intros k i n Hki. destruct (decide (k = key)) as [->|Hne].
    - rewrite Hkey1 in Hki. by simplify_eq.
    - rewrite Hother1 in Hki by done.
      destruct (wf_info st Hwf _ _ Hki) as (i' & Hi' & _ & <-).
      apply lookup_lt_Some in Hi'. unfold visitIdx. lia. }
  { assert (pending st1 < pending st); [|lia].
    apply (pending_lt _ _ key); try done.
    - intros k Hkn. destruct (decide (k = key)) as [->|Hne]; [done|].
      by rewrite <- Hother1.
    - by rewrite Hkey1. }
  destruct Hpost as [Hkey2 Hwf2 Hframe2 Hfresh2 Hflag2 Hmono2 Hdone2].
  destruct (wf_info st2 Hwf2 _ _ Hkey2) as (ik & Hik & Hmin & <-). simpl in Hmin.
  assert (visiting st2 key) as Hvkey2 by (by exists visitIdx, m).
  set (nodeInfo := VisitedInfo m (visitOrderedList st2 !! m)).
  exists nodeInfo, (setInfo st2 key nodeInfo). split; [done|]. split.
  - apply setInfo_info_eq.
  - apply visited_setInfo_visited. by left.
  - by apply (wf_setInfo st2 key _ visitIdx).
  - intros k info Hki. assert (k ≠ key) as Hne by congruence.
    rewrite setInfo_info_ne by done. apply Hframe2; [done|]. by rewrite Hother1.
  - intros k i n Hki. destruct (decide (key = k)) as [<-|Hne].
    { by rewrite setInfo_info_eq in Hki. }
    rewrite setInfo_info_ne in Hki by done.
    apply Hfresh2 in Hki; [|done]. by rewrite Hother1 in Hki.
  - split.
    + intros Hoff. destruct (flag_off st2 Hflag2 Hoff) as [Hcl Hac].
      specialize (Hdone2 Hoff). split.
      * intros v w Hv He. apply visited_setInfo_visited.
        destruct (decide (w = key)) as [->|Hw]; [by left|right]. split; [done|].
        apply visited_setInfo_visited in Hv as [->|[_ Hv]].
        -- destruct He as (ns' & Hl & Hin). rewrite Hns in Hl. simplify_eq.
           by apply Hdone2.
        -- by eapply Hcl.
      * intros v Hv Hcyc. apply visited_setInfo_visited in Hv as [->|[_ Hv]].
        -- apply tc_first_step in Hcyc as (w & (ns' & Hl & Hin) & Hback).
           rewrite Hns in Hl. simplify_eq.
           eapply visited_not_visiting; [|exact Hvkey2].
           eapply fin_closed_rtc; [done| |done]. by apply Hdone2.
        -- by eapply Hac.
    + intros Hon. destruct (flag_on st2 Hflag2 Hon) as [Hcyc Hmark]. split; [done|].
      by eapply marked_setInfo.
  - intros Hon. by apply Hmono2.
Qed.

Record all_post (ks : list string) (st st' : State) : Prop := {
  ap_wf : wf st';
  ap_none : ∀ v, ¬ visiting st' v;
  ap_flag : flag_inv st';
  ap_frame : frame st st';
  ap_all : ∀ k, k ∈ ks → visited st' k
}.

Lemma visitAll_ok fuel ks st :
  ks ⊆ keys D → wf st → (∀ v, ¬ visiting st v) → flag_inv st →
  pending st ≤ fuel →
  ∃ st', Detailed.visitAll fuel D ks st = Done st' ∧ all_post ks st st'.
Proof.
  revert st. induction ks as [|k ks IH]; intros st Hks Hwf Hnone Hflag Hbud.
  { exists st. split; [done|]. split; [done|done|done|by intros ? ?|].
    intros k Hk. by apply elem_of_nil in Hk. }
  assert (k ∈ keys D) as Hk by (apply Hks; left).
  assert (ks ⊆ keys D) as Hks' by (intros x Hx; apply Hks; by right).
  cbn [Detailed.visitAll]. fold (info_of st k).
  destruct (info_of st k) as [info|] eqn:Ek.
  - destruct (IH st) as (st' & -> & Hpost); try done.
    exists st'. split; [done|]. destruct Hpost. split; [done|done|done|done|].
    intros k' [->|Hk']%elem_of_cons; [|by apply ap_all0].
    eapply frame_visited; [done|]. destruct info as [i n|m p].
    + exfalso. apply (Hnone k). by exists i, n.
    + by exists m, p.
  - destruct (dfsVisit_ok fuel k st) as (info & st1 & -> & Hp1); try done.
    { intros v Hv. by apply Hnone in Hv. }
    destruct Hp1 as [Hinfo1 Hvis1 Hwf1 Hframe1 Hfresh1 Hflag1 Hmono1].
    destruct (IH st1) as (st' & -> & Hpost); try done.
    { intros v (i & n & Hv). apply (Hnone v). exists i, n. by apply Hfresh1. }
    { pose proof (frame_pending st st1 Hframe1). lia. }
    exists st'. split; [done|]. destruct Hpost. split; [done|done|done| |].
    + intros x info' Hx. by apply ap_frame0, Hframe1.
    + intros k' [->|Hk']%elem_of_cons; [|by apply ap_all0].
      by eapply frame_visited.
Qed.

End DetailedTraversal.

(** ** Grouping the nodes by component root *)

Lemma two_elements {A : Type} (l : list A) x y :
  x ∈ l → y ∈ l → x ≠ y → 1 < length l.
Proof.
  destruct l as [|a [|b l]]; simpl; intros Hx Hy Hne; [| |lia].
  - by apply elem_of_nil in Hx.
  - apply list_elem_of_singleton in Hx, Hy. congruence.
Qed.

Section DetailedCollect.
Import Detailed.
Context (infos : list (string * NodeInfo)).
Context (Hnd : NoDup infos.*1).
(** Every entry is finished, and its [cycleParent] is the node itself or a
    node recorded earlier. *)
Context (Hshape : ∀ done x info rest, infos = done ++ (x, info) :: rest →
  ∃ m p, info = VisitedInfo m p ∧ (p = Some x ∨ ∃ p', p = Some p' ∧ p' ∈ done.*1)).

Record cinv (done : list (string * NodeInfo)) (roots : gmap string string)
  (comps : list (string * list string)) : Prop := {
  ci_dom : ∀ x, x ∈ done.*1 ↔ is_Some (roots !! x);
  ci_root : ∀ x r, roots !! x = Some r →
    r ∈ done.*1 ∧ ∃ comp, JsMap.get comps r = Some comp ∧ x ∈ comp ∧ r ∈ comp;
  ci_self : ∀ x m, (x, VisitedInfo m (Some x)) ∈ done → roots !! x = Some x;
  ci_fix : ∀ x m p, roots !! x = Some x → (x, VisitedInfo m p) ∈ done → p = Some x
}.

Lemma infos_entry done x info rest :
  infos = done ++ (x, info) :: rest →
  (x ∉ done.*1) ∧ ∀ y i, (y, i) ∈ done → JsMap.get infos y = Some i.
Proof.
  intros Heq. pose proof Hnd as Hnd'. rewrite Heq in Hnd'.
  rewrite fmap_app, fmap_cons in Hnd'. apply NoDup_app in Hnd' as (_ & Hdisj & _).
  split.
  - intros Hx. apply (Hdisj x Hx). left.
  - intros y i Hy. apply jsmap_elem_get; [done|]. rewrite Heq.
    apply elem_of_app. by left.
Qed.

Lemma getComponentRoot_ok done x m p rest roots comps :
  infos = done ++ (x, VisitedInfo m p) :: rest → cinv done roots comps →
  ∃ r, getComponentRoot (S (length infos)) infos roots x p = Done r ∧
       ((p = Some x ∧ r = x) ∨
        (p ≠ Some x ∧ r ∈ done.*1 ∧
         ∃ comp, JsMap.get comps r = Some comp ∧ r ∈ comp)).
Proof.
  intros Heq Hinv. destruct (infos_entry _ _ _ _ Heq) as [Hx Hget].
  cbn [getComponentRoot]. destruct (decide (p = Some x)) as [->|Hp].
  { exists x. split; [done|]. by left. }
  assert (roots !! x = None) as ->.
  { apply eq_None_not_Some. intros Hs. by apply (ci_dom _ _ _ Hinv) in Hs. }
  destruct (Hshape _ _ _ _ Heq) as (m0 & p0 & Hinfo & Hcase).
  injection Hinfo as <- <-. destruct Hcase as [?|(p' & -> & Hp')]; [done|].
  apply list_elem_of_fmap in Hp' as ([y info'] & Hy & Hin). simpl in Hy. subst y.
  pose proof (Hget _ _ Hin) as Hg.
  apply list_elem_of_split in Hin as (d1 & d2 & Hd).
  destruct (Hshape d1 p' info' (d2 ++ (x, VisitedInfo m (Some p')) :: rest))
    as (m' & pp & -> & _).
  { rewrite Heq, Hd. by rewrite <- app_assoc. }
  rewrite Hg.
  assert (p' ∈ done.*1) as Hp'in.
  { rewrite Hd, fmap_app, fmap_cons. apply elem_of_app. right. left. }
  destruct (length infos) as [|n] eqn:Hlen.
  { rewrite Heq, length_app in Hlen. simpl in Hlen. lia. }
  cbn [getComponentRoot]. destruct (decide (pp = Some p')) as [->|Hpp].
  - exists p'. split; [done|]. right. split_and!; [done|done|].
    assert (roots !! p' = Some p') as Hr.
    { apply (ci_self _ _ _ Hinv p' m'). rewrite Hd. apply elem_of_app. right. left. }
    destruct (ci_root _ _ _ Hinv _ _ Hr) as (_ & comp & ? & ? & ?). eauto.
  - apply (ci_dom _ _ _ Hinv) in Hp'in as [r Hr]. rewrite Hr.
    exists r. split; [done|]. right.
    destruct (ci_root _ _ _ Hinv _ _ Hr) as (? & comp & ? & ? & ?). eauto.
Qed.

Lemma cinv_step done x m p rest roots comps r :
  infos = done ++ (x, VisitedInfo m p) :: rest → cinv done roots comps →
  ((p = Some x ∧ r = x) ∨
   (p ≠ Some x ∧ r ∈ done.*1 ∧ ∃ comp, JsMap.get comps r = Some comp ∧ r ∈ comp)) →
  cinv (done ++ [(x, VisitedInfo m p)]) (<[x := r]> roots)
       (JsMap.set comps r (default [] (JsMap.get comps r) ++ [x])).
Proof.
  intros Heq Hinv Hr. destruct (infos_entry _ _ _ _ Heq) as [Hx Hget].
  assert (r ∈ (done ++ [(x, VisitedInfo m p)]).*1) as Hrin.
  { rewrite fmap_app. apply elem_of_app.
    destruct Hr as [[_ ->]|(_ & ? & _)]; [right; left | by left]. }
  assert (r ∈ default [] (JsMap.get comps r) ++ [x]) as Hrcomp.
  { apply elem_of_app. destruct Hr as [[_ ->]|(_ & _ & comp & -> & ?)].
    - right. left.
    - by left. }
  split.
  - intros y. rewrite fmap_app, elem_of_app, lookup_insert_is_Some.
    rewrite (ci_dom _ _ _ Hinv y). simpl. rewrite list_elem_of_singleton.
    split; [intros [?| ->]|intros [->|[_ ?]]]; eauto.
    destruct (decide (x = y)); eauto.
  - intros y r' Hy. destruct (decide (x = y)) as [<-|Hne].
    + rewrite lookup_insert_eq in Hy. simplify_eq. split; [done|].
      eexists. split; [apply jsmap_get_set_eq|]. split; [|done].
      apply elem_of_app. right. left.
    + rewrite lookup_insert_ne in Hy by done.
      destruct (ci_root _ _ _ Hinv _ _ Hy) as (Hr' & comp & Hc & Hyc & Hrc).
      split. { rewrite fmap_app. apply elem_of_app. by left. }
      destruct (decide (r = r')) as [<-|Hrr].
      * eexists. split; [apply jsmap_get_set_eq|].
        rewrite Hc. simpl. split; apply elem_of_app; by left.
      * exists comp. by rewrite jsmap_get_set_ne.
  - intros y m' [Hin|Hin%list_elem_of_singleton]%elem_of_app.
    + rewrite lookup_insert_ne; [by eapply ci_self|].
      intros <-. apply Hx. apply list_elem_of_fmap. by eexists (_, _).
    + simplify_eq. destruct Hr as [[_ ->]|[? _]]; [|done]. apply lookup_insert_eq.
  - intros y m' p' Hy [Hin|Hin%list_elem_of_singleton]%elem_of_app.
    + assert (x ≠ y) as Hne.
      { intros <-. apply Hx. apply list_elem_of_fmap. by eexists (_, _). }
      rewrite lookup_insert_ne in Hy by done. by eapply ci_fix.
    + simplify_eq. rewrite lookup_insert_eq in Hy. simplify_eq.
      destruct Hr as [[? _]|(_ & ? & _)]; done.
Qed.

Lemma collect_ok entries :
  ∀ done roots comps,
    infos = done ++ entries → cinv done roots comps →
    ∃ roots' comps', collect infos entries roots comps = Done (roots', comps') ∧
                     cinv infos roots' comps'.
Proof.
  induction entries as [|[x info] rest IH]; intros done roots comps Heq Hinv.
  { rewrite app_nil_r in Heq. subst done. by exists roots, comps. }
  destruct (Hshape _ _ _ _ Heq) as (m & p & -> & _).
  destruct (getComponentRoot_ok _ _ _ _ _ _ _ Heq Hinv) as (r & Hrun & Hr).
  pose proof (cinv_step _ _ _ _ _ _ _ r Heq Hinv Hr) as Hinv'.
  cbn [collect]. rewrite Hrun.
  destruct (IH (done ++ [(x, VisitedInfo m p)]) (<[x := r]> roots)
              (JsMap.set comps r (default [] (JsMap.get comps r) ++ [x])))
    as (roots' & comps' & Hrun' & Hfinal); [by rewrite <- app_assoc|done|].
  exists roots', comps'. split; [|done].
  destruct (JsMap.get comps r); exact Hrun'.
Qed.

Lemma cinv_nil : cinv [] ∅ [].
Proof.
  split.
  - intros x. rewrite lookup_empty. split; [by intros ?%elem_of_nil|by intros [? ?]].
  - intros x r. by rewrite lookup_empty.
  - intros x m ?%elem_of_nil. done.
  - intros x m p. by rewrite lookup_empty.
Qed.

End DetailedCollect.

(** ** [getCycles] reports something exactly when there is a cycle *)

Section DetailedCorrect.
Import Detailed.
Context (D : DependenciesListRecord) (Hclosed : closed D).

Lemma wf_init : wf init.
Proof. split; [done|apply NoDup_nil_2|done|done]. Qed.

Lemma flag_inv_init : flag_inv D init.
Proof.
  split; [|done]. intros _. split.
  - intros v w (m & p & Hv). done.
  - intros v (m & p & Hv). done.
Qed.

(** At the end of the traversal every entry is finished and points to itself
    or to an earlier entry. *)
Lemma final_shape st :
  wf st → (∀ v, ¬ visiting st v) →
  ∀ done x info rest, mapNodeInfo st = done ++ (x, info) :: rest →
    ∃ m p, info = VisitedInfo m p ∧
           (p = Some x ∨ ∃ p', p = Some p' ∧ p' ∈ done.*1).
Proof.
  intros Hwf Hnone done x info rest Heq.
  assert (NoDup (mapNodeInfo st).*1) as Hnd.
  { rewrite (wf_keys st Hwf). apply Hwf. }
  assert (info_of st x = Some info) as Hx.
  { apply jsmap_elem_get; [done|]. rewrite Heq. apply elem_of_app. right. left. }
  destruct info as [i n|m p].
  { exfalso. apply (Hnone x). by exists i, n. }
  exists m, p. split; [done|].
  destruct (wf_info st Hwf _ _ Hx) as (i & Hi & Hmin & ->). simpl in Hmin.
  assert (visitOrderedList st = done.*1 ++ x :: rest.*1) as Hlist.
  { rewrite <- (wf_keys st Hwf), Heq. by rewrite fmap_app, fmap_cons. }
  assert (visitOrderedList st !! length done.*1 = Some x) as Hpos.
  { rewrite Hlist. by rewrite list_lookup_middle. }
  assert (i = length done.*1) as ->.
  { eapply NoDup_lookup; [apply Hwf|done|done]. }
  destruct (decide (m = length done.*1)) as [->|Hne].
  - by left.
  - right. assert (m < length done.*1) as Hlt by lia.
    rewrite Hlist, lookup_app_l by done.
    destruct (lookup_lt_is_Some_2 _ _ Hlt) as [p' Hp']. exists p'. split; [done|].
    by eapply list_elem_of_lookup_2.
Qed.

Lemma getCycles_spec :
  ∃ cs, getCycles D = Done cs ∧ (cs ≠ [] ↔ has_cycle D).
Proof.
  unfold getCycles.
  destruct (visitAll_ok D Hclosed (S (length D)) (keys D) init)
    as (st & -> & [Hwf Hnone Hflag _ Hall]).
  { done. }
  { apply wf_init. }
  { intros v (i & n & Hv). done. }
  { apply flag_inv_init. }
  { unfold pending. etrans; [apply length_filter|].
    unfold keys. rewrite length_fmap. lia. }
  destruct (cycles st) eqn:Hcyc; cbn [negb].
  2:{ exists []. split; [done|]. split; [done|]. intros [x Hx]. exfalso.
      destruct (flag_off D st Hflag Hcyc) as [_ Hac].
      eapply Hac; [|done]. apply Hall. by eapply tc_edge_key. }
  destruct (flag_on D st Hflag Hcyc) as [Hhas Hmark].
  assert (NoDup (mapNodeInfo st).*1) as Hnd.
  { rewrite (wf_keys st Hwf). apply Hwf. }
  pose proof (final_shape st Hwf Hnone) as Hshape.
  destruct (collect_ok (mapNodeInfo st) Hnd Hshape (mapNodeInfo st) [] ∅ [])
    as (roots & comps & -> & Hinv); [done|apply cinv_nil|].
  eexists. split; [done|]. split; [done|]. intros _.
  (* a component with two members makes the second list non-empty *)
  assert (∀ x r, roots !! x = Some r → r ≠ x →
            filter (λ l, 1 < length l) (comps.*2) ≠ []) as Hbig.
  { intros x r Hr Hne.
    destruct (ci_root _ _ _ Hinv _ _ Hr) as (_ & comp & Hc & Hxc & Hrc).
    assert (comp ∈ filter (λ l, 1 < length l) (comps.*2)) as Hin.
    { apply list_elem_of_filter. split; [by apply (two_elements comp r x)|].
      by eapply jsmap_get_values. }
    intros Hnil. rewrite Hnil in Hin. by apply elem_of_nil in Hin. }
  assert (∀ x, x ∈ (mapNodeInfo st).*1 → ∃ r, roots !! x = Some r) as Hdom.
  { intros x Hx. by apply (ci_dom _ _ _ Hinv) in Hx as [r ?]; eauto. }
  intros Hnil. apply app_eq_nil in Hnil as [Hself Hnon].
  destruct Hmark as [Hne|(k & info & i & Hk & Hi & Hlt)].
  - destruct (setSelfCycle st) as [|x rest] eqn:Hs; [done|].
    assert (x ∈ (mapNodeInfo st).*1) as Hx.
    { rewrite (wf_keys st Hwf). apply (wf_self st Hwf). rewrite Hs. left. }
    destruct (Hdom x Hx) as [r Hr].
    destruct (decide (r = x)) as [->|Hrx]; [|by eapply Hbig].
    destruct (ci_root _ _ _ Hinv _ _ Hr) as (_ & comp & Hc & Hxc & _).
    destruct (decide (1 < length comp)) as [Hlen|Hlen].
    + assert (comp ∈ filter (λ l, 1 < length l) (comps.*2)) as Hin.
      { apply list_elem_of_filter. split; [done|]. by eapply jsmap_get_values. }
      rewrite Hnon in Hin. by apply elem_of_nil in Hin.
    + apply fmap_nil_inv in Hself.
      assert (x ∈ filter (λ node, isLoneSelfCycle roots comps node = true)
                         (x :: rest)) as Hin.
      { apply list_elem_of_filter. split; [|left].
        unfold isLoneSelfCycle. rewrite decide_True by done. rewrite Hc.
        by rewrite bool_decide_eq_false_2. }
      rewrite Hself in Hin. by apply elem_of_nil in Hin.
  - assert (k ∈ (mapNodeInfo st).*1) as Hkin.
    { rewrite (wf_keys st Hwf). by eapply list_elem_of_lookup_2. }
    destruct (Hdom k Hkin) as [r Hr].
    destruct (decide (r = k)) as [->|Hrk]; [|by eapply Hbig].
    destruct info as [i' n|m p].
    { apply (Hnone k). by exists i', n. }
    destruct (wf_info st Hwf _ _ Hk) as (j & Hj & _ & ->). simpl in Hlt.
    assert (visitOrderedList st !! m = Some k) as Hm.
    { eapply (ci_fix _ _ _ Hinv k m); [done|]. by apply jsmap_get_Some_elem. }
    assert (m = i) by (eapply NoDup_lookup; [apply Hwf|done|done]). lia.
Qed.

End DetailedCorrect.

(** ** The resolution engine: what an access does to the store *)

(** The member an event is about. *)
Definition event_member (ev : event) : option string :=
  match ev with
  | Log _ => None
  | Invoke m _ | Returned m _ | Raised m _ => Some m
  end.

(** Writing the returned values of a run of events into a cache. *)
Definition replay (new : list event) (c : gmap string value) : gmap string value :=
  foldl (λ c ev, match ev with Returned k v => <[k := v]> c | _ => c end) c new.

Definition is_invoke (m : string) (ev : event) : bool :=
  match ev with
  | Invoke m' _ => bool_decide (m' = m)
  | _ => false
  end.

(** Number of times the provider of [m] was entered. *)
Definition invocations (m : string) (tr : list event) : nat :=
  length (filter (λ ev, is_invoke m ev = true) tr).

Lemma replay_app new1 new2 c : replay (new1 ++ new2) c = replay new2 (replay new1 c).
Proof. apply foldl_app. Qed.

Lemma replay_cons ev new c :
  replay (ev :: new) c =
  replay new (match ev with Returned k v => <[k := v]> c | _ => c end).
Proof. done. Qed.

Lemma replay_frame new c k :
  Forall (λ ev, event_member ev ≠ Some k) new → replay new c !! k = c !! k.
Proof.
  revert c. induction new as [|ev new IH]; intros c Hall; [done|].
  apply Forall_cons in Hall as [Hev Hall]. rewrite replay_cons, IH by done.
  destruct ev; try done. simpl in Hev. rewrite lookup_insert_ne; [done|congruence].
Qed.


Lemma invocations_app m tr1 tr2 :
  invocations m (tr1 ++ tr2) = invocations m tr1 + invocations m tr2.
Proof. unfold invocations. by rewrite filter_app, length_app. Qed.

Lemma invocations_frame m new :
  Forall (λ ev, event_member ev ≠ Some m) new → invocations m new = 0.
Proof.
  unfold invocations. induction new as [|ev new IH]; intros Hall; [done|].
  apply Forall_cons in Hall as [Hev Hall]. rewrite filter_cons.
  destruct (decide _) as [Hinv|_]; [|by apply IH].
  destruct ev; try done. simpl in Hinv, Hev.
  apply bool_decide_eq_true in Hinv. congruence.
Qed.

Section Resolver.
Import Injector.
Context {W : Type} (D : DependenciesListRecord) (mdl : gmap string (Provider W))
  (opts : option DependencyInjectionOptions).

Local Abbreviation inj := (mkInjector D mdl opts (keys D)).
Local Abbreviation cache := mapModuleObjects.
Implicit Types (st : State W).

(** Entries that count as cached are never changed. *)
Definition hits_kept (st st' : State W) : Prop :=
  ∀ k u, hit (cache st !! k) = Some u → cache st' !! k = Some u.

(** A run from [st] to [st'] appended events about members in [R] only, and
    changed the cache exactly by the values returned on the way. *)
Definition effects (R : string → Prop) (st st' : State W) : Prop :=
  ∃ new, trace st' = trace st ++ new ∧
         cache st' = replay new (cache st) ∧
         Forall (λ ev, ∀ k, event_member ev = Some k → R k) new ∧
         hits_kept st st'.

Definition effects_of {A : Type} (R : string → Prop) (st : State W)
  (r : result W A) : Prop :=
  match r with
  | Ok _ st' | Raise _ st' => effects R st st'
  | NoFuel => True
  end.

Lemma hit_Some (o : option value) u :
  hit o = Some u ↔ o = Some u ∧ neq_undefined u = true.
Proof.
  unfold hit. destruct o as [v|]; [|split; [done|by intros [? _]]].
  destruct (neq_undefined v) eqn:E; split.
  - by intros [= <-].
  - by intros [[= <-] _].
  - done.
  - intros [[= <-] ?]. congruence.
Qed.

Lemma effects_refl R st : effects R st st.
Proof.
  exists []. split_and!; [by rewrite app_nil_r|done|done|].
  intros k u Hk. by apply hit_Some in Hk as [? _].
Qed.

Lemma effects_trans R st1 st2 st3 :
  effects R st1 st2 → effects R st2 st3 → effects R st1 st3.
Proof.
  intros (n1 & Ht1 & Hc1 & Hf1 & Hh1) (n2 & Ht2 & Hc2 & Hf2 & Hh2).
  exists (n1 ++ n2). split_and!.
  - by rewrite Ht2, Ht1, app_assoc.
  - by rewrite Hc2, Hc1, replay_app.
  - by apply Forall_app.
  - intros k u Hk. apply Hh2. pose proof (Hh1 k u Hk) as Hk1.
    apply hit_Some in Hk as [_ Hu]. by apply hit_Some.
Qed.

Lemma effects_weaken (R R' : string → Prop) st st' :
  (∀ k, R k → R' k) → effects R st st' → effects R' st st'.
Proof.
  intros HR (n & Ht & Hc & Hf & Hh). exists n. split_and!; try done.
  eapply Forall_impl; [done|]. intros ev Hev k Hk. by apply HR, Hev.
Qed.

Lemma effects_emit R s st : effects R st (emit opts s st).
Proof.
  unfold emit. destruct opts as [o|]; [|apply effects_refl].
  destruct (log o); [|apply effects_refl].
  exists [Log s]. split_and!; try done.
  - by apply Forall_singleton.
  - intros k u Hk. by apply hit_Some in Hk as [? _].
Qed.

Lemma emit_cache s st : cache (emit opts s st) = cache st.
Proof. unfold emit. destruct opts as [o|]; [|done]. by destruct (log o). Qed.

Lemma effects_cache_frame R st st' k :
  effects R st st' → ¬ R k → cache st' !! k = cache st !! k.
Proof.
  intros (n & _ & -> & Hf & _) HR. apply replay_frame.
  eapply Forall_impl; [done|]. intros ev Hev Heq. by apply HR, Hev.
Qed.

Lemma effects_invocations R st st' k :
  effects R st st' → ¬ R k → invocations k (trace st') = invocations k (trace st).
Proof.
  intros (n & -> & _ & Hf & _) HR. rewrite invocations_app.
  rewrite (invocations_frame k n); [lia|].
  eapply Forall_impl; [done|]. intros ev Hev Heq. by apply HR, Hev.
Qed.

(** The getter, with its local states named. *)
Lemma get_unfold acc name ns st :
  get mdl opts acc name ns st =
  match hit (cache st !! name) with
  | Some u =>
      Ok u (emit opts (name +:+ " - already constructed")
                 (emit opts (name +:+ " - get") st))
  | None =>
      match getDeps acc ns (emit opts (name +:+ " - constructing")
                                 (emit opts (name +:+ " - get") st)) with
      | Ok entries st1 =>
          match mdl !! name with
          | None => Raise TypeError st1
          | Some memberProvider =>
              match memberProvider (fromEntries entries) (world st1) with
              | (Normal v, w) =>
                  Ok v (emit opts (name +:+ " - constructed")
                          (mkState (<[name := v]> (cache st1)) w
                             (trace st1 ++ [Invoke name (fromEntries entries);
                                            Returned name v])))
              | (Abrupt e, w) =>
                  Raise e (mkState (cache st1) w
                             (trace st1 ++ [Invoke name (fromEntries entries);
                                            Raised name e]))
              end
          end
      | Raise e st1 => Raise e st1
      | NoFuel => NoFuel
      end
  end.
Proof.
  unfold get. cbv zeta. rewrite emit_cache.
  destruct (hit (cache st !! name)); [done|].
  destruct (getDeps _ _ _) as [entries st1|e st1|]; [|done|done].
  destruct (mdl !! name) as [memberProvider|]; [|done].
  unfold record. simpl.
  destruct (memberProvider _ _) as [[v|e] w]; simpl; by rewrite <- app_assoc.
Qed.

(** [getDeps] when every single access behaves. *)
Lemma getDeps_effects acc ns st :
  (∀ d st0, d ∈ ns → effects_of (rtc (edge D) d) st0 (acc d st0)) →
  effects_of (λ k, ∃ d, d ∈ ns ∧ rtc (edge D) d k) st (getDeps acc ns st).
Proof.
  revert st. induction ns as [|d ns IH]; intros st Hacc.
  { apply effects_refl. }
  cbn [getDeps]. pose proof (Hacc d st (list_elem_of_here _ _)) as Hd.
  assert (∀ st1, effects (rtc (edge D) d) st st1 →
            effects (λ k, ∃ d0, d0 ∈ d :: ns ∧ rtc (edge D) d0 k) st st1) as Hw.
  { intros st1. apply effects_weaken. intros k Hk. exists d. split; [left|done]. }
  destruct (acc d st) as [v st1|e st1|]; simpl in Hd; [|by apply Hw|done].
  assert (effects_of (λ k, ∃ d0, d0 ∈ ns ∧ rtc (edge D) d0 k) st1
            (getDeps acc ns st1)) as IH1.
  { apply IH. intros d0 st0 Hd0. apply Hacc. by right. }
  assert (∀ st2, effects (λ k, ∃ d0, d0 ∈ ns ∧ rtc (edge D) d0 k) st1 st2 →
            effects (λ k, ∃ d0, d0 ∈ d :: ns ∧ rtc (edge D) d0 k) st st2) as Hw2.
  { intros st2 H2. eapply effects_trans; [by apply Hw|].
    eapply effects_weaken; [|done]. intros k (d0 & Hd0 & Hk).
    exists d0. split; [by right|done]. }
  destruct (getDeps acc ns st1) as [entries st2|e st2|]; simpl in *; auto.
Qed.


Context (Hacyclic : acyclic D).

Lemma not_below_deps name ns :
  deps_lookup D name = Some ns → ¬ ∃ d, d ∈ ns ∧ rtc (edge D) d name.
Proof.
  intros Hns (d & Hd & Hr). apply Hacyclic. exists name.
  eapply tc_rtc_r; [|done]. apply tc_once. by exists ns.
Qed.

Lemma get_effects acc name ns st :
  deps_lookup D name = Some ns →
  (∀ d st0, d ∈ ns → effects_of (rtc (edge D) d) st0 (acc d st0)) →
  effects_of (rtc (edge D) name) st (get mdl opts acc name ns st).
Proof.
  intros Hns Hacc. unfold get.
  set (sta := emit opts (name +:+ " - get") st).
  assert (effects (rtc (edge D) name) st sta) as Ha by apply effects_emit.
  destruct (hit (cache sta !! name)) as [u|] eqn:Hhit.
  { simpl. eapply effects_trans; [done|apply effects_emit]. }
  set (stc := emit opts (name +:+ " - constructing") sta).
  assert (effects (rtc (edge D) name) st stc) as Hc.
  { eapply effects_trans; [done|apply effects_emit]. }
  pose proof (getDeps_effects acc ns stc Hacc) as Hdeps.
  assert (∀ st1, effects (λ k, ∃ d, d ∈ ns ∧ rtc (edge D) d k) stc st1 →
            effects (rtc (edge D) name) st st1 ∧ hit (cache st1 !! name) = None)
    as Hw.
  { intros st1 H1. split.
    - eapply effects_trans; [done|]. eapply effects_weaken; [|done].
      intros k (d & Hd & Hk). eapply rtc_l; [|done]. by exists ns.
    - rewrite (effects_cache_frame _ _ _ name H1) by (by apply not_below_deps).
      unfold stc. by rewrite emit_cache. }
  destruct (getDeps acc ns stc) as [entries st1|e st1|]; simpl in Hdeps;
    [|by apply Hw|done].
  destruct (Hw st1 Hdeps) as [H1 Hmiss].
  destruct (mdl !! name) as [memberProvider|]; [|done].
  destruct (memberProvider _ _) as [[v|e] w] eqn:Hrun; simpl.
  - eapply effects_trans; [|apply effects_emit].
    eapply effects_trans; [done|].
    exists [Invoke name (fromEntries entries); Returned name v].
    split_and!; simpl.
    + by rewrite <- app_assoc.
    + done.
    + repeat constructor; intros k [= <-]; done.
    + intros k u Hk. destruct (decide (name = k)) as [<-|Hne].
      * by rewrite Hmiss in Hk.
      * simpl. rewrite lookup_insert_ne by done. by apply hit_Some in Hk as [? _].
  - eapply effects_trans; [done|].
    exists [Invoke name (fromEntries entries); Raised name e].
    split_and!; simpl.
    + by rewrite <- app_assoc.
    + done.
    + repeat constructor; intros k [= <-]; done.
    + intros k u Hk. by apply hit_Some in Hk as [? _].
Qed.

Lemma access_effects fuel name st :
  effects_of (rtc (edge D) name) st (access inj fuel name st).
Proof.
  revert name st. induction fuel as [|fuel IH]; intros name st; cbn [access dependencies].
  - destruct (deps_lookup D name); [done|apply effects_refl].
  - destruct (deps_lookup D name) as [ns|] eqn:Hns; [|apply effects_refl].
    apply get_effects; [done|]. intros d st0 _. apply IH.
Qed.

(** *** The recursion ends on an acyclic mapping *)

Lemma getDeps_fuel acc ns st :
  (∀ d st0, d ∈ ns → acc d st0 ≠ NoFuel) →
  getDeps acc ns st ≠ @NoFuel W _.
Proof.
  revert st. induction ns as [|d ns IH]; intros st Hacc; [done|].
  cbn [getDeps]. pose proof (Hacc d st (list_elem_of_here _ _)) as Hd.
  destruct (acc d st) as [v st1|e st1|]; [|done|done].
  assert (getDeps acc ns st1 ≠ NoFuel) as Hrest.
  { apply IH. intros d0 st0 Hd0. apply Hacc. by right. }
  by destruct (getDeps acc ns st1).
Qed.

Lemma get_fuel acc name ns st :
  (∀ d st0, d ∈ ns → acc d st0 ≠ NoFuel) →
  get mdl opts acc name ns st ≠ NoFuel.
Proof.
  intros Hacc. unfold get. destruct (hit _); [done|].
  pose proof (getDeps_fuel acc ns
    (emit opts (name +:+ " - constructing") (emit opts (name +:+ " - get") st)) Hacc)
    as Hdeps.
  destruct (getDeps _ _ _) as [entries st1|e st1|]; [|done|done].
  destruct (mdl !! name) as [memberProvider|]; [|done].
  by destruct (memberProvider _ _) as [[v|e] w].
Qed.

(** [P] holds the members under construction, the ancestors of [name]. *)
Lemma access_fuel fuel :
  ∀ P name st,
    NoDup P → P ⊆ keys D → (∀ p, p ∈ P → tc (edge D) p name) →
    length (keys D) ≤ fuel + length P →
    access inj fuel name st ≠ NoFuel.
Proof.
  induction fuel as [|fuel IH]; intros P name st Hnd Hsub Hreach Hlen;
    cbn [access dependencies];
    (destruct (deps_lookup D name) as [ns|] eqn:Hns; [|done]).
  - assert (name ∉ P) as Hnotin.
    { intros Hin. apply Hacyclic. exists name. by apply Hreach. }
    assert (length (name :: P) ≤ length (keys D)) as Hle.
    { apply submseteq_length, NoDup_submseteq; [by apply NoDup_cons|].
      intros x [->|Hx]%elem_of_cons; [by eapply deps_lookup_Some_key|by apply Hsub]. }
    simpl in Hle. lia.
  - apply get_fuel. intros d st0 Hd.
    assert (name ∉ P) as Hnotin.
    { intros Hin. apply Hacyclic. exists name. by apply Hreach. }
    apply (IH (name :: P)).
    + by apply NoDup_cons.
    + intros x [->|Hx]%elem_of_cons; [by eapply deps_lookup_Some_key|by apply Hsub].
    + intros p [->|Hp]%elem_of_cons.
      * apply tc_once. by exists ns.
      * eapply tc_r; [by apply Hreach|]. by exists ns.
    + simpl. lia.
Qed.

Lemma access_total fuel name st :
  length D ≤ fuel → access inj fuel name st ≠ NoFuel.
Proof.
  intros Hlen. apply (access_fuel fuel []).
  - apply NoDup_nil_2.
  - by intros x ?%elem_of_nil.
  - by intros p ?%elem_of_nil.
  - unfold keys. rewrite length_fmap. simpl. lia.
Qed.

(** *** Memoisation when providers return proper values *)

Lemma invocations_snoc k tr ev :
  invocations k (tr ++ [ev]) = invocations k tr + (if is_invoke k ev then 1 else 0).
Proof.
  rewrite invocations_app. f_equal. unfold invocations.
  rewrite filter_cons, filter_nil. destruct (is_invoke k ev); by case_decide.
Qed.

Lemma invocations_construct k name args ev :
  is_invoke k ev = false →
  invocations k [Invoke name args; ev] = if bool_decide (name = k) then 1 else 0.
Proof.
  intros Hev. change [Invoke name args; ev] with (([] ++ [Invoke name args]) ++ [ev]).
  rewrite !invocations_snoc, Hev. simpl. by destruct (bool_decide _).
Qed.

(** Providers are defined for every member, return normally, and never
    return [null] or [undefined]. *)
Definition well_behaved : Prop :=
  ∀ m, m ∈ keys D →
    ∃ memberProvider, mdl !! m = Some memberProvider ∧
      ∀ args w, ∃ v w', memberProvider args w = (Normal v, w') ∧
                        neq_undefined v = true.

Record memo_inv st : Prop := {
  mi_hit : ∀ k v, cache st !! k = Some v → neq_undefined v = true;
  mi_count : ∀ k, invocations k (trace st) =
    match cache st !! k with Some _ => 1 | None => 0 end;
  mi_closed : ∀ k w, is_Some (cache st !! k) → edge D k w → is_Some (cache st !! w)
}.

Definition cache_grows st st' : Prop :=
  ∀ k u, cache st !! k = Some u → cache st' !! k = Some u.

Definition memo_ok (acc : string → State W → result W value) : Prop :=
  ∀ name st, name ∈ keys D → memo_inv st → acc name st ≠ NoFuel →
    ∃ v st', acc name st = Ok v st' ∧ memo_inv st' ∧
             cache st' !! name = Some v ∧ cache_grows st st'.

Lemma memo_inv_emit s st : memo_inv st → memo_inv (emit opts s st).
Proof.
  intros [H1 H2 H3]. unfold emit. destruct opts as [o|]; [|done].
  destruct (log o); [|done]. split; simpl; try done.
  intros k. rewrite invocations_snoc. simpl. rewrite H2. lia.
Qed.

Lemma memo_inv_fresh w : memo_inv (fresh w).
Proof.
  split; simpl.
  - intros k v. by rewrite lookup_empty.
  - intros k. by rewrite lookup_empty.
  - intros k x. rewrite lookup_empty. by intros [? ?].
Qed.

Lemma getDeps_memo acc ns st :
  closed D → memo_ok acc → (∀ d, d ∈ ns → d ∈ keys D) → memo_inv st →
  getDeps acc ns st ≠ NoFuel →
  ∃ entries st', getDeps acc ns st = Ok entries st' ∧ memo_inv st' ∧
                 cache_grows st st' ∧ ∀ d, d ∈ ns → is_Some (cache st' !! d).
Proof.
  intros Hclosed Hacc. revert st. induction ns as [|d ns IH]; intros st Hkeys Hinv Hfuel.
  { exists [], st. split_and!; [done|done|by intros ? ?|by intros d ?%elem_of_nil]. }
  cbn [getDeps] in Hfuel |- *.
  destruct (Hacc d st) as (v & st1 & Hrun & Hinv1 & Hd & Hgrow1); try done.
  { apply Hkeys. left. }
  { intros Hno. by rewrite Hno in Hfuel. }
  rewrite Hrun in Hfuel |- *.
  destruct (IH st1) as (entries & st2 & Hrun2 & Hinv2 & Hgrow2 & Hall); try done.
  { intros d0 Hd0. apply Hkeys. by right. }
  { intros Hno. by rewrite Hno in Hfuel. }
  rewrite Hrun2. exists ((d, v) :: entries), st2. split_and!; try done.
  - intros k u Hk. by apply Hgrow2, Hgrow1.
  - intros d0 [->|Hd0]%elem_of_cons; [|by apply Hall].
    exists v. by apply Hgrow2.
Qed.

Lemma access_memo fuel :
  closed D → well_behaved → memo_ok (access inj fuel).
Proof.
  intros Hclosed Hwb. induction fuel as [|fuel IH]; intros name st Hname Hinv Hfuel;
    cbn [access dependencies] in Hfuel |- *;
    (destruct (deps_lookup_key D name Hname) as [ns Hns]; rewrite Hns in Hfuel |- *);
    [done|].
  rewrite get_unfold in Hfuel |- *.
  destruct (hit (cache st !! name)) as [u|] eqn:Hhit.
  { apply hit_Some in Hhit as [Hu _]. eexists _, _.
    split_and!; [done|by do 2 apply memo_inv_emit|by rewrite !emit_cache|].
    intros k x Hk. by rewrite !emit_cache. }
  set (stc := emit opts (name +:+ " - constructing")
                (emit opts (name +:+ " - get") st)) in *.
  assert (memo_inv stc) as Hinvc by (by do 2 apply memo_inv_emit).
  assert (cache stc = cache st) as Hcc by (unfold stc; by rewrite !emit_cache).
  assert (cache st !! name = None) as Hnone.
  { destruct (cache st !! name) as [x|] eqn:E; [|done].
    assert (hit (Some x) = Some x); [|congruence].
    apply hit_Some. split; [done|]. by eapply (mi_hit st Hinv). }
  destruct (getDeps_memo (access inj fuel) ns stc)
    as (entries & st1 & Hrun & Hinv1 & Hgrow1 & Hall); try done.
  { intros d Hd. eapply closed_edge; [done|]. by exists ns. }
  { intros Hno. by rewrite Hno in Hfuel. }
  pose proof (getDeps_effects (access inj fuel) ns stc
                (λ d st0 _, access_effects fuel d st0)) as Hdeps.
  rewrite Hrun in Hfuel, Hdeps |- *. simpl in Hdeps.
  assert (cache st1 !! name = None) as Hnone1.
  { rewrite (effects_cache_frame _ _ _ name Hdeps) by (by apply not_below_deps).
    by rewrite Hcc. }
  destruct (Hwb name Hname) as (memberProvider & Hp & Hret). rewrite Hp.
  destruct (Hret (fromEntries entries) (world st1)) as (v & w' & Hcall & Hv).
  rewrite Hcall.
  eexists _, _. split; [done|]. split_and!.
  - apply memo_inv_emit. destruct Hinv1 as [H1 H2 H3]. split; simpl.
    + intros k x. destruct (decide (name = k)) as [<-|Hne].
      * rewrite lookup_insert_eq. by intros [= <-].
      * rewrite lookup_insert_ne by done. apply H1.
    + intros k. rewrite invocations_app, H2, invocations_construct by done.
      destruct (decide (name = k)) as [<-|Hne].
      * rewrite lookup_insert_eq, Hnone1, bool_decide_eq_true_2 by done. lia.
      * rewrite lookup_insert_ne, bool_decide_eq_false_2 by done.
        destruct (cache st1 !! k); lia.
    + intros k x Hk (ns' & Hl & Hx).
      assert (is_Some (cache st1 !! x)) as Hsome.
      { destruct (decide (name = k)) as [<-|Hne].
        - rewrite Hns in Hl. simplify_eq. by apply Hall.
        - rewrite lookup_insert_ne in Hk by done. apply (H3 k); [done|]. by exists ns'. }
      apply lookup_insert_is_Some. destruct (decide (name = x)); eauto.
  - rewrite emit_cache. simpl. apply lookup_insert_eq.
  - intros k x Hk. rewrite emit_cache. simpl.
    assert (name ≠ k) by congruence. rewrite lookup_insert_ne by done.
    apply Hgrow1. by rewrite Hcc.
Qed.

(** A caller reading any sequence of members. *)
Lemma accesses_memo fuel names st :
  closed D → well_behaved → length D ≤ fuel → memo_inv st →
  ∃ vs st', accesses inj fuel names st = Ok vs st' ∧ memo_inv st' ∧
            cache_grows st st' ∧
            Forall2 (λ name v,
                       if decide (name ∈ keys D) then cache st' !! name = Some v
                       else v = VUndefined) names vs.
Proof.
  intros Hclosed Hwb Hlen. revert st. induction names as [|name names IH]; intros st Hinv.
  { exists [], st. split_and!; [done|done|by intros ? ?|constructor]. }
  cbn [accesses]. destruct (decide (name ∈ keys D)) as [Hname|Hname].
  - destruct (access_memo fuel Hclosed Hwb name st) as (v & st1 & -> & Hinv1 & Hv & Hgrow1);
      try done.
    { by apply access_total. }
    destruct (IH st1 Hinv1) as (vs & st2 & -> & Hinv2 & Hgrow2 & Hall).
    exists (v :: vs), st2. split_and!; try done.
    + intros k u Hk. by apply Hgrow2, Hgrow1.
    + constructor; [|done]. rewrite decide_True by done. by apply Hgrow2.
  - assert (access inj fuel name st = Ok VUndefined st) as ->.
    { destruct fuel; cbn [access dependencies];
        (destruct (deps_lookup D name) eqn:E; [|done]);
        apply deps_lookup_Some_key in E; done. }
    destruct (IH st Hinv) as (vs & st2 & -> & Hinv2 & Hgrow2 & Hall).
    exists (VUndefined :: vs), st2. split_and!; try done.
    constructor; [|done]. by rewrite decide_False.
Qed.

(** *** Order of construction *)

(** The accessors of [xs] ran one after the other, each to completion, in
    the order of the list. *)
Inductive resolved_in_order (acc : string → State W → result W value)
  : list string → State W → list (string * value) → State W → Prop :=
| rio_nil st : resolved_in_order acc [] st [] st
| rio_cons x xs st v st1 entries st2 :
    acc x st = Ok v st1 →
    resolved_in_order acc xs st1 entries st2 →
    resolved_in_order acc (x :: xs) st ((x, v) :: entries) st2.

Lemma getDeps_Ok acc ns st entries st1 :
  getDeps acc ns st = Ok entries st1 ↔ resolved_in_order acc ns st entries st1.
Proof.
  split.
  - revert st entries. induction ns as [|x xs IH]; intros st entries; cbn [getDeps].
    + intros [= <- <-]. constructor.
    + destruct (acc x st) as [v sta|e sta|] eqn:Hx; [|done|done].
      destruct (getDeps acc xs sta) as [es stb|e stb|] eqn:Hxs; [|done|done].
      intros [= <- <-]. econstructor; [done|]. by apply IH.
  - induction 1 as [|x xs st v sta es stb Hx _ IH]; cbn [getDeps]; [done|].
    by rewrite Hx, IH.
Qed.

Lemma replay_is_Some new c k : is_Some (c !! k) → is_Some (replay new c !! k).
Proof.
  revert c. induction new as [|ev new IH]; intros c Hk; [done|].
  rewrite replay_cons. apply IH. destruct ev; try done.
  apply lookup_insert_is_Some. destruct (decide (member = k)); eauto.
Qed.

Lemma effects_is_Some R st st' k :
  effects R st st' → is_Some (cache st !! k) → is_Some (cache st' !! k).
Proof. intros (n & _ & -> & _) Hk. by apply replay_is_Some. Qed.

(** After a completed access the member's entry is the value returned. *)
Lemma access_Ok_cached fuel x st v st' :
  access inj fuel x st = Ok v st' → x ∈ keys D → cache st' !! x = Some v.
Proof.
  intros Hrun Hx. destruct (deps_lookup_key D x Hx) as [ns Hns].
  destruct fuel as [|fuel]; cbn [access dependencies] in Hrun; rewrite Hns in Hrun;
    [done|].
  rewrite get_unfold in Hrun.
  destruct (hit (cache st !! x)) as [u|] eqn:Hhit.
  { injection Hrun as <- <-. rewrite !emit_cache. by apply hit_Some in Hhit as [-> _]. }
  destruct (getDeps _ _ _) as [entries st1|e st1|]; [|done|done].
  destruct (mdl !! x) as [memberProvider|]; [|done].
  destruct (memberProvider _ _) as [[v'|e] w]; [|done].
  injection Hrun as <- <-. rewrite emit_cache. simpl. by rewrite lookup_insert_eq.
Qed.

Lemma effects_hit R st st' k u :
  effects R st st' → cache st !! k = Some u → neq_undefined u = true →
  cache st' !! k = Some u.
Proof. intros (n & _ & _ & _ & Hkept) Hk Hu. apply Hkept. by apply hit_Some. Qed.

Lemma resolved_cached fuel ns st entries st1 :
  resolved_in_order (access inj fuel) ns st entries st1 →
  entries.*1 = ns ∧
  (∀ x, x ∈ ns → x ∈ keys D → is_Some (cache st1 !! x)) ∧
  (∀ x v, (x, v) ∈ entries → x ∈ keys D → neq_undefined v = true →
          cache st1 !! x = Some v).
Proof.
  induction 1 as [|x xs st v sta es stb Hx Hrest (IHe & IHc & IHv)].
  { split_and!; [done|by intros x ?%elem_of_nil|by intros x v ?%elem_of_nil]. }
  apply getDeps_Ok in Hrest.
  pose proof (getDeps_effects (access inj fuel) xs sta
                (λ d st0 _, access_effects fuel d st0)) as Heff.
  rewrite Hrest in Heff. simpl in Heff.
  split_and!; [by rewrite fmap_cons, IHe| |].
  - intros y [->|Hy]%elem_of_cons Hkey; [|by apply IHc].
    eapply effects_is_Some; [done|]. erewrite access_Ok_cached; eauto.
  - intros y u [Heq|Hy]%elem_of_cons Hkey Hu; [|by apply IHv].
    simplify_eq. eapply effects_hit; [done| |done]. by eapply access_Ok_cached.
Qed.

(** *** A provider that throws *)

(** The lines [emit] hands to the sink. *)
Definition emitted (s : string) : list event :=
  match opts with
  | Some o => if log o then [Log s] else []
  | None => []
  end.

Lemma emit_trace s st : trace (emit opts s st) = trace st ++ emitted s.
Proof.
  unfold emit, emitted. destruct opts as [o|]; [|by rewrite app_nil_r].
  destruct (log o); [done|by rewrite app_nil_r].
Qed.






Lemma deps_keep_entry fuel name ns stc :
  deps_lookup D name = Some ns →
  match getDeps (access inj fuel) ns stc with
  | Ok _ st1 | Raise _ st1 =>
      cache st1 !! name = cache stc !! name ∧
      invocations name (trace st1) = invocations name (trace stc)
  | NoFuel => True
  end.
Proof.
  intros Hns.
  pose proof (getDeps_effects (access inj fuel) ns stc
                (λ d st0 _, access_effects fuel d st0)) as Heff.
  pose proof (not_below_deps name ns Hns) as Hnot.
  destruct (getDeps _ _ _) as [entries st1|e st1|]; simpl in Heff; [| |done];
    (split; [by eapply effects_cache_frame|by eapply effects_invocations]).
Qed.

Lemma invocations_emit k s st :
  invocations k (trace (emit opts s st)) = invocations k (trace st).
Proof.
  rewrite emit_trace, invocations_app.
  assert (invocations k (emitted s) = 0) as ->; [|lia].
  unfold emitted. destruct opts as [o|]; [destruct (log o)|]; reflexivity.
Qed.



End Resolver.

(** ** Normalisation of the cycles carried by the error *)

Section Sorting.
Context {A : Type} (cmp : A → A → Z).

Lemma sort_insert_perm x l : sort_insert cmp x l ≡ₚ x :: l.
Proof.
  induction l as [|y l IH]; simpl; [done|].
  destruct (cmp x y <=? 0)%Z; [done|]. by rewrite IH, Permutation_swap.
Qed.

Lemma sortBy_perm l : sortBy cmp l ≡ₚ l.
Proof.
  induction l as [|x l IH]; simpl; [done|].
  unfold sortBy in *. simpl. by rewrite sort_insert_perm, IH.
Qed.

(** A comparator that orders any two elements one way or the other. *)
Hypothesis cmp_total : ∀ x y, (cmp x y ≤ 0)%Z ∨ (cmp y x ≤ 0)%Z.

Lemma sort_insert_sorted x l :
  Sorted (λ a b, (cmp a b ≤ 0)%Z) l →
  Sorted (λ a b, (cmp a b ≤ 0)%Z) (sort_insert cmp x l).
Proof.
  induction l as [|y l IH]; simpl; intros Hl.
  - by repeat constructor.
  - destruct (Z.leb_spec (cmp x y) 0) as [Hle|Hgt].
    + constructor; [done|]. by constructor.
    + apply Sorted_inv in Hl as [Hl Hhd]. constructor; [by apply IH|].
      assert (cmp y x ≤ 0)%Z as Hyx by (destruct (cmp_total x y); [lia|done]).
      destruct l as [|z l]; simpl; [by constructor|].
      destruct (cmp x z <=? 0)%Z; constructor; [done|].
      by apply HdRel_inv in Hhd.
Qed.

Lemma sortBy_sorted l : Sorted (λ a b, (cmp a b ≤ 0)%Z) (sortBy cmp l).
Proof.
  induction l as [|x l IH]; [constructor|].
  unfold sortBy in *. simpl. by apply sort_insert_sorted.
Qed.

End Sorting.

Lemma Sorted_weaken {A : Type} (R R' : relation A) l :
  (∀ a b, R a b → R' a b) → Sorted R l → Sorted R' l.
Proof.
  intros HR. induction 1 as [|x l Hl IH Hhd]; constructor; [done|].
  destruct Hhd; constructor. by apply HR.
Qed.

Lemma defaultCompare_total a b :
  (defaultCompare a b ≤ 0)%Z ∨ (defaultCompare b a ≤ 0)%Z.
Proof.
  unfold defaultCompare. rewrite (String.compare_antisym a b).
  destruct (String.compare b a); simpl; lia.
Qed.

(** What the specification asks of the list carried by the error: the same
    cycles as sets of names, the names of each cycle in code-unit order, and
    the cycles by increasing size, then by their comma-joined names. *)
Definition normalized (localeCompare : string → string → Z)
  (cs l : list (list string)) : Prop :=
  (∃ cs', Forall2 (≡ₚ) cs cs' ∧ cs' ≡ₚ l) ∧
  Forall (Sorted (λ a b, String.compare a b ≠ Gt)) l ∧
  Sorted (λ a b, length a < length b ∨
                 (length a = length b ∧
                  (localeCompare (join a) (join b) ≤ 0)%Z)) l.

Lemma normalizeCycles_normalized localeCompare cs :
  (∀ a b, (localeCompare a b ≤ 0)%Z ∨ (localeCompare b a ≤ 0)%Z) →
  normalized localeCompare cs (normalizeCycles localeCompare cs).
Proof.
  intros Htotal. unfold normalized, normalizeCycles. split_and!.
  - exists (sortBy defaultCompare <$> cs). split.
    + apply Forall2_fmap_r, Forall_Forall2_diag, Forall_forall.
      intros c _. simpl. symmetry. apply sortBy_perm.
    + symmetry. apply sortBy_perm.
  - rewrite sortBy_perm. apply Forall_fmap, Forall_forall. intros c _. simpl.
    eapply Sorted_weaken; [|apply (sortBy_sorted defaultCompare defaultCompare_total)].
    intros a b. simpl. unfold defaultCompare. destruct (String.compare a b); [done|done|lia].
  - eapply Sorted_weaken; [|apply sortBy_sorted].
    + intros a b. simpl. unfold compareCycles. case_decide; lia.
    + intros a b. unfold compareCycles.
      destruct (Htotal (join a) (join b)); repeat case_decide; lia.
Qed.

(** ** Creation of the injector *)

Section Factory.
Import Injector.
Context {W : Type} (localeCompare : string → string → Z).
Context (D : DependenciesListRecord) (mdl : gmap string (Provider W))
  (opts : option DependencyInjectionOptions).

Lemma factory_skip :
  checkCyclesOption opts = skip →
  makeInjectorFactory localeCompare D mdl opts = Done (mkInjector D mdl opts (keys D)).
Proof. unfold makeInjectorFactory. by intros ->. Qed.

Lemma factory_acyclic :
  closed D → acyclic D →
  makeInjectorFactory localeCompare D mdl opts = Done (mkInjector D mdl opts (keys D)).
Proof.
  intros Hclosed Hac. unfold makeInjectorFactory.
  destruct (checkCyclesOption opts); [done| |].
  - destruct (anyCycilcDependencies_spec D Hclosed) as (b & -> & Hb).
    destruct b; [|done]. exfalso. by apply Hac, Hb.
  - destruct (getCycles_spec D Hclosed) as (cs & -> & Hcs).
    destruct cs as [|c cs]; [done|]. exfalso. by apply Hac, Hcs.
Qed.

Lemma factory_cyclic_simple :
  closed D → has_cycle D → checkCyclesOption opts = simple →
  makeInjectorFactory localeCompare D mdl opts =
  Throw (ECyclicDependency (mkCyclicDependencyError STANDARD_MESSAGE None)).
Proof.
  intros Hclosed Hcyc Hmode. unfold makeInjectorFactory. rewrite Hmode.
  destruct (anyCycilcDependencies_spec D Hclosed) as (b & -> & Hb).
  apply Hb in Hcyc as ->. done.
Qed.

Lemma factory_cyclic_detailed :
  closed D → has_cycle D → checkCyclesOption opts = detailed →
  ∃ cs, Detailed.getCycles D = Done cs ∧ cs ≠ [] ∧
        makeInjectorFactory localeCompare D mdl opts =
        Throw (ECyclicDependency
                 (mkCyclicDependencyError STANDARD_MESSAGE
                    (Some (normalizeCycles localeCompare cs)))).
Proof.
  intros Hclosed Hcyc Hmode. unfold makeInjectorFactory. rewrite Hmode.
  destruct (getCycles_spec D Hclosed) as (cs & Hrun & Hcs).
  exists cs. rewrite Hrun. apply Hcs in Hcyc.
  split_and!; [done|done|]. destruct cs; [done|]. done.
Qed.

End Factory.

(** * The properties of the specification *)

Import Injector.

#[global] Instance closed_dec D : Decision (closed D).
Proof. unfold closed. apply _. Defined.

(** An acyclic mapping can be recognised by running the simple check. *)
Lemma acyclic_by_check D :
  closed D → Simple.anyCycilcDependencies D = Done false → acyclic D.
Proof.
  intros Hclosed Hrun Hcyc.
  destruct (anyCycilcDependencies_spec D Hclosed) as (b & Hb & Hiff).
  apply Hiff in Hcyc. congruence.
Qed.

(** ** Validation *)

(** C2: on a mapping whose dependency names are all keys, simple validation
    returns, and it returns [true] exactly when the graph has a cycle
    (a self-loop included). *)
Theorem simple_validation_detects_cycles (D : DependenciesListRecord) :
  closed D →
  ∃ b, Simple.anyCycilcDependencies D = Done b ∧ (b = true ↔ has_cycle D).
Proof. apply anyCycilcDependencies_spec. Qed.

Definition two_way : DependenciesListRecord := [("a", ["b"]); ("b", ["a"])].

Lemma simple_validation_detects_cycles_witness :
  closed two_way ∧
  ∃ b, Simple.anyCycilcDependencies two_way = Done b ∧ (b = true ↔ has_cycle two_way).
Proof.
  assert (closed two_way) as H by (apply (bool_decide_unpack _); vm_compute; exact I).
  split; [exact H|]. exact (simple_validation_detects_cycles two_way H).
Defined.

(** The example of the README: a three-way cycle, a self-loop behind [d], and
    a two-way cycle whose member [f] also points into the first cycle. *)
Definition readme_example : DependenciesListRecord :=
  [("a", ["b"]); ("b", ["c"]); ("c", ["a"]);
   ("d", ["e"]); ("e", ["e"]);
   ("f", ["g"; "a"]); ("g", ["f"])].

Definition self_and_chain : DependenciesListRecord :=
  [("a", ["a"]); ("b", []); ("c", ["b"])].

Definition self_and_chain' : DependenciesListRecord :=
  [("a", ["a"]); ("c", ["b"]); ("b", [])].

Lemma no_edge_from (D : DependenciesListRecord) x :
  deps_lookup D x = Some [] → ∀ y, ¬ tc (edge D) x y.
Proof.
  intros Hx y (w & (ns & Hl & Hw) & _)%tc_first_step.
  rewrite Hx in Hl. simplify_eq. by apply elem_of_nil in Hw.
Qed.

(** Members reachable from a set that no edge leaves stay in that set. *)
Lemma reach_within (D : DependenciesListRecord) (S : list string) x y :
  (∀ u v, u ∈ S → edge D u v → v ∈ S) → x ∈ S → rtc (edge D) x y → y ∈ S.
Proof. intros Hclosed Hx Hr. induction Hr; eauto. Qed.

(** C1: [getCycles] merges the two-way cycle [{f, g}] of the README example
    into the component of [{a, b, c}], although [a] does not reach [f] (the
    README announces three cycles); and on a mapping with one self-loop it
    reports the pair [{b, c}], neither member of which lies on a cycle. *)
Theorem getCycles_reports_wrong_components :
  closed readme_example ∧
  Detailed.getCycles readme_example = Done [["e"]; ["a"; "b"; "c"; "f"; "g"]] ∧
  ¬ rtc (edge readme_example) "a" "f" ∧
  closed self_and_chain ∧
  Detailed.getCycles self_and_chain = Done [["a"]; ["b"; "c"]] ∧
  ¬ on_cycle self_and_chain "b" ∧ ¬ on_cycle self_and_chain "c".
Proof.
  split_and!.
  - apply (bool_decide_unpack _). vm_compute. exact I.
  - vm_compute. reflexivity.
  - intros Hr.
    assert ("f" ∉ ["a"; "b"; "c"]) as Hnot
      by (apply (bool_decide_unpack _); vm_compute; exact I).
    apply Hnot. eapply (reach_within readme_example); [|left|exact Hr].
    intros u v Hu (ns & Hl & Hv).
    repeat (apply elem_of_cons in Hu as [->|Hu]);
      [| | |by apply elem_of_nil in Hu];
      vm_compute in Hl; simplify_eq;
      apply list_elem_of_singleton in Hv as ->;
      apply (bool_decide_unpack _); vm_compute; exact I.
  - apply (bool_decide_unpack _). vm_compute. exact I.
  - vm_compute. reflexivity.
  - by apply no_edge_from.
  - intros (w & (ns & Hl & Hw) & Hback)%tc_first_step.
    vm_compute in Hl. simplify_eq. apply list_elem_of_singleton in Hw as ->.
    apply rtc_tc in Hback as [?|Hback]; [done|].
    by eapply (no_edge_from self_and_chain "b").
Qed.

(** C4: the same mapping enumerated in two orders gives two different sets
    of cycles, and creation under ['detailed'] then throws errors that carry
    different lists, whatever [localeCompare] is. *)
Theorem getCycles_depends_on_key_order :
  self_and_chain' ≡ₚ self_and_chain ∧
  Detailed.getCycles self_and_chain = Done [["a"]; ["b"; "c"]] ∧
  Detailed.getCycles self_and_chain' = Done [["a"]] ∧
  ∀ localeCompare,
    makeInjectorFactory (W := unit) localeCompare self_and_chain ∅
      (Some (mkOptions (Some detailed) false)) =
    Throw (ECyclicDependency
             (mkCyclicDependencyError STANDARD_MESSAGE (Some [["a"]; ["b"; "c"]]))) ∧
    makeInjectorFactory (W := unit) localeCompare self_and_chain' ∅
      (Some (mkOptions (Some detailed) false)) =
    Throw (ECyclicDependency
             (mkCyclicDependencyError STANDARD_MESSAGE (Some [["a"]]))).
Proof.
  split_and!.
  - unfold self_and_chain, self_and_chain'. apply perm_skip, perm_swap.
  - vm_compute. reflexivity.
  - vm_compute. reflexivity.
  - intros localeCompare. split; vm_compute; reflexivity.
Qed.

(** The mapping of the test "SCC". *)
Definition scc_example : DependenciesListRecord :=
  [("a", ["b"]); ("b", ["c"; "e"; "f"]); ("c", ["d"; "g"]); ("d", ["c"; "h"]);
   ("e", ["a"; "f"]); ("f", ["g"]); ("g", ["f"]); ("h", ["d"; "g"; "h"])].

(** The same mapping with the key [h] enumerated first. *)
Definition scc_example_h_first : DependenciesListRecord :=
  [("h", ["d"; "g"; "h"]);
   ("a", ["b"]); ("b", ["c"; "e"; "f"]); ("c", ["d"; "g"]); ("d", ["c"; "h"]);
   ("e", ["a"; "f"]); ("f", ["g"]); ("g", ["f"])].

(** C5: in the order of the test the three components are reported, but
    with [h] enumerated first [a] and [b] join the component of [{c, d, h}]
    and [e] joins the component of [{f, g}]. *)
Theorem getCycles_scc_example_order_dependent :
  Detailed.getCycles scc_example =
    Done [["a"; "b"; "e"]; ["c"; "d"; "h"]; ["g"; "f"]] ∧
  scc_example_h_first ≡ₚ scc_example ∧
  Detailed.getCycles scc_example_h_first =
    Done [["h"; "d"; "c"; "a"; "b"]; ["g"; "f"; "e"]].
Proof.
  split_and!.
  - vm_compute. reflexivity.
  - apply (bool_decide_unpack _). vm_compute. exact I.
  - vm_compute. reflexivity.
Qed.

(** ** Creation of the resolver *)

(** Creation in terms of the two checks: for a mapping with a cycle, creation
    under ['simple'] throws a [CyclicDependencyError] without a cycle list,
    and under ['detailed'] one that carries what [getCycles] returned, which
    is not empty, in normalised form; no injector is returned in either case.
    For an acyclic mapping neither mode throws. *)
Lemma creation_fails_exactly_on_cycles {W : Type}
  (localeCompare : string → string → Z) (D : DependenciesListRecord)
  (mdl : gmap string (Provider W)) (opts : option DependencyInjectionOptions) :
  closed D →
  (has_cycle D →
     (checkCyclesOption opts = simple →
        makeInjectorFactory localeCompare D mdl opts =
        Throw (ECyclicDependency (mkCyclicDependencyError STANDARD_MESSAGE None))) ∧
     (checkCyclesOption opts = detailed →
        ∃ cs l, Detailed.getCycles D = Done cs ∧ cs ≠ [] ∧
                makeInjectorFactory localeCompare D mdl opts =
                Throw (ECyclicDependency
                         (mkCyclicDependencyError STANDARD_MESSAGE (Some l))) ∧
                ((∀ a b, (localeCompare a b ≤ 0)%Z ∨ (localeCompare b a ≤ 0)%Z) →
                 normalized localeCompare cs l))) ∧
  (acyclic D →
     makeInjectorFactory localeCompare D mdl opts =
     Done (mkInjector D mdl opts (keys D))).
Proof.
  intros Hclosed. split; [intros Hcyc; split|].
  - by apply factory_cyclic_simple.
  - intros Hmode.
    destruct (factory_cyclic_detailed localeCompare D mdl opts Hclosed Hcyc Hmode)
      as (cs & Hrun & Hne & Hthrow).
    exists cs, (normalizeCycles localeCompare cs). split_and!; try done.
    apply normalizeCycles_normalized.
  - by apply factory_acyclic.
Qed.

Lemma readme_a_misses_f : ¬ rtc (edge readme_example) "a" "f".
Proof.
  intros Hr.
  assert ("f" ∉ ["a"; "b"; "c"]) as Hnot
    by (apply (bool_decide_unpack _); vm_compute; exact I).
  apply Hnot. eapply (reach_within readme_example); [|left|exact Hr].
  intros u v Hu (ns & Hl & Hv).
  repeat (apply elem_of_cons in Hu as [->|Hu]);
    [| | |by apply elem_of_nil in Hu];
    vm_compute in Hl; simplify_eq;
    apply list_elem_of_singleton in Hv as ->;
    apply (bool_decide_unpack _); vm_compute; exact I.
Qed.

Lemma self_and_chain_c_off_cycle : ¬ on_cycle self_and_chain "c".
Proof.
  intros (w & (ns & Hl & Hw) & Hback)%tc_first_step.
  vm_compute in Hl. simplify_eq. apply list_elem_of_singleton in Hw as ->.
  apply rtc_tc in Hback as [?|Hback]; [done|].
  by eapply (no_edge_from self_and_chain "b").
Qed.

(** C6: under ['detailed'] the error thrown for the README example carries
    [[e]; [a; b; c; f; g]], whatever [localeCompare] is.  The two-way cycle
    [{f, g}] is not listed: its members are put into the entry of
    [{a, b, c}], although [a] does not reach [f], so that entry is not a
    cycle of the mapping (the README prints [[e]; [f; g]; [a; b; c]] for
    this error).  For the mapping with one self-loop the error lists
    [{b, c}], no member of which lies on a cycle. *)
Theorem detailed_error_carries_wrong_cycles :
  (closed readme_example ∧
   on_cycle readme_example "a" ∧ on_cycle readme_example "f" ∧
   ¬ rtc (edge readme_example) "a" "f" ∧
   ∀ localeCompare,
     makeInjectorFactory (W := unit) localeCompare readme_example ∅
       (Some (mkOptions (Some detailed) false)) =
     Throw (ECyclicDependency
              (mkCyclicDependencyError STANDARD_MESSAGE
                 (Some [["e"]; ["a"; "b"; "c"; "f"; "g"]])))) ∧
  (closed self_and_chain ∧
   ¬ on_cycle self_and_chain "b" ∧ ¬ on_cycle self_and_chain "c" ∧
   ∀ localeCompare,
     makeInjectorFactory (W := unit) localeCompare self_and_chain ∅
       (Some (mkOptions (Some detailed) false)) =
     Throw (ECyclicDependency
              (mkCyclicDependencyError STANDARD_MESSAGE
                 (Some [["a"]; ["b"; "c"]])))).
Proof.
  split; split_and!.
  - apply (bool_decide_unpack _). vm_compute. exact I.
  - eapply tc_l; [|eapply tc_l; [|apply tc_once]];
      by eexists; split; [reflexivity|left].
  - eapply tc_l; [|apply tc_once]; by eexists; split; [reflexivity|left].
  - exact readme_a_misses_f.
  - intros localeCompare. vm_compute. reflexivity.
  - apply (bool_decide_unpack _). vm_compute. exact I.
  - by apply no_edge_from.
  - exact self_and_chain_c_off_cycle.
  - intros localeCompare. vm_compute. reflexivity.
Qed.

(** C9: with [checkForCycles: 'skip'] creation runs no check and returns the
    injector, whatever the mapping; its properties are the keys of the
    mapping and reading one runs the getter of that member. *)
Theorem skip_never_throws {W : Type} (localeCompare : string → string → Z)
  (D : DependenciesListRecord) (mdl : gmap string (Provider W))
  (o : DependencyInjectionOptions) :
  checkForCycles o = Some skip →
  ∃ inj, makeInjectorFactory localeCompare D mdl (Some o) = Done inj ∧
         members inj = keys D ∧
         ∀ m ns fuel st, deps_lookup D m = Some ns →
           access inj (S fuel) m st = get mdl (Some o) (access inj fuel) m ns st.
Proof.
  intros Hskip. exists (mkInjector D mdl (Some o) (keys D)). split_and!.
  - apply factory_skip. unfold checkCyclesOption. simpl. by rewrite Hskip.
  - done.
  - intros m ns fuel st Hns. cbn [access dependencies]. by rewrite Hns.
Qed.

Lemma skip_never_throws_witness :
  has_cycle two_way ∧
  ∃ inj, makeInjectorFactory (W := unit) defaultCompare two_way ∅
           (Some (mkOptions (Some skip) false)) = Done inj ∧
         members inj = keys two_way ∧
         ∀ m ns fuel st, deps_lookup two_way m = Some ns →
           access inj (S fuel) m st =
           get ∅ (Some (mkOptions (Some skip) false)) (access inj fuel) m ns st.
Proof.
  split.
  - exists "a". eapply tc_l; [|apply tc_once]; by eexists; split; [reflexivity|left].
  - exact (skip_never_throws defaultCompare two_way ∅
             (mkOptions (Some skip) false) eq_refl).
Defined.

(** ** Memoisation *)

(** [m] is read by the caller or needed, directly or not, by a member the
    caller reads. *)
Definition accessed (D : DependenciesListRecord) (names : list string)
  (m : string) : Prop :=
  ∃ x, x ∈ names ∧ x ∈ keys D ∧ rtc (edge D) x m.

Lemma memo_closed_rtc {W : Type} (D : DependenciesListRecord) (st : State W) x m :
  memo_inv D st → is_Some (mapModuleObjects st !! x) → rtc (edge D) x m →
  is_Some (mapModuleObjects st !! m).
Proof. intros Hinv Hx Hr. induction Hr; [done|]. eauto using mi_closed. Qed.

(** C3, as amended: on an acyclic mapping whose providers always return a
    value that is neither [null] nor [undefined], every sequence of accesses
    on one injector completes, two accesses of the same member return the
    same value, no provider is entered more than once, and the provider of
    every accessed member is entered exactly once. *)
Theorem memoised_when_values_are_proper {W : Type}
  (localeCompare : string → string → Z) (D : DependenciesListRecord)
  (mdl : gmap string (Provider W)) (opts : option DependencyInjectionOptions)
  (names : list string) (fuel : nat) (w0 : W) :
  acyclic D → closed D → well_behaved D mdl → length D ≤ fuel →
  ∃ inj vs st',
    makeInjectorFactory localeCompare D mdl opts = Done inj ∧
    accesses inj fuel names (fresh w0) = Ok vs st' ∧
    length vs = length names ∧
    (∀ i j name v1 v2,
       names !! i = Some name → names !! j = Some name →
       vs !! i = Some v1 → vs !! j = Some v2 → v1 = v2) ∧
    (∀ m, invocations m (trace st') ≤ 1) ∧
    (∀ m, accessed D names m → invocations m (trace st') = 1).
Proof.
  intros Hac Hclosed Hwb Hfuel.
  destruct (accesses_memo D mdl opts Hac fuel names (fresh w0) Hclosed Hwb Hfuel
              (memo_inv_fresh D w0)) as (vs & st' & Hrun & Hinv & _ & Hall).
  exists (mkInjector D mdl opts (keys D)), vs, st'. split_and!.
  - by apply factory_acyclic.
  - done.
  - symmetry. by eapply Forall2_length.
  - intros i j name v1 v2 Hi Hj Hv1 Hv2.
    pose proof (Forall2_lookup_lr _ _ _ _ _ _ Hall Hi Hv1) as H1.
    pose proof (Forall2_lookup_lr _ _ _ _ _ _ Hall Hj Hv2) as H2.
    simpl in H1, H2. destruct (decide (name ∈ keys D)); congruence.
  - intros m. rewrite (mi_count D st' Hinv m).
    destruct (mapModuleObjects st' !! m); lia.
  - intros m (x & Hx & Hkey & Hreach).
    apply list_elem_of_lookup_1 in Hx as [i Hi].
    destruct (Forall2_lookup_l _ _ _ _ _ Hall Hi) as (v & Hv & Hcached).
    simpl in Hcached. rewrite decide_True in Hcached by done.
    destruct (memo_closed_rtc D st' x m Hinv) as [u Hu]; [by eauto|done|].
    by rewrite (mi_count D st' Hinv m), Hu.
Qed.

(** A provider that returns [undefined] on its first call, and counts. *)
Definition counting : Provider nat :=
  λ _ n, (Normal (if decide (n = 0) then VUndefined else VNum (Z.of_nat n)), S n).

Definition lone : DependenciesListRecord := [("a", [])].

(** C3: a provider that returns [undefined] is entered again by the second
    access, which then returns another value. *)
Lemma memoisation_fails_on_undefined :
  acyclic lone ∧ closed lone ∧
  ∃ st', accesses (mkInjector lone {["a" := counting]} None (keys lone)) 1
           ["a"; "a"] (fresh 0) = Ok [VUndefined; VNum 1] st' ∧
         invocations "a" (trace st') = 2.
Proof.
  assert (closed lone) as H by (apply (bool_decide_unpack _); vm_compute; exact I).
  split_and!; [by apply acyclic_by_check|done|].
  eexists. split; vm_compute; reflexivity.
Qed.

(** A provider that always returns a number. *)
Definition constant (n : Z) : Provider unit := λ _ w, (Normal (VNum n), w).

Lemma well_behaved_constant :
  well_behaved lone ({["a" := constant 3]} : gmap string (Provider unit)).
Proof.
  intros m ->%list_elem_of_singleton. exists (constant 3). split; [done|].
  intros args w. by exists (VNum 3), w.
Qed.

Lemma memoised_when_values_are_proper_witness :
  ∃ inj vs st',
    makeInjectorFactory defaultCompare lone {["a" := constant 3]} None = Done inj ∧
    accesses inj 1 ["a"; "a"] (fresh tt) = Ok vs st' ∧
    length vs = length ["a"; "a"] ∧
    (∀ i j name v1 v2,
       ["a"; "a"] !! i = Some name → ["a"; "a"] !! j = Some name →
       vs !! i = Some v1 → vs !! j = Some v2 → v1 = v2) ∧
    (∀ m, invocations m (trace st') ≤ 1) ∧
    (∀ m, accessed lone ["a"; "a"] m → invocations m (trace st') = 1).
Proof.
  assert (closed lone) as H by (apply (bool_decide_unpack _); vm_compute; exact I).
  apply (memoised_when_values_are_proper defaultCompare lone
           {["a" := constant 3]} None ["a"; "a"] 1 tt).
  - by apply acyclic_by_check.
  - exact H.
  - exact well_behaved_constant.
  - simpl. lia.
Defined.

(** ** Order of construction *)

(** C7: on an acyclic mapping, reading a member [y] that has no usable cache
    entry runs the accessors of [D[y]] one after the other in the declared
    order; if they all complete, every one of these dependencies has a cache
    entry when the provider of [y] is entered (the very value handed to the
    provider, when that value is neither [null] nor [undefined]), and the
    provider of [y] is entered only then; if one of them throws, the provider
    of [y] is not entered at all. *)
Theorem dependencies_constructed_before_provider {W : Type}
  (D : DependenciesListRecord) (mdl : gmap string (Provider W))
  (opts : option DependencyInjectionOptions)
  (fuel : nat) (y : string) (ns : list string) (st : State W) :
  acyclic D → closed D → deps_lookup D y = Some ns → is_Some (mdl !! y) →
  hit (mapModuleObjects st !! y) = None → length D ≤ S fuel →
  let inj := mkInjector D mdl opts (keys D) in
  let st0 := emit opts (y +:+ " - constructing") (emit opts (y +:+ " - get") st) in
  (∃ entries st1 rest,
     resolved_in_order (access inj fuel) ns st0 entries st1 ∧
     entries.*1 = ns ∧
     (∀ x, x ∈ ns → is_Some (mapModuleObjects st1 !! x)) ∧
     (∀ x v, (x, v) ∈ entries → neq_undefined v = true →
             mapModuleObjects st1 !! x = Some v) ∧
     invocations y (trace st1) = invocations y (trace st) ∧
     match access inj (S fuel) y st with
     | Ok _ st2 | Raise _ st2 =>
         trace st2 = trace st1 ++ Invoke y (fromEntries entries) :: rest
     | NoFuel => False
     end) ∨
  (∃ e st1,
     getDeps (access inj fuel) ns st0 = Raise e st1 ∧
     access inj (S fuel) y st = Raise e st1 ∧
     invocations y (trace st1) = invocations y (trace st)).
Proof.
  intros Hac Hclosed Hns [memberProvider Hp] Hmiss Hfuel. cbv zeta.
  pose proof (access_total D mdl opts Hac (S fuel) y st Hfuel) as Htotal.
  cbn [access dependencies module options] in Htotal |- *.
  rewrite Hns in Htotal |- *.
  rewrite get_unfold in Htotal |- *. rewrite Hmiss in Htotal |- *.
  set (inj := mkInjector D mdl opts (keys D)) in *.
  set (st0 := emit opts (y +:+ " - constructing") (emit opts (y +:+ " - get") st)) in *.
  pose proof (deps_keep_entry D mdl opts Hac fuel y ns st0 Hns) as Hkeep.
  fold inj in Hkeep.
  assert (invocations y (trace st0) = invocations y (trace st)) as Hinv0.
  { unfold st0. by rewrite !invocations_emit. }
  destruct (getDeps (access inj fuel) ns st0) as [entries st1|e st1|] eqn:Hrun;
    [|right|done].
  - left. destruct Hkeep as [_ Hkeep].
    apply getDeps_Ok in Hrun.
    destruct (resolved_cached D mdl opts Hac fuel ns st0 entries st1 Hrun)
      as (Hfst & Hcached & Hvalue).
    assert (∀ x, x ∈ ns → x ∈ keys D) as Hkeys.
    { intros x Hx. eapply closed_edge; [done|]. by exists ns. }
    assert (∀ x v, (x, v) ∈ entries → neq_undefined v = true →
              mapModuleObjects st1 !! x = Some v) as Hvalue'.
    { intros x v Hxv Hv. apply Hvalue; [done| |done]. apply Hkeys.
      rewrite <- Hfst. apply list_elem_of_fmap. by exists (x, v). }
    unfold Provider in *. rewrite Hp.
    destruct (memberProvider _ _) as [[v|e] w].
    + exists entries, st1, (Returned y v :: emitted opts (y +:+ " - constructed")).
      split_and!; [done|done|by auto|done|congruence|].
      rewrite emit_trace. simpl. by rewrite <- app_assoc.
    + exists entries, st1, [Raised y e].
      split_and!; [done|done|by auto|done|congruence|done].
  - exists e, st1. destruct Hkeep as [_ Hkeep]. split_and!; [done|done|congruence].
Qed.

(** ** Failing providers *)


(** ** The examples of the README and the tests, as instances *)

(** The Pythagorean triple, with the square root taken on integers. *)
Definition pythagorean : DependenciesListRecord :=
  [("a", []); ("b", []); ("c", ["a"; "b"]); ("digest", ["a"; "b"; "c"])].

Definition number (o : option value) : Z :=
  match o with
  | Some (VNum n) => n
  | _ => 0%Z
  end.

Definition pythagorean_module : gmap string (Provider unit) :=
  list_to_map
    [("a", constant 3); ("b", constant 4);
     ("c", λ args w,
        (Normal (VNum (Z.sqrt (number (args !! "a") * number (args !! "a") +
                               number (args !! "b") * number (args !! "b")))), w));
     ("digest", λ args w, (Normal (VNum (number (args !! "c"))), w))].

Lemma pythagorean_closed : closed pythagorean.
Proof. apply (bool_decide_unpack _). vm_compute. exact I. Qed.

Lemma pythagorean_acyclic : acyclic pythagorean.
Proof. apply acyclic_by_check; [apply pythagorean_closed|]. vm_compute. reflexivity. Qed.

Lemma dependencies_constructed_before_provider_witness :
  let D := pythagorean in
  let mdl := pythagorean_module in
  let inj := mkInjector D mdl None (keys D) in
  let st := fresh tt in
  let st0 := emit None ("c" +:+ " - constructing") (emit None ("c" +:+ " - get") st) in
  (∃ entries st1 rest,
     resolved_in_order (access inj 3) ["a"; "b"] st0 entries st1 ∧
     entries.*1 = ["a"; "b"] ∧
     (∀ x, x ∈ ["a"; "b"] → is_Some (mapModuleObjects st1 !! x)) ∧
     (∀ x v, (x, v) ∈ entries → neq_undefined v = true →
             mapModuleObjects st1 !! x = Some v) ∧
     invocations "c" (trace st1) = invocations "c" (trace st) ∧
     match access inj 4 "c" st with
     | Ok _ st2 | Raise _ st2 =>
         trace st2 = trace st1 ++ Invoke "c" (fromEntries entries) :: rest
     | NoFuel => False
     end) ∨
  (∃ e st1,
     getDeps (access inj 3) ["a"; "b"] st0 = Raise e st1 ∧
     access inj 4 "c" st = Raise e st1 ∧
     invocations "c" (trace st1) = invocations "c" (trace st)).
Proof.
  apply (dependencies_constructed_before_provider pythagorean pythagorean_module
           None 3 "c" ["a"; "b"] (fresh tt)).
  - exact pythagorean_acyclic.
  - exact pythagorean_closed.
  - reflexivity.
  - eexists. vm_compute. reflexivity.
  - reflexivity.
  - simpl. lia.
Defined.






(** * Further properties of the code *)

(** ** Dependency names that are not keys *)

Lemma deps_lookup_NoDup (D : DependenciesListRecord) k ns :
  NoDup (keys D) → (k, ns) ∈ D → deps_lookup D k = Some ns.
Proof.
  unfold keys. induction D as [|[k' ns'] D' IH]; intros Hnd Hin.
  { by apply elem_of_nil in Hin. }
  rewrite fmap_cons in Hnd. apply NoDup_cons in Hnd as [Hk' Hnd]. simpl.
  apply elem_of_cons in Hin as [Heq|Hin].
  - simplify_eq. by rewrite decide_True.
  - rewrite decide_False; [by apply IH|].
    intros ->. apply Hk'. apply list_elem_of_fmap. by exists (k, ns).
Qed.

Lemma edges_closed (D : DependenciesListRecord) :
  NoDup (keys D) → (∀ x y, edge D x y → y ∈ keys D) → closed D.
Proof.
  intros Hnd Hedges. apply Forall_forall. intros [k ns] Hin.
  apply Forall_forall. intros n Hn. simpl in Hn.
  apply (Hedges k). exists ns. split; [by apply deps_lookup_NoDup|done].
Qed.

Section SimpleDangling.
Import Simple.
Context (D : DependenciesListRecord).

(** Finished nodes are keys of the mapping. *)
Definition done_keys (vm : gmap string VisitState) : Prop :=
  ∀ v, vm !! v = Some VISITED → is_Some (deps_lookup D v).

(** What a call that answers [false] leaves behind. *)
Definition false_post (key : string) (vm vm' : gmap string VisitState) : Prop :=
  done_closed D vm' ∧ done_keys vm' ∧ vm' !! key = Some VISITED ∧
  same_visiting vm vm' ∧ keeps_done vm vm'.

Lemma dfsNeighbors_false visit key :
  (∀ n vm0 vm1, visit n vm0 = Done (false, vm1) → vm0 !! n = None →
     done_closed D vm0 → done_keys vm0 → false_post n vm0 vm1) →
  ∀ ns vm vm',
    dfsNeighbors visit key ns vm = Done (false, vm') →
    done_closed D vm → done_keys vm →
    done_closed D vm' ∧ done_keys vm' ∧ same_visiting vm vm' ∧ keeps_done vm vm' ∧
    ∀ n, n ∈ ns → vm' !! n = Some VISITED.
Proof.
  intros Hvisit. induction ns as [|n ns IH]; intros vm vm' Hrun Hcl Hkeys.
  { simpl in Hrun. simplify_eq.
    split_and!; [done|done|apply same_visiting_refl|apply keeps_done_refl|].
    by intros n ?%elem_of_nil. }
  simpl in Hrun. destruct (decide (n = key)); [done|].
  destruct (vm !! n) as [[]|] eqn:En; [done| |].
  - destruct (IH _ _ Hrun Hcl Hkeys) as (Hcl' & Hkeys' & Hv & Hd & Hall).
    split_and!; try done.
    intros n' [->|Hn']%elem_of_cons; [by apply Hd|by apply Hall].
  - destruct (visit n vm) as [[[] vm1]|e|] eqn:Hn; [done| |done|done].
    destruct (Hvisit _ _ _ Hn En Hcl Hkeys) as (Hcl1 & Hkeys1 & Hn1 & Hv1 & Hd1).
    destruct (IH _ _ Hrun Hcl1 Hkeys1) as (Hcl' & Hkeys' & Hv & Hd & Hall).
    split_and!; try done.
    + by eapply same_visiting_trans.
    + by eapply keeps_done_trans.
    + intros n' [->|Hn']%elem_of_cons; [by apply Hd|by apply Hall].
Qed.

Lemma dfsVisit_false fuel :
  ∀ key vm vm',
    dfsVisit fuel D key vm = Done (false, vm') → vm !! key = None →
    done_closed D vm → done_keys vm → false_post key vm vm'.
Proof.
  induction fuel as [|fuel IH]; intros key vm vm' Hrun Hnone Hcl Hkeys; [done|].
  simpl in Hrun. destruct (deps_lookup D key) as [ns|] eqn:Hns; [|done].
  assert (∀ v w, vm !! v = Some VISITED → edge D v w → w ≠ key) as Hnk.
  { intros v w Hv He ->. specialize (Hcl _ _ Hv He). congruence. }
  assert (∀ m, same_visiting (<[key := VISITNG]> vm) m →
               same_visiting vm (<[key := VISITED]> m)) as Hsame.
  { intros m Hm v. destruct (decide (key = v)) as [<-|Hne].
    - rewrite lookup_insert_eq, Hnone. split; congruence.
    - rewrite lookup_insert_ne by done. rewrite (Hm v). by rewrite lookup_insert_ne. }
  assert (∀ m, keeps_done (<[key := VISITNG]> vm) m →
               keeps_done vm (<[key := VISITED]> m)) as Hkeep.
  { intros m Hm v Hv. assert (key ≠ v) by congruence.
    rewrite lookup_insert_ne by done. apply Hm. by rewrite lookup_insert_ne. }
  assert (∀ m, done_keys m → done_keys (<[key := VISITED]> m)) as Hdk.
  { intros m Hm v. destruct (decide (key = v)) as [<-|Hne].
    - intros _. by rewrite Hns.
    - rewrite lookup_insert_ne by done. apply Hm. }
  assert (∀ m, done_closed D m → (∀ n, n ∈ ns → m !! n = Some VISITED ∨ n = key) →
               done_closed D (<[key := VISITED]> m)) as Hdc.
  { intros m Hm Hall v w Hv He. destruct (decide (key = w)) as [<-|Hnw].
    { by rewrite lookup_insert_eq. }
    rewrite lookup_insert_ne by done.
    destruct (decide (key = v)) as [<-|Hne].
    - destruct He as (ns' & Hl & Hw). rewrite Hns in Hl. simplify_eq.
      destruct (Hall w Hw) as [?| ->]; done.
    - rewrite lookup_insert_ne in Hv by done. by eapply Hm. }
  destruct ns as [|n0 ns0].
  { simplify_eq. split_and!.
    - apply Hdc; [done|]. by intros n ?%elem_of_nil.
    - by apply Hdk.
    - by rewrite lookup_insert_eq.
    - intros v. destruct (decide (key = v)) as [<-|Hne].
      + rewrite lookup_insert_eq, Hnone. split; congruence.
      + by rewrite lookup_insert_ne.
    - intros v Hv. rewrite lookup_insert_ne; [done|congruence]. }
  destruct (dfsNeighbors _ key (n0 :: ns0) _) as [[[] m]|e|] eqn:Hloop;
    [done| |done|done].
  simplify_eq.
  destruct (dfsNeighbors_false (dfsVisit fuel D) key IH _ _ _ Hloop)
    as (Hcl' & Hkeys' & Hv & Hd & Hall).
  { intros v w Hv He. destruct (decide (key = v)) as [<-|Hne].
    - by rewrite lookup_insert_eq in Hv.
    - rewrite lookup_insert_ne in Hv by done.
      rewrite lookup_insert_ne; [by eapply Hcl | intros ->; by eapply Hnk]. }
  { intros v Hv. destruct (decide (key = v)) as [<-|Hne].
    - by rewrite lookup_insert_eq in Hv.
    - rewrite lookup_insert_ne in Hv by done. by apply Hkeys. }
  split_and!.
  - apply Hdc; [done|]. intros n Hn. left. by apply Hall.
  - by apply Hdk.
  - by rewrite lookup_insert_eq.
  - by apply Hsame.
  - by apply Hkeep.
Qed.

Lemma visitAll_false fuel ks :
  ∀ vm, visitAll fuel D ks vm = Done false →
    (∀ v, vm !! v ≠ Some VISITNG) → done_closed D vm → done_keys vm →
    ∃ vm', done_closed D vm' ∧ done_keys vm' ∧ keeps_done vm vm' ∧
           ∀ k, k ∈ ks → vm' !! k = Some VISITED.
Proof.
  induction ks as [|k ks IH]; intros vm Hrun Hnv Hcl Hkeys.
  { exists vm. split_and!; [done|done|apply keeps_done_refl|].
    by intros k ?%elem_of_nil. }
  simpl in Hrun. destruct (vm !! k) as [s|] eqn:Ek.
  - destruct (IH vm Hrun Hnv Hcl Hkeys) as (vm' & Hcl' & Hkeys' & Hd & Hall).
    exists vm'. split_and!; try done.
    intros k' [->|Hk']%elem_of_cons; [|by apply Hall].
    apply Hd. destruct s; [by apply Hnv in Ek|done].
  - destruct (dfsVisit fuel D k vm) as [[[] vm1]|e|] eqn:Hk; [done| |done|done].
    destruct (dfsVisit_false _ _ _ _ Hk Ek Hcl Hkeys) as (Hcl1 & Hkeys1 & Hk1 & Hv1 & Hd1).
    destruct (IH vm1 Hrun) as (vm' & Hcl' & Hkeys' & Hd & Hall); try done.
    { intros v Hv. apply Hv1 in Hv. by apply Hnv in Hv. }
    exists vm'. split_and!; try done.
    + by eapply keeps_done_trans.
    + intros k' [->|Hk']%elem_of_cons; [by apply Hd|by apply Hall].
Qed.

Lemma anyCycilcDependencies_false_edges :
  anyCycilcDependencies D = Done false → ∀ x y, edge D x y → y ∈ keys D.
Proof.
  intros Hrun x y He. unfold anyCycilcDependencies in Hrun.
  destruct (visitAll_false _ _ _ Hrun) as (vm' & Hcl & Hkeys & _ & Hall).
  { intros v. by rewrite lookup_empty. }
  { intros v w. by rewrite lookup_empty. }
  { intros v. by rewrite lookup_empty. }
  assert (vm' !! x = Some VISITED) as Hx by (by eapply Hall, edge_key).
  destruct (Hkeys y (Hcl _ _ Hx He)) as [ns Hns]. by eapply deps_lookup_Some_key.
Qed.

(** The recursion budget suffices on every mapping: a call either answers or
    throws the [TypeError] of a name that is not a key. *)
Definition answers {A : Type} (r : outcome A) (P : A → Prop) : Prop :=
  match r with
  | Done a => P a
  | Throw e => e = TypeError
  | OutOfFuel => False
  end.

Definition vm_mono (vm vm' : gmap string VisitState) : Prop :=
  ∀ k, vm' !! k = None → vm !! k = None.

Lemma unvisited_vm_mono vm vm' : vm_mono vm vm' → unvisited D vm' ≤ unvisited D vm.
Proof. intros Hm. apply filter_length_mono. intros x _. apply Hm. Qed.

Lemma dfsNeighbors_answers visit key budget :
  (∀ n vm0, vm0 !! n = None → unvisited D vm0 < budget →
     answers (visit n vm0) (λ r, vm_mono vm0 r.2)) →
  ∀ ns vm, unvisited D vm < budget →
    answers (dfsNeighbors visit key ns vm) (λ r, vm_mono vm r.2).
Proof.
  intros Hvisit. induction ns as [|n ns IH]; intros vm Hbud; simpl.
  { by intros k. }
  destruct (decide (n = key)); [by intros k|].
  destruct (vm !! n) as [[]|] eqn:En; [by intros k|by apply IH|].
  pose proof (Hvisit n vm En Hbud) as Hn.
  destruct (visit n vm) as [[[] vm1]|e|]; simpl in Hn; [done| |done|done].
  pose proof (unvisited_vm_mono _ _ Hn) as Hle.
  assert (unvisited D vm1 < budget) as Hbud1 by lia.
  pose proof (IH vm1 Hbud1) as Hrest.
  destruct (dfsNeighbors visit key ns vm1) as [[b vm2]|e|]; simpl in *; [|done|done].
  intros k Hk. by apply Hn, Hrest.
Qed.

Lemma dfsVisit_answers fuel :
  ∀ key vm, vm !! key = None → unvisited D vm < fuel →
    answers (dfsVisit fuel D key vm) (λ r, vm_mono vm r.2).
Proof.
  induction fuel as [|fuel IH]; intros key vm Hnone Hbud; [lia|].
  simpl. destruct (deps_lookup D key) as [ns|] eqn:Hns; [|done].
  assert (∀ s m, vm_mono (<[key := s]> vm) m → vm_mono vm m) as Hins.
  { intros s m Hm k Hk. apply Hm in Hk. destruct (decide (key = k)) as [<-|Hne].
    - done.
    - by rewrite lookup_insert_ne in Hk. }
  assert (∀ s m, vm_mono vm m → vm_mono vm (<[key := s]> m)) as Hins'.
  { intros s m Hm k Hk. destruct (decide (key = k)) as [<-|Hne]; [done|].
    rewrite lookup_insert_ne in Hk by done. by apply Hm. }
  destruct ns as [|n0 ns0].
  { simpl. apply Hins'. by intros k. }
  pose proof (unvisited_insert D vm key VISITNG (deps_lookup_Some_key D _ _ Hns) Hnone)
    as Hlt.
  assert (unvisited D (<[key := VISITNG]> vm) < fuel) as Hbud1 by lia.
  pose proof (dfsNeighbors_answers (dfsVisit fuel D) key fuel IH (n0 :: ns0) _ Hbud1)
    as Hloop.
  destruct (dfsNeighbors _ key (n0 :: ns0) _) as [[[] m]|e|]; simpl in *;
    [by eapply Hins|by eapply Hins', Hins|done|done].
Qed.

Lemma visitAll_answers fuel ks :
  ∀ vm, unvisited D vm < fuel → answers (visitAll fuel D ks vm) (λ _, True).
Proof.
  induction ks as [|k ks IH]; intros vm Hbud; simpl; [done|].
  destruct (vm !! k) eqn:Ek; [by apply IH|].
  pose proof (dfsVisit_answers fuel k vm Ek Hbud) as Hk.
  destruct (dfsVisit fuel D k vm) as [[[] vm1]|e|]; simpl in Hk; [done| |done|done].
  apply IH. pose proof (unvisited_vm_mono _ _ Hk). lia.
Qed.

Lemma anyCycilcDependencies_answers :
  answers (anyCycilcDependencies D) (λ _, True).
Proof.
  apply visitAll_answers. unfold unvisited.
  eapply Nat.le_lt_trans; [apply length_filter|].
  unfold keys. rewrite length_fmap. lia.
Qed.

End SimpleDangling.

Section DetailedDangling.
Import Detailed.
Context (D : DependenciesListRecord).

(** Recorded nodes are keys, and every recorded node that is not under visit
    has all its dependencies recorded. *)
Record rec_inv (st : State) : Prop := {
  ri_keys : ∀ k, is_Some (info_of st k) → is_Some (deps_lookup D k);
  ri_next : ∀ k w, is_Some (info_of st k) → ¬ visiting st k → edge D k w →
                   is_Some (info_of st w)
}.

Lemma setInfo_visiting_is_Some st key i m k :
  is_Some (info_of st key) →
  is_Some (info_of (setInfo st key (VisitingInfo i m)) k) ↔ is_Some (info_of st k).
Proof.
  intros Hkey. destruct (decide (key = k)) as [<-|Hne].
  - rewrite setInfo_info_eq. split; [done|by eauto].
  - by rewrite setInfo_info_ne.
Qed.

Lemma setInfo_visiting_visiting st key i m k :
  visiting st key →
  visiting (setInfo st key (VisitingInfo i m)) k ↔ visiting st k.
Proof.
  intros Hkey. unfold visiting. destruct (decide (key = k)) as [<-|Hne].
  - rewrite setInfo_info_eq. split; [done|by eauto].
  - by rewrite setInfo_info_ne.
Qed.

Lemma rec_inv_lower st key i m :
  visiting st key → rec_inv st → rec_inv (setInfo st key (VisitingInfo i m)).
Proof.
  intros Hkey [Hk Hn].
  assert (is_Some (info_of st key)) as Hsome by (destruct Hkey as (? & ? & ->); eauto).
  split.
  - intros k. rewrite setInfo_visiting_is_Some by done. apply Hk.
  - intros k w. rewrite !setInfo_visiting_is_Some by done.
    rewrite setInfo_visiting_visiting by done. apply Hn.
Qed.

(** What the loop over the neighbours of [key] leaves alone. *)
Definition frame_but (key : string) (st st' : State) : Prop :=
  (∀ k info, k ≠ key → info_of st k = Some info → info_of st' k = Some info) ∧
  (∀ k i n, k ≠ key → info_of st' k = Some (VisitingInfo i n) →
            info_of st k = Some (VisitingInfo i n)).

Lemma frame_but_lower key st i m st' :
  frame_but key (setInfo st key (VisitingInfo i m)) st' → frame_but key st st'.
Proof.
  intros [Hf Hb]. split.
  - intros k info Hk Hinfo. apply Hf; [done|]. by rewrite setInfo_info_ne.
  - intros k i' n Hk Hinfo. apply Hb in Hinfo; [|done].
    by rewrite setInfo_info_ne in Hinfo.
Qed.

Definition rec_post (n : string) (st0 st1 : State) : Prop :=
  rec_inv st1 ∧ frame st0 st1 ∧ fresh_finished st0 st1 ∧ visited st1 n.

Lemma dfsNeighbors_rec visit key visitIdx :
  (∀ n st0 info st1, visit n st0 = Done (info, st1) → info_of st0 n = None →
     rec_inv st0 → rec_post n st0 st1) →
  ∀ ns minIdx st m st',
    dfsNeighbors visit key visitIdx ns minIdx st = Done (m, st') →
    visiting st key → rec_inv st →
    rec_inv st' ∧ frame_but key st st' ∧ visiting st' key ∧
    ∀ n, n ∈ ns → is_Some (info_of st' n).
Proof.
  intros Hvisit. induction ns as [|n ns IH]; intros minIdx st m st' Hrun Hkey Hinv.
  { simpl in Hrun. simplify_eq. split_and!; try done. by intros n ?%elem_of_nil. }
  assert (is_Some (info_of st key)) as Hsome by (destruct Hkey as (? & ? & ->); eauto).
  assert (∀ st2 st3, frame_but key st2 st3 → visiting st3 key →
            is_Some (info_of st2 n) → is_Some (info_of st3 n)) as Hkeep.
  { intros st2 st3 [Hf _] Hk3 [info Hn]. destruct (decide (n = key)) as [->|Hne].
    - destruct Hk3 as (? & ? & ->). eauto.
    - erewrite Hf; eauto. }
  cbn [dfsNeighbors] in Hrun. destruct (decide (n = key)) as [->|Hne].
  { destruct (IH _ _ _ _ Hrun) as (Hinv' & Hframe & Hkey' & Hall); try done.
    { by destruct Hinv. }
    split_and!; try done.
    intros n' [->|Hn']%elem_of_cons; [|by apply Hall].
    destruct Hkey' as (? & ? & ->). eauto. }
  fold (info_of st n) in Hrun. destruct (info_of st n) as [[i nmin|nmin p]|] eqn:En.
  - destruct (IH _ _ _ _ Hrun) as (Hinv' & Hframe & Hkey' & Hall).
    { by apply setInfo_visiting_visiting. }
    { apply (rec_inv_lower (mkState (mapNodeInfo st) (visitOrderedList st)
                                    (setSelfCycle st) true)); [done|by destruct Hinv]. }
    apply (frame_but_lower key (mkState (mapNodeInfo st) (visitOrderedList st)
                                    (setSelfCycle st) true)) in Hframe.
    split_and!; try done.
    intros n' [->|Hn']%elem_of_cons; [|by apply Hall].
    eapply Hkeep; [exact Hframe|done|]. unfold info_of in *. simpl. rewrite En. eauto.
  - destruct (IH _ _ _ _ Hrun) as (Hinv' & Hframe & Hkey' & Hall).
    { by apply setInfo_visiting_visiting. }
    { by apply rec_inv_lower. }
    apply frame_but_lower in Hframe.
    split_and!; try done.
    intros n' [->|Hn']%elem_of_cons; [|by apply Hall].
    eapply Hkeep; [exact Hframe|done|]. rewrite En. eauto.
  - destruct (visit n st) as [[info st1]|e|] eqn:Hn; [|done|done].
    destruct (Hvisit _ _ _ _ Hn En Hinv) as (Hinv1 & Hframe1 & Hfresh1 & Hvis1).
    assert (visiting st1 key) as Hkey1.
    { destruct Hkey as (i0 & n0 & Hk0). exists i0, n0. by apply Hframe1. }
    destruct (IH _ _ _ _ Hrun) as (Hinv' & Hframe & Hkey' & Hall).
    { by apply setInfo_visiting_visiting. }
    { by apply rec_inv_lower. }
    apply frame_but_lower in Hframe. destruct Hframe as [Hf Hb].
    split_and!; try done.
    + split.
      * intros k info' Hk Hinfo. by apply Hf, Hframe1.
      * intros k i n' Hk Hinfo. by apply Hfresh1, Hb.
    + intros n' [->|Hn']%elem_of_cons; [|by apply Hall].
      destruct Hvis1 as (mn & pn & Hn1). erewrite Hf; eauto.
Qed.

Lemma dfsVisit_rec fuel :
  ∀ key st info st',
    dfsVisit fuel D key st = Done (info, st') → info_of st key = None →
    rec_inv st → rec_post key st st'.
Proof.
  induction fuel as [|fuel IH]; intros key st info st' Hrun Hnone Hinv; [done|].
  cbn [dfsVisit] in Hrun. destruct (deps_lookup D key) as [ns|] eqn:Hns; [|done].
  set (visitIdx := length (visitOrderedList st)) in *.
  set (st1 := mkState _ _ _ _) in Hrun.
  assert (info_of st1 key = Some (VisitingInfo visitIdx visitIdx)) as Hkey1
    by apply jsmap_get_set_eq.
  assert (∀ k, k ≠ key → info_of st1 k = info_of st k) as Hother1.
  { intros k Hk. apply jsmap_get_set_ne. congruence. }
  assert (∀ k, visiting st1 k → k ≠ key → visiting st k) as Hvis1.
  { intros k (i & n & Hk) Hne. exists i, n. by rewrite <- Hother1. }
  destruct (dfsNeighbors _ key visitIdx ns visitIdx st1) as [[m st2]|e|] eqn:Hloop;
    [|done|done].
  simplify_eq.
  destruct (dfsNeighbors_rec (dfsVisit fuel D) key visitIdx IH _ _ _ _ _ Hloop)
    as (Hinv2 & [Hf Hb] & Hkey2 & Hall).
  { by exists visitIdx, visitIdx. }
  { destruct Hinv as [Hk Hn]. split.
    - intros k Hs. destruct (decide (k = key)) as [->|Hne]; [by rewrite Hns|].
      apply Hk. by rewrite <- Hother1.
    - intros k w Hs Hnv He. destruct (decide (k = key)) as [->|Hne].
      { exfalso. apply Hnv. by exists visitIdx, visitIdx. }
      rewrite Hother1 in Hs by done.
      destruct (decide (w = key)) as [->|Hw]; [by rewrite Hkey1|].
      rewrite Hother1 by done. apply (Hn k); [done| |done].
      intros (i & n & Hv). apply Hnv. exists i, n. by rewrite Hother1. }
  set (nodeInfo := VisitedInfo m (visitOrderedList st2 !! m)).
  assert (is_Some (info_of st2 key)) as Hsome2 by (destruct Hkey2 as (? & ? & ->); eauto).
  assert (∀ k, is_Some (info_of (setInfo st2 key nodeInfo) k) ↔ is_Some (info_of st2 k))
    as Hsame.
  { intros k. destruct (decide (key = k)) as [<-|Hne].
    - rewrite setInfo_info_eq. split; [done|by eauto].
    - by rewrite setInfo_info_ne. }
  split_and!.
  - destruct Hinv2 as [Hk Hn]. split.
    + intros k. rewrite Hsame. apply Hk.
    + intros k w. rewrite !Hsame. intros Hs Hnv He.
      destruct (decide (k = key)) as [->|Hne].
      * apply Hall. destruct He as (ns' & Hl & Hw). congruence.
      * apply (Hn k); [done| |done]. intros (i & n & Hv). apply Hnv.
        exists i, n. by rewrite setInfo_info_ne.
  - intros k info Hk. assert (k ≠ key) as Hne by congruence.
    rewrite setInfo_info_ne by done. apply Hf; [done|]. by rewrite Hother1.
  - intros k i n Hk. destruct (decide (key = k)) as [<-|Hne].
    { by rewrite setInfo_info_eq in Hk. }
    rewrite setInfo_info_ne in Hk by done. apply Hb in Hk; [|done].
    by rewrite Hother1 in Hk.
  - apply visited_setInfo_visited. by left.
Qed.

Lemma visitAll_rec fuel ks :
  ∀ st st', visitAll fuel D ks st = Done st' →
    rec_inv st → (∀ v, ¬ visiting st v) →
    rec_inv st' ∧ (∀ v, ¬ visiting st' v) ∧ frame st st' ∧
    ∀ k, k ∈ ks → is_Some (info_of st' k).
Proof.
  induction ks as [|k ks IH]; intros st st' Hrun Hinv Hnone.
  { simpl in Hrun. simplify_eq. split_and!; try done; [by intros ? ?|].
    by intros k ?%elem_of_nil. }
  cbn [visitAll] in Hrun. fold (info_of st k) in Hrun.
  destruct (info_of st k) as [info|] eqn:Ek.
  - destruct (IH _ _ Hrun Hinv Hnone) as (Hinv' & Hnone' & Hframe & Hall).
    split_and!; try done.
    intros k' [->|Hk']%elem_of_cons; [|by apply Hall]. erewrite Hframe; eauto.
  - destruct (dfsVisit fuel D k st) as [[info st1]|e|] eqn:Hk; [|done|done].
    destruct (dfsVisit_rec _ _ _ _ _ Hk Ek Hinv) as (Hinv1 & Hframe1 & Hfresh1 & Hvis1).
    destruct (IH _ _ Hrun Hinv1) as (Hinv' & Hnone' & Hframe & Hall).
    { intros v (i & n & Hv). apply (Hnone v). exists i, n. by apply Hfresh1. }
    split_and!; try done.
    + intros x info' Hx. by apply Hframe, Hframe1.
    + intros k' [->|Hk']%elem_of_cons; [|by apply Hall].
      destruct Hvis1 as (m & p & Hk1). erewrite Hframe; eauto.
Qed.

Lemma traversal_Done_edges fuel st :
  visitAll fuel D (keys D) init = Done st → ∀ x y, edge D x y → y ∈ keys D.
Proof.
  intros Hall x y He.
  destruct (visitAll_rec _ _ _ _ Hall) as ([Hk Hn] & Hnone & _ & Hrec).
  { split; [intros k [? ?]|intros k w [? ?]]; done. }
  { intros v (i & n & Hv). done. }
  assert (is_Some (info_of st x)) as Hx by (by eapply Hrec, edge_key).
  destruct (Hk y) as [ns Hns]; [by eapply Hn|]. by eapply deps_lookup_Some_key.
Qed.

Definition rec_mono (st st' : State) : Prop :=
  ∀ k, is_Some (info_of st k) → is_Some (info_of st' k).

Lemma pending_rec_mono st st' : rec_mono st st' → pending D st' ≤ pending D st.
Proof.
  intros Hm. apply pending_mono. intros k Hk.
  destruct (info_of st k) eqn:E; [|done].
  destruct (Hm k) as [? ?]; [by eauto|congruence].
Qed.

Lemma rec_mono_lower st key i m st' :
  is_Some (info_of st key) →
  rec_mono (setInfo st key (VisitingInfo i m)) st' → rec_mono st st'.
Proof. intros Hkey Hm k Hk. by apply Hm, setInfo_visiting_is_Some. Qed.

Lemma getCycles_loop_answers visit key visitIdx budget :
  (∀ n st0, info_of st0 n = None → pending D st0 < budget →
     answers (visit n st0) (λ r, rec_mono st0 r.2)) →
  ∀ ns minIdx st, is_Some (info_of st key) → pending D st < budget →
    answers (dfsNeighbors visit key visitIdx ns minIdx st) (λ r, rec_mono st r.2).
Proof.
  intros Hvisit. induction ns as [|n ns IH]; intros minIdx st Hkey Hbud.
  { by intros k. }
  assert (∀ st0 i m, rec_mono st st0 → pending D st0 < budget →
            answers (dfsNeighbors visit key visitIdx ns m
                       (setInfo st0 key (VisitingInfo i m)))
                    (λ r, rec_mono st r.2)) as Hnext.
  { intros st0 i m Hm Hb.
    assert (is_Some (info_of st0 key)) as Hkey0 by (by apply Hm).
    pose proof (IH m (setInfo st0 key (VisitingInfo i m))) as Hrest.
    destruct (dfsNeighbors visit key visitIdx ns m _) as [[m' st']|e|]; simpl in *.
    - intros k Hk. eapply rec_mono_lower; [exact Hkey0| |by apply Hm].
      apply Hrest; [rewrite setInfo_info_eq; eauto|].
      eapply Nat.le_lt_trans; [|exact Hb]. apply pending_rec_mono.
      intros k'. by apply setInfo_visiting_is_Some.
    - apply Hrest; [rewrite setInfo_info_eq; eauto|].
      eapply Nat.le_lt_trans; [|exact Hb]. apply pending_rec_mono.
      intros k'. by apply setInfo_visiting_is_Some.
    - apply Hrest; [rewrite setInfo_info_eq; eauto|].
      eapply Nat.le_lt_trans; [|exact Hb]. apply pending_rec_mono.
      intros k'. by apply setInfo_visiting_is_Some. }
  cbn [dfsNeighbors]. destruct (decide (n = key)) as [->|Hne].
  { by apply (IH minIdx (mkState _ _ _ _)). }
  fold (info_of st n). destruct (info_of st n) as [[i nmin|nmin p]|] eqn:En.
  - apply (Hnext (mkState (mapNodeInfo st) (visitOrderedList st) (setSelfCycle st) true));
      [by intros k|done].
  - apply Hnext; [by intros k|done].
  - pose proof (Hvisit n st En Hbud) as Hn.
    destruct (visit n st) as [[info st1]|e|]; simpl in Hn; [|done|done].
    pose proof (pending_rec_mono _ _ Hn).
    pose proof (Hnext st1 visitIdx (Nat.min minIdx (minVisitIdx info)) Hn) as Hrest.
    apply Hrest. lia.
Qed.

Lemma getCycles_visit_answers fuel :
  ∀ key st, info_of st key = None → pending D st < fuel →
    answers (dfsVisit fuel D key st) (λ r, rec_mono st r.2).
Proof.
  induction fuel as [|fuel IH]; intros key st Hnone Hbud; [lia|].
  cbn [dfsVisit]. destruct (deps_lookup D key) as [ns|] eqn:Hns; [|done].
  set (visitIdx := length (visitOrderedList st)).
  set (st1 := mkState _ _ _ _).
  assert (info_of st1 key = Some (VisitingInfo visitIdx visitIdx)) as Hkey1
    by apply jsmap_get_set_eq.
  assert (∀ k, k ≠ key → info_of st1 k = info_of st k) as Hother1.
  { intros k Hk. apply jsmap_get_set_ne. congruence. }
  assert (rec_mono st st1) as Hm1.
  { intros k Hk. destruct (decide (k = key)) as [->|Hne]; [by rewrite Hkey1|].
    by rewrite Hother1. }
  assert (pending D st1 < pending D st) as Hlt.
  { apply (pending_lt D _ _ key).
    - intros k Hk. destruct (info_of st k) eqn:E; [|done].
      destruct (Hm1 k) as [? ?]; [by eauto|congruence].
    - by eapply deps_lookup_Some_key.
    - done.
    - by rewrite Hkey1. }
  pose proof (getCycles_loop_answers (dfsVisit fuel D) key visitIdx fuel IH ns visitIdx st1)
    as Hloop.
  destruct (dfsNeighbors _ key visitIdx ns visitIdx st1) as [[m st2]|e|]; simpl in *.
  - intros k Hk. assert (is_Some (info_of st2 k)) as Hk2.
    { apply Hloop; [by rewrite Hkey1|lia|by apply Hm1]. }
    destruct (decide (key = k)) as [<-|Hne].
    + rewrite setInfo_info_eq. eauto.
    + by rewrite setInfo_info_ne.
  - apply Hloop; [by rewrite Hkey1|lia].
  - apply Hloop; [by rewrite Hkey1|lia].
Qed.

Lemma getCycles_traversal_answers fuel ks :
  ∀ st, pending D st < fuel → answers (visitAll fuel D ks st) (λ _, True).
Proof.
  induction ks as [|k ks IH]; intros st Hbud; cbn [visitAll]; [done|].
  fold (info_of st k). destruct (info_of st k) eqn:Ek; [by apply IH|].
  pose proof (getCycles_visit_answers fuel k st Ek Hbud) as Hk.
  destruct (dfsVisit fuel D k st) as [[info st1]|e|]; simpl in Hk; [|done|done].
  apply IH. pose proof (pending_rec_mono _ _ Hk). lia.
Qed.

End DetailedDangling.

(** ** Outcomes of the two checks on an arbitrary mapping *)

Lemma anyCycilcDependencies_outcomes (D : DependenciesListRecord) :
  NoDup (keys D) →
  (Simple.anyCycilcDependencies D = Done false ↔ closed D ∧ acyclic D) ∧
  (∀ e, Simple.anyCycilcDependencies D = Throw e → e = TypeError ∧ ¬ closed D) ∧
  Simple.anyCycilcDependencies D ≠ OutOfFuel.
Proof.
  intros Hnd. pose proof (anyCycilcDependencies_answers D) as Hans. split_and!.
  - split.
    + intros Hrun.
      assert (closed D) as Hclosed.
      { apply edges_closed; [done|]. by apply anyCycilcDependencies_false_edges. }
      split; [done|]. intros Hcyc.
      destruct (anyCycilcDependencies_spec D Hclosed) as (b & Hb & Hiff).
      apply Hiff in Hcyc. congruence.
    + intros [Hclosed Hac].
      destruct (anyCycilcDependencies_spec D Hclosed) as (b & Hb & Hiff).
      destruct b; [|done]. exfalso. by apply Hac, Hiff.
  - intros e He. rewrite He in Hans. split; [done|]. intros Hclosed.
    destruct (anyCycilcDependencies_spec D Hclosed) as (b & Hb & _). congruence.
  - intros Hout. by rewrite Hout in Hans.
Qed.

Lemma getCycles_outcomes (D : DependenciesListRecord) :
  NoDup (keys D) →
  (closed D → ∃ cs, Detailed.getCycles D = Done cs) ∧
  (¬ closed D → Detailed.getCycles D = Throw TypeError).
Proof.
  intros Hnd. split.
  - intros Hclosed. destruct (getCycles_spec D Hclosed) as (cs & Hcs & _). eauto.
  - intros Hopen. unfold Detailed.getCycles.
    pose proof (getCycles_traversal_answers D (S (length D)) (keys D) Detailed.init)
      as Hans.
    destruct (Detailed.visitAll _ D (keys D) Detailed.init) as [st|e|] eqn:Hall.
    + exfalso. apply Hopen, edges_closed; [done|]. by eapply traversal_Done_edges.
    + rewrite Hans; [done|]. unfold pending.
      eapply Nat.le_lt_trans; [apply length_filter|].
      unfold keys. rewrite length_fmap. lia.
    + exfalso. apply Hans. unfold pending.
      eapply Nat.le_lt_trans; [apply length_filter|].
      unfold keys. rewrite length_fmap. lia.
Qed.

(** ** Agreement of the two checks, and what a validated injector guarantees *)

(** X1: on a mapping whose dependency names are all keys, the simple and the
    detailed check both return, and the simple check answers [true] exactly
    when the detailed check reports at least one cycle. *)
Theorem simple_and_detailed_agree (D : DependenciesListRecord) :
  closed D →
  ∃ b cs, Simple.anyCycilcDependencies D = Done b ∧
          Detailed.getCycles D = Done cs ∧
          (b = true ↔ cs ≠ []).
Proof.
  intros Hclosed.
  destruct (anyCycilcDependencies_spec D Hclosed) as (b & Hb & Hiff).
  destruct (getCycles_spec D Hclosed) as (cs & Hcs & Hiff').
  exists b, cs. split_and!; [done|done|]. by rewrite Hiff, Hiff'.
Qed.

Lemma simple_and_detailed_agree_witness :
  closed readme_example ∧
  ∃ b cs, Simple.anyCycilcDependencies readme_example = Done b ∧
          Detailed.getCycles readme_example = Done cs ∧
          (b = true ↔ cs ≠ []).
Proof.
  assert (closed readme_example) as H
    by (apply (bool_decide_unpack _); vm_compute; exact I).
  split; [exact H|]. exact (simple_and_detailed_agree readme_example H).
Defined.

(** The property names every object inherits from [Object.prototype].  For a
    name that is not a key, [dependencies[name]] and [finishedInjector[name]]
    are [undefined], as the model has it, unless the name is one of these. *)
Definition inheritedNames : list string :=
  ["constructor"; "__defineGetter__"; "__defineSetter__"; "hasOwnProperty";
   "__lookupGetter__"; "__lookupSetter__"; "isPrototypeOf"; "propertyIsEnumerable";
   "toString"; "valueOf"; "__proto__"; "toLocaleString"].

(** No dependency is called by an inherited name: the mappings on which the
    lookups of the model are those of the program also for names that are not
    keys. *)
Definition plain (D : DependenciesListRecord) : Prop :=
  Forall (λ kv, Forall (λ n, n ∉ inheritedNames) kv.2) D.

#[global] Instance plain_dec D : Decision (plain D).
Proof. unfold plain. apply _. Defined.

(** X2: when the keys are distinct and no dependency bears a name inherited
    from [Object.prototype], the simple check answers [false] exactly for the
    mappings in which every dependency name is a key and no member reaches
    itself, so a dependency that is not declared is never approved; the check
    ends on every such mapping, and the only thing it throws is the
    [TypeError] of a dependency name that is not a key. *)
Theorem simple_check_approves_iff (D : DependenciesListRecord) :
  NoDup (keys D) → plain D →
  (Simple.anyCycilcDependencies D = Done false ↔ closed D ∧ acyclic D) ∧
  (∀ e, Simple.anyCycilcDependencies D = Throw e → e = TypeError ∧ ¬ closed D) ∧
  Simple.anyCycilcDependencies D ≠ OutOfFuel.
Proof. intros Hnd _. by apply anyCycilcDependencies_outcomes. Qed.

Lemma simple_check_approves_iff_witness :
  (NoDup (keys pythagorean) ∧ plain pythagorean) ∧
  (Simple.anyCycilcDependencies pythagorean = Done false ↔
   closed pythagorean ∧ acyclic pythagorean) ∧
  (∀ e, Simple.anyCycilcDependencies pythagorean = Throw e →
        e = TypeError ∧ ¬ closed pythagorean) ∧
  Simple.anyCycilcDependencies pythagorean ≠ OutOfFuel.
Proof.
  assert (NoDup (keys pythagorean)) as H
    by (apply (bool_decide_unpack _); vm_compute; exact I).
  assert (plain pythagorean) as H'
    by (apply (bool_decide_unpack _); vm_compute; exact I).
  split; [exact (conj H H')|]. exact (simple_check_approves_iff pythagorean H H').
Defined.

(** A member that names a dependency nobody declares. *)
Definition dangling : DependenciesListRecord := [("a", ["b"]); ("b", ["zzz"])].

(** X3: when the keys are distinct and no dependency bears a name inherited
    from [Object.prototype], [getCycles] returns a list if every dependency
    name is a key, and throws a [TypeError] if some dependency name is not. *)
Theorem getCycles_throws_iff_undeclared (D : DependenciesListRecord) :
  NoDup (keys D) → plain D →
  (closed D → ∃ cs, Detailed.getCycles D = Done cs) ∧
  (¬ closed D → Detailed.getCycles D = Throw TypeError).
Proof. intros Hnd _. by apply getCycles_outcomes. Qed.

Lemma getCycles_throws_iff_undeclared_witness :
  (NoDup (keys dangling) ∧ plain dangling ∧ ¬ closed dangling) ∧
  (closed dangling → ∃ cs, Detailed.getCycles dangling = Done cs) ∧
  (¬ closed dangling → Detailed.getCycles dangling = Throw TypeError).
Proof.
  assert (NoDup (keys dangling)) as H
    by (apply (bool_decide_unpack _); vm_compute; exact I).
  assert (plain dangling) as Hp
    by (apply (bool_decide_unpack _); vm_compute; exact I).
  assert (¬ closed dangling) as H'
    by (apply (bool_decide_unpack _); vm_compute; exact I).
  split; [exact (conj H (conj Hp H'))|].
  exact (getCycles_throws_iff_undeclared dangling H Hp).
Defined.

Lemma makeInjectorFactory_outcomes {W : Type}
  (localeCompare : string → string → Z) (D : DependenciesListRecord)
  (mdl : gmap string (Provider W)) (opts : option DependencyInjectionOptions) :
  NoDup (keys D) → checkCyclesOption opts ≠ skip →
  ((∃ inj, makeInjectorFactory localeCompare D mdl opts = Done inj) ↔
   closed D ∧ acyclic D) ∧
  (∀ inj, makeInjectorFactory localeCompare D mdl opts = Done inj →
          inj = mkInjector D mdl opts (keys D)) ∧
  makeInjectorFactory localeCompare D mdl opts ≠ OutOfFuel.
Proof.
  intros Hnd Hmode.
  destruct (anyCycilcDependencies_outcomes D Hnd) as (Hsimple & _ & Hsfuel).
  destruct (getCycles_outcomes D Hnd) as [Hdet Hdet'].
  split_and!; [split| |].
  - intros [inj Hrun]. unfold makeInjectorFactory in Hrun.
    destruct (checkCyclesOption opts); [done| |].
    + apply Hsimple. by destruct (Simple.anyCycilcDependencies D) as [[]| |].
    + destruct (decide (closed D)) as [Hclosed|Hopen].
      2:{ by rewrite (Hdet' Hopen) in Hrun. }
      split; [done|]. intros Hcyc.
      destruct (getCycles_spec D Hclosed) as (cs & Hcs & Hiff).
      apply Hiff in Hcyc. rewrite Hcs in Hrun. by destruct cs.
  - intros [Hclosed Hac]. eexists. by apply factory_acyclic.
  - intros inj Hrun. unfold makeInjectorFactory in Hrun.
    destruct (checkCyclesOption opts); [done| |].
    + destruct (Simple.anyCycilcDependencies D) as [[]| |]; congruence.
    + destruct (Detailed.getCycles D) as [cs| |]; [|done|done].
      destruct (bool_decide _); congruence.
  - unfold makeInjectorFactory. destruct (checkCyclesOption opts); [done| |].
    + by destruct (Simple.anyCycilcDependencies D) as [[]| |].
    + destruct (decide (closed D)) as [Hclosed|Hopen].
      * destruct (Hdet Hclosed) as [cs ->]. by destruct (bool_decide _).
      * by rewrite (Hdet' Hopen).
Qed.

(** X4: with distinct keys, no dependency bearing a name inherited from
    [Object.prototype], and validation not skipped, the factory returns an
    injector exactly when every dependency name is a key and the mapping has
    no cycle; the injector returned is the one over that mapping, and
    creation never fails to end. *)
Theorem validated_creation_succeeds_iff {W : Type}
  (localeCompare : string → string → Z) (D : DependenciesListRecord)
  (mdl : gmap string (Provider W)) (opts : option DependencyInjectionOptions) :
  NoDup (keys D) → plain D → checkCyclesOption opts ≠ skip →
  ((∃ inj, makeInjectorFactory localeCompare D mdl opts = Done inj) ↔
   closed D ∧ acyclic D) ∧
  (∀ inj, makeInjectorFactory localeCompare D mdl opts = Done inj →
          inj = mkInjector D mdl opts (keys D)) ∧
  makeInjectorFactory localeCompare D mdl opts ≠ OutOfFuel.
Proof. intros Hnd _. by apply makeInjectorFactory_outcomes. Qed.

Lemma validated_creation_succeeds_iff_witness :
  (NoDup (keys pythagorean) ∧ plain pythagorean ∧ checkCyclesOption None ≠ skip) ∧
  ((∃ inj, makeInjectorFactory (W := unit) defaultCompare pythagorean ∅ None
           = Done inj) ↔
   closed pythagorean ∧ acyclic pythagorean) ∧
  (∀ inj, makeInjectorFactory (W := unit) defaultCompare pythagorean ∅ None = Done inj →
          inj = mkInjector pythagorean ∅ None (keys pythagorean)) ∧
  makeInjectorFactory (W := unit) defaultCompare pythagorean ∅ None ≠ OutOfFuel.
Proof.
  assert (NoDup (keys pythagorean)) as H
    by (apply (bool_decide_unpack _); vm_compute; exact I).
  assert (plain pythagorean) as Hp
    by (apply (bool_decide_unpack _); vm_compute; exact I).
  assert (checkCyclesOption None ≠ skip) as H' by (vm_compute; congruence).
  split; [exact (conj H (conj Hp H'))|].
  exact (validated_creation_succeeds_iff (W := unit) defaultCompare pythagorean ∅ None
           H Hp H').
Defined.

(** X5: an injector that the factory returned after validation (simple or
    detailed) on a mapping with distinct keys, no dependency of which bears a
    name inherited from [Object.prototype], answers every read: with a budget
    of one call per key the recursion of the accessor ends, in a value or in
    a throw, from any state of the store. *)
Theorem validated_injector_always_answers {W : Type}
  (localeCompare : string → string → Z) (D : DependenciesListRecord)
  (mdl : gmap string (Provider W)) (opts : option DependencyInjectionOptions)
  (inj : Injector W) (fuel : nat) (name : string) (st : State W) :
  NoDup (keys D) → plain D → checkCyclesOption opts ≠ skip →
  makeInjectorFactory localeCompare D mdl opts = Done inj →
  length D ≤ fuel →
  access inj fuel name st ≠ NoFuel.
Proof.
  intros Hnd _ Hmode Hrun Hfuel.
  destruct (makeInjectorFactory_outcomes localeCompare D mdl opts Hnd Hmode)
    as (Hiff & Hinj & _).
  rewrite (Hinj inj Hrun). destruct (proj1 Hiff) as [_ Hac]; [by eauto|].
  by apply access_total.
Qed.

Lemma validated_injector_always_answers_witness :
  access (mkInjector pythagorean pythagorean_module None (keys pythagorean)) 4
    "digest" (fresh tt) ≠ NoFuel.
Proof.
  apply (validated_injector_always_answers defaultCompare pythagorean
           pythagorean_module None).
  - apply (bool_decide_unpack _). vm_compute. exact I.
  - apply (bool_decide_unpack _). vm_compute. exact I.
  - vm_compute. congruence.
  - vm_compute. reflexivity.
  - simpl. lia.
Defined.

(** ** What the low-links of [getCycles] do guarantee *)

Section LowLink.
Import Detailed.
Context (D : DependenciesListRecord) (Hclosed : closed D).

(** The loop over the neighbours, one neighbour at a time. *)
Lemma dfsNeighbors_cons visit key visitIdx n ns minIdx st :
  dfsNeighbors visit key visitIdx (n :: ns) minIdx st =
  match dfsNeighbors visit key visitIdx [n] minIdx st with
  | Done (m1, st1) => dfsNeighbors visit key visitIdx ns m1 st1
  | Throw e => Throw e
  | OutOfFuel => OutOfFuel
  end.
Proof.
  cbn [dfsNeighbors]. destruct (decide (n = key)); [done|].
  destruct (JsMap.get (mapNodeInfo st) n) as [[]|]; [done|done|].
  by destruct (visit n st) as [[]| |].
Qed.

(** What holds whenever the loop of [dfsVisit key] is about to look at the
    next neighbour. *)
Record loop_pre (key : string) (visitIdx minIdx : nat) (st : State)
  (budget : nat) : Prop := {
  lq_info : info_of st key = Some (VisitingInfo visitIdx minIdx);
  lq_wf : wf st;
  lq_stack : ∀ v, visiting st v → v = key ∨ tc (edge D) v key;
  lq_bound : ∀ k i n, info_of st k = Some (VisitingInfo i n) → i ≤ visitIdx;
  lq_flag : flag_inv D st;
  lq_budget : pending D st ≤ budget
}.

Lemma loop_pre_step visit budget key visitIdx n minIdx st :
  dfs_ok D visit budget → edge D key n →
  loop_pre key visitIdx minIdx st budget →
  ∃ m1 st1, dfsNeighbors visit key visitIdx [n] minIdx st = Done (m1, st1) ∧
            loop_pre key visitIdx m1 st1 budget.
Proof.
  intros Hvisit Hn [Hkey Hwf Hstack Hbound Hflag Hbud].
  destruct (dfsNeighbors_ok D Hclosed visit budget key visitIdx Hvisit [n] minIdx st)
    as (m1 & st1 & Hrun & Hpost); try done.
  { by intros n' ->%list_elem_of_singleton. }
  exists m1, st1. split; [done|].
  destruct Hpost as [Hkey1 Hwf1 Hframe1 Hfresh1 Hflag1 _ _]. split; try done.
  - intros v (i & k & Hv). destruct (decide (v = key)) as [->|Hne]; [by left|].
    apply Hstack. exists i, k. by apply Hfresh1.
  - intros k i j Hk. destruct (decide (k = key)) as [->|Hne].
    + rewrite Hkey1 in Hk. by simplify_eq.
    + eapply Hbound. by apply Hfresh1.
  - etrans; [|exact Hbud]. apply pending_mono. intros k Hk.
    destruct (decide (k = key)) as [->|Hne]; [congruence|].
    destruct (info_of st k) eqn:E; [|done]. apply Hframe1 in E; [congruence|done].
Qed.

(** Facts about the finished nodes that hold throughout the traversal: the
    self-loops met are recorded; the low-link of a finished node is at most
    the index of each of its dependencies; and a finished node whose low-link
    is its own index reaches only nodes finished with a low-link at least as
    large. *)
Record low_inv (st : State) : Prop := {
  li_self : ∀ u, visited st u → edge D u u → u ∈ setSelfCycle st;
  li_selfnd : NoDup (setSelfCycle st);
  li_selfedge : ∀ u, u ∈ setSelfCycle st → edge D u u;
  li_next : ∀ u mu pu w, info_of st u = Some (VisitedInfo mu pu) →
    edge D u w → w ≠ u → ∃ iw, visitOrderedList st !! iw = Some w ∧ mu ≤ iw;
  li_root : ∀ v mv pv, info_of st v = Some (VisitedInfo mv pv) →
    visitOrderedList st !! mv = Some v →
    ∀ u, rtc (edge D) v u →
         ∃ mu pu, info_of st u = Some (VisitedInfo mu pu) ∧ mv ≤ mu
}.

(** A step that leaves the finished entries and the self-loops alone. *)
Lemma low_inv_same st st' :
  (∀ k m p, info_of st' k = Some (VisitedInfo m p) ↔
            info_of st k = Some (VisitedInfo m p)) →
  visitOrderedList st `prefix_of` visitOrderedList st' →
  setSelfCycle st' = setSelfCycle st →
  wf st → low_inv st → low_inv st'.
Proof.
  intros Hfin Hpre Hself Hwf [H1 H2 H3 H4 H5]. split.
  - intros u (m & p & Hu) He. rewrite Hself. apply H1; [|done].
    exists m, p. by apply Hfin.
  - by rewrite Hself.
  - intros u. rewrite Hself. apply H3.
  - intros u mu pu w Hu He Hne. apply Hfin in Hu.
    destruct (H4 _ _ _ _ Hu He Hne) as (iw & Hiw & Hle).
    exists iw. split; [by eapply prefix_lookup_Some|done].
  - intros v mv pv Hv Hmv u Hr. apply Hfin in Hv.
    destruct (wf_info st Hwf _ _ Hv) as (i & Hi & Hmin & _). simpl in Hmin.
    assert (visitOrderedList st !! mv = Some v) as Hmv'.
    { apply lookup_lt_Some in Hi.
      destruct (lookup_lt_is_Some_2 (visitOrderedList st) mv) as [x Hx]; [lia|].
      pose proof (prefix_lookup_Some _ _ _ _ Hx Hpre). congruence. }
    destruct (H5 _ _ _ Hv Hmv' u Hr) as (mu & pu & Hu & Hle).
    exists mu, pu. split; [by apply Hfin|done].
Qed.

Lemma setInfo_visiting_fin st key i m k m' p' :
  visiting st key →
  info_of (setInfo st key (VisitingInfo i m)) k = Some (VisitedInfo m' p') ↔
  info_of st k = Some (VisitedInfo m' p').
Proof.
  intros (i0 & m0 & Hkey). destruct (decide (key = k)) as [<-|Hne].
  - rewrite setInfo_info_eq, Hkey. split; congruence.
  - by rewrite setInfo_info_ne.
Qed.

(** What the loop of [dfsVisit key] has established after the neighbours
    [ns]: every node recorded since [key] was entered has a low-link at least
    the current minimum [m], and each neighbour seen is recorded at an index
    at least [m] (or, for [key] itself, as a self-loop). *)
Record low_loop (key : string) (visitIdx : nat) (ns : list string)
  (st : State) (m : nat) (st' : State) : Prop := {
  ll_inv : low_inv st';
  ll_prefix : visitOrderedList st `prefix_of` visitOrderedList st';
  ll_selfmono : setSelfCycle st ⊆ setSelfCycle st';
  ll_min : ∀ k info i, info_of st' k = Some info →
    visitOrderedList st' !! i = Some k → visitIdx ≤ i → m ≤ minVisitIdx info;
  ll_seen : ∀ n, n ∈ ns →
    if decide (n = key) then key ∈ setSelfCycle st'
    else ∃ i, visitOrderedList st' !! i = Some n ∧ m ≤ i
}.

Record low_post (st : State) (info : NodeInfo) (st' : State) : Prop := {
  lo_inv : low_inv st';
  lo_prefix : visitOrderedList st `prefix_of` visitOrderedList st';
  lo_selfmono : setSelfCycle st ⊆ setSelfCycle st';
  lo_min : ∀ k info' i, info_of st' k = Some info' →
    visitOrderedList st' !! i = Some k → length (visitOrderedList st) ≤ i →
    minVisitIdx info ≤ minVisitIdx info'
}.

Definition low_ok (visit : string → State → outcome (NodeInfo * State))
  (budget : nat) : Prop :=
  ∀ key st info st',
    visit key st = Done (info, st') →
    key ∈ keys D → info_of st key = None → wf st →
    (∀ v, visiting st v → tc (edge D) v key) →
    flag_inv D st → pending D st ≤ budget →
    low_inv st → low_post st info st'.

Lemma set_add_NoDup s x : NoDup s → NoDup (set_add s x).
Proof.
  intros Hnd. unfold set_add. case_decide; [done|].
  apply NoDup_app. split_and!; [done| |apply NoDup_singleton].
  by intros y Hy ->%list_elem_of_singleton.
Qed.

Lemma elem_of_set_add s x y : y ∈ set_add s x ↔ y ∈ s ∨ y = x.
Proof.
  unfold set_add. case_decide.
  - split; [by left|]. by intros [?| ->].
  - by rewrite elem_of_app, list_elem_of_singleton.
Qed.

Lemma low_step visit budget key visitIdx n minIdx st m1 st1 :
  dfs_ok D visit budget → low_ok visit budget →
  edge D key n → loop_pre key visitIdx minIdx st budget →
  dfsNeighbors visit key visitIdx [n] minIdx st = Done (m1, st1) →
  wf st1 →
  low_inv st →
  (∀ k info i, info_of st k = Some info →
     visitOrderedList st !! i = Some k → visitIdx ≤ i → minIdx ≤ minVisitIdx info) →
  low_loop key visitIdx [n] st m1 st1 ∧ m1 ≤ minIdx.
Proof.
  intros Hvisit Hlow Hn [Hkey Hwf Hstack Hbound Hflag Hbud] Hrun Hwf1 Hinv Hmin.
  assert (visiting st key) as Hvkey by (by exists visitIdx, minIdx).
  (* lowering the entry of [key] *)
  assert (∀ st0 m nidx,
            wf st0 → low_inv st0 → visiting st0 key → m ≤ minIdx →
            visitOrderedList st `prefix_of` visitOrderedList st0 →
            setSelfCycle st ⊆ setSelfCycle st0 →
            (∀ k info i, k ≠ key → info_of st0 k = Some info →
               visitOrderedList st0 !! i = Some k → visitIdx ≤ i →
               m ≤ minVisitIdx info) →
            visitOrderedList st0 !! nidx = Some n → m ≤ nidx → n ≠ key →
            low_loop key visitIdx [n] st m (setInfo st0 key (VisitingInfo visitIdx m)))
    as Hlower.
  { intros st0 m nidx Hwf0 Hinv0 Hk0 Hle Hpre Hsub Hmin0 Hnidx Hmn Hne. split.
    - apply (low_inv_same st0); try done.
      intros k m' p'. by apply setInfo_visiting_fin.
    - done.
    - done.
    - intros k info i Hk Hi Hvi. destruct (decide (key = k)) as [<-|Hnk].
      + rewrite setInfo_info_eq in Hk. by simplify_eq.
      + rewrite setInfo_info_ne in Hk by done.
        apply (Hmin0 k info i); [by intros ->|done|done|done].
    - intros n' ->%list_elem_of_singleton. rewrite decide_False by done.
      by exists nidx. }
  cbn [dfsNeighbors] in Hrun. destruct (decide (n = key)) as [->|Hne].
  { simplify_eq. split; [|done]. destruct Hinv as [H1 H2 H3 H4 H5]. split.
    - split; simpl.
      + intros u Hu He. apply elem_of_set_add. left. by apply H1.
      + by apply set_add_NoDup.
      + intros u [Hu| ->]%elem_of_set_add; [by apply H3|done].
      + done.
      + done.
    - done.
    - intros x Hx. simpl. apply elem_of_set_add. by left.
    - done.
    - intros n' ->%list_elem_of_singleton. rewrite decide_True by done.
      simpl. apply elem_of_set_add. by right. }
  fold (info_of st n) in Hrun. destruct (info_of st n) as [[i nmin|nmin p]|] eqn:En.
  - simplify_eq. destruct (wf_info st Hwf _ _ En) as (i' & Hi' & Hnmin & <-).
    simpl in Hnmin. split; [|lia].
    apply (Hlower (mkState (mapNodeInfo st) (visitOrderedList st) (setSelfCycle st) true)
             _ i); try done; try lia.
    + apply wf_flag; [done|apply Hwf].
    + by apply (low_inv_same st).
    + intros k info i0 Hk Hinfo Hi0 Hvi.
      etrans; [|by eapply (Hmin k info i0)]. lia.
  - simplify_eq. destruct (wf_info st Hwf _ _ En) as (i' & Hi' & Hnmin & _).
    simpl in Hnmin. split; [|lia].
    apply (Hlower st _ i'); try done; try lia.
    intros k info i0 Hk Hinfo Hi0 Hvi.
    etrans; [|by eapply (Hmin k info i0)]. lia.
  - destruct (visit n st) as [[info sta]|e|] eqn:Hcall; [|done|done]. simplify_eq.
    assert (n ∈ keys D) as Hnk by (by eapply closed_edge).
    assert (∀ v, visiting st v → tc (edge D) v n) as Hstack'.
    { intros v Hv. destruct (Hstack v Hv) as [->|Hreach].
      - by apply tc_once.
      - by eapply tc_r. }
    destruct (Hvisit n st) as (info' & sta' & Hcall' & Hp); try done.
    rewrite Hcall in Hcall'. simplify_eq.
    destruct Hp as [Hinfoa Hvisa Hwfa Hframea Hfresha Hflaga Hmonoa].
    destruct (Hlow _ _ _ _ Hcall) as [Hinva Hprea Hselfa Hmina]; try done.
    destruct (wf_info sta' Hwfa _ _ Hinfoa) as (i' & Hi' & Hnmin & _).
    split; [|lia].
    apply (Hlower sta' _ i'); try done; try lia.
    + destruct Hvkey as (i0 & m0 & Hk0). exists i0, m0. by apply Hframea.
    + intros k info0 i0 Hk Hinfo Hi0 Hvi.
      destruct (decide (i0 < length (visitOrderedList st))) as [Hlt|Hge].
      * destruct (lookup_lt_is_Some_2 (visitOrderedList st) i0) as [x Hx]; [done|].
        pose proof (prefix_lookup_Some _ _ _ _ Hx Hprea) as Hx'.
        assert (x = k) as -> by congruence.
        destruct (proj2 (wf_in_list st k Hwf)) as [info1 Hinfo1].
        { by eapply list_elem_of_lookup_2. }
        pose proof (Hframea _ _ Hinfo1) as Hsame. rewrite Hinfo in Hsame.
        simplify_eq. etrans; [|by eapply (Hmin k info1 i0)]. lia.
      * etrans; [|eapply (Hmina k info0 i0); [done|done|lia]]. lia.
Qed.

Lemma low_loop_ok visit budget key visitIdx :
  dfs_ok D visit budget → low_ok visit budget →
  ∀ ns minIdx st m st',
    (∀ n, n ∈ ns → edge D key n) →
    loop_pre key visitIdx minIdx st budget →
    dfsNeighbors visit key visitIdx ns minIdx st = Done (m, st') →
    low_inv st →
    (∀ k info i, info_of st k = Some info →
       visitOrderedList st !! i = Some k → visitIdx ≤ i → minIdx ≤ minVisitIdx info) →
    low_loop key visitIdx ns st m st' ∧ m ≤ minIdx ∧
    loop_pre key visitIdx m st' budget.
Proof.
  intros Hvisit Hlow. induction ns as [|n ns IH];
    intros minIdx st m st' Hedges Hpre Hrun Hinv Hmin.
  { simpl in Hrun. simplify_eq. split_and!; [|done|done].
    split; try done. by intros n ?%elem_of_nil. }
  assert (edge D key n) as Hn by (apply Hedges; left).
  rewrite dfsNeighbors_cons in Hrun.
  destruct (loop_pre_step visit budget key visitIdx n minIdx st Hvisit Hn Hpre)
    as (m1 & st1 & Hstep & Hpre1).
  rewrite Hstep in Hrun.
  destruct (low_step visit budget key visitIdx n minIdx st m1 st1)
    as [[Hinv1 Hprefix1 Hself1 Hmin1 Hseen1] Hle1]; try done.
  { apply Hpre1. }
  destruct (IH m1 st1 m st') as ([Hinv' Hprefix' Hself' Hmin' Hseen'] & Hle' & Hpre');
    try done.
  { intros n' Hn'. apply Hedges. by right. }
  split_and!; [|lia|done]. split; try done.
  - by etrans.
  - by etrans.
  - intros n' [->|Hn']%elem_of_cons; [|by apply Hseen'].
    specialize (Hseen1 n (list_elem_of_here _ _)).
    destruct (decide (n = key)); [by apply Hself'|].
    destruct Hseen1 as (i & Hi & Hmi). exists i. split; [|lia].
    by eapply prefix_lookup_Some.
Qed.

Lemma low_visit fuel : low_ok (dfsVisit fuel D) fuel.
Proof.
  induction fuel as [|fuel IH];
    intros key st info st' Hrun Hk Hnone Hwf Hstack Hflag Hbud Hinv; [done|].
  cbn [dfsVisit] in Hrun. destruct (deps_lookup D key) as [ns|] eqn:Hns; [|done].
  set (visitIdx := length (visitOrderedList st)) in *.
  set (st1 := mkState _ _ _ _) in Hrun.
  destruct (enter_ok D st key Hwf Hnone Hflag) as (Hkey1 & Hother1 & Hwf1 & Hflag1).
  fold visitIdx in Hkey1, Hother1, Hwf1, Hflag1. fold st1 in Hkey1, Hother1, Hwf1, Hflag1.
  destruct (dfsNeighbors _ key visitIdx ns visitIdx st1) as [[m st2]|e|] eqn:Hloop;
    [|done|done].
  simplify_eq.
  assert (loop_pre key visitIdx visitIdx st1 fuel) as Hpre1.
  { split; try done.
    - intros v (i & n & Hv). destruct (decide (v = key)) as [->|Hne]; [by left|].
      right. apply Hstack. exists i, n. by rewrite <- Hother1.
    - intros k i n Hki. destruct (decide (k = key)) as [->|Hne].
      + rewrite Hkey1 in Hki. by simplify_eq.
      + rewrite Hother1 in Hki by done.
        destruct (wf_info st Hwf _ _ Hki) as (i' & Hi' & _ & <-).
        apply lookup_lt_Some in Hi'. unfold visitIdx. lia.
    - assert (pending D st1 < pending D st); [|lia].
      apply (pending_lt D _ _ key); try done.
      + intros k Hkn. destruct (decide (k = key)) as [->|Hne]; [done|].
        by rewrite <- Hother1.
      + by rewrite Hkey1. }
  assert (visitOrderedList st `prefix_of` visitOrderedList st1) as Hprefix1
    by (by exists [key]).
  assert (low_inv st1) as Hinv1.
  { apply (low_inv_same st); try done.
    intros k m' p'. destruct (decide (k = key)) as [->|Hne].
    - rewrite Hkey1, Hnone. split; congruence.
    - by rewrite Hother1. }
  destruct (low_loop_ok (dfsVisit fuel D) fuel key visitIdx (dfsVisit_ok D Hclosed fuel) IH
              ns visitIdx st1 m st2)
    as ([Hinv2 Hprefix2 Hself2 Hmin2 Hseen2] & Hle2 & Hpre2); try done.
  { intros n Hn. by exists ns. }
  { intros k info i Hinfo Hi Hvi.
    assert (i = visitIdx) as ->.
    { apply lookup_lt_Some in Hi. simpl in Hi. rewrite length_app in Hi. simpl in Hi.
      unfold visitIdx in *. lia. }
    simpl in Hi. rewrite lookup_app_r in Hi by done.
    unfold visitIdx in Hi. rewrite Nat.sub_diag in Hi. simpl in Hi. by simplify_eq. }
  destruct Hpre2 as [Hkey2 Hwf2 Hstack2 Hbound2 Hflag2 Hbud2].
  destruct (wf_info st2 Hwf2 _ _ Hkey2) as (ik & Hik & Hmin & <-). simpl in Hmin.
  assert (visiting st2 key) as Hvkey2 by (by exists visitIdx, m).
  set (nodeInfo := VisitedInfo m (visitOrderedList st2 !! m)).
  (* entries of the nodes other than [key] *)
  assert (∀ k, k ≠ key → info_of (setInfo st2 key nodeInfo) k = info_of st2 k) as Hother.
  { intros k Hne. apply setInfo_info_ne. congruence. }
  (* a node recorded at or after [visitIdx] is finished in the end *)
  assert (∀ w i, visitOrderedList st2 !! i = Some w → visitIdx ≤ i →
            ∃ mw pw, info_of (setInfo st2 key nodeInfo) w = Some (VisitedInfo mw pw) ∧
                     m ≤ mw) as Hnew.
  { intros w i Hi Hvi. destruct (decide (w = key)) as [->|Hne].
    { exists m, (visitOrderedList st2 !! m). by rewrite setInfo_info_eq. }
    rewrite Hother by done.
    destruct (proj2 (wf_in_list st2 w Hwf2)) as [infow Hw].
    { by eapply list_elem_of_lookup_2. }
    pose proof (Hmin2 _ _ _ Hw Hi Hvi) as Hmw.
    destruct infow as [i' n'|mw pw]; [|by exists mw, pw].
    exfalso. pose proof (Hbound2 _ _ _ Hw) as Hb.
    destruct (wf_info st2 Hwf2 _ _ Hw) as (j & Hj & _ & <-).
    assert (i' = i) as -> by (eapply NoDup_lookup; [apply Hwf2|done|done]).
    assert (i = visitIdx) as -> by lia.
    rewrite Hik in Hi. congruence. }
  split.
  - destruct Hinv2 as [H1 H2 H3 H4 H5]. split.
    + intros u Hu He. apply visited_setInfo_visited in Hu as [->|[_ Hu]].
      * destruct He as (ns' & Hl & Hin). rewrite Hns in Hl. simplify_eq.
        specialize (Hseen2 key Hin). by rewrite decide_True in Hseen2.
      * by apply H1.
    + done.
    + done.
    + intros u mu pu w Hu He Hne. destruct (decide (u = key)) as [->|Hnk].
      * rewrite setInfo_info_eq in Hu. simplify_eq.
        destruct He as (ns' & Hl & Hin). rewrite Hns in Hl. simplify_eq.
        specialize (Hseen2 w Hin). by rewrite decide_False in Hseen2.
      * rewrite Hother in Hu by done. by eapply H4.
    + intros v mv pv Hv Hmv u Hr. destruct (decide (v = key)) as [->|Hnk].
      * rewrite setInfo_info_eq in Hv. simplify_eq.
        change (visitOrderedList st2 !! mv = Some key) in Hmv.
        assert (mv = visitIdx) as -> by (eapply NoDup_lookup; [apply Hwf2|done|done]).
        revert u Hr. apply rtc_ind_r.
        { exists visitIdx, (visitOrderedList st2 !! visitIdx).
          by rewrite setInfo_info_eq. }
        intros u w Hu Hw (mu & pu & Hinfou & Hmu).
        destruct (decide (w = u)) as [->|Hwu]; [by eauto|].
        assert (∃ iw, visitOrderedList st2 !! iw = Some w ∧ mu ≤ iw)
          as (iw & Hiw & Hle).
        { destruct (decide (u = key)) as [->|Hnu].
          - rewrite setInfo_info_eq in Hinfou. simplify_eq.
            destruct Hw as (ns' & Hl & Hin). rewrite Hns in Hl. simplify_eq.
            specialize (Hseen2 w Hin). by rewrite decide_False in Hseen2.
          - rewrite Hother in Hinfou by done. by eapply H4. }
        apply (Hnew w iw); [done|lia].
      * rewrite Hother in Hv by done.
        destruct (H5 _ _ _ Hv Hmv u Hr) as (mu & pu & Hu & Hle).
        exists mu, pu. split; [|done]. rewrite Hother; [done|].
        intros ->. rewrite Hkey2 in Hu. congruence.
  - by etrans.
  - done.
  - intros k info' i Hki Hi Hvi. destruct (decide (k = key)) as [->|Hnk].
    + rewrite setInfo_info_eq in Hki. by simplify_eq.
    + rewrite Hother in Hki by done. by eapply Hmin2.
Qed.

Lemma low_inv_init : low_inv init.
Proof.
  split.
  - intros u (m & p & Hu). done.
  - apply NoDup_nil_2.
  - by intros u ?%elem_of_nil.
  - intros u mu pu w Hu. done.
  - intros v mv pv Hv. done.
Qed.

Lemma low_all fuel ks :
  ∀ st st', visitAll fuel D ks st = Done st' →
    ks ⊆ keys D → wf st → (∀ v, ¬ visiting st v) → flag_inv D st →
    pending D st ≤ fuel → low_inv st → low_inv st'.
Proof.
  induction ks as [|k ks IH]; intros st st' Hrun Hks Hwf Hnone Hflag Hbud Hinv.
  { simpl in Hrun. by simplify_eq. }
  assert (k ∈ keys D) as Hk by (apply Hks; left).
  assert (ks ⊆ keys D) as Hks' by (intros x Hx; apply Hks; by right).
  cbn [visitAll] in Hrun. fold (info_of st k) in Hrun.
  destruct (info_of st k) as [info|] eqn:Ek; [by eapply IH|].
  destruct (dfsVisit fuel D k st) as [[info st1]|e|] eqn:Hcall; [|done|done].
  assert (∀ v, visiting st v → tc (edge D) v k) as Hstack.
  { intros v Hv. by apply Hnone in Hv. }
  destruct (dfsVisit_ok D Hclosed fuel k st) as (info' & st1' & Hcall' & Hp1); try done.
  rewrite Hcall in Hcall'. simplify_eq.
  destruct Hp1 as [Hinfo1 Hvis1 Hwf1 Hframe1 Hfresh1 Hflag1 Hmono1].
  destruct (low_visit fuel _ _ _ _ Hcall) as [Hinv1 _ _ _]; try done.
  eapply (IH st1' st'); try done.
  - intros v (i & n & Hv). apply (Hnone v). exists i, n. by apply Hfresh1.
  - pose proof (frame_pending D st st1' Hframe1). lia.
Qed.

End LowLink.
(** ** What the grouping of [getCycles] does guarantee *)

Lemma jsmap_set_NoDup {V : Type} (m : list (string * V)) k v :
  NoDup m.*1 → NoDup (JsMap.set m k v).*1.
Proof.
  intros Hnd. destruct (JsMap.get m k) eqn:E.
  - by rewrite jsmap_set_keys_old.
  - rewrite jsmap_set_new, fmap_app by done. apply NoDup_app.
    split_and!; [done| |apply NoDup_singleton].
    intros x Hx ->%list_elem_of_singleton. by apply jsmap_get_None in E.
Qed.

Lemma jsmap_set_push (comps : list (string * list string)) r x :
  mjoin (JsMap.set comps r (default [] (JsMap.get comps r) ++ [x])).*2
  ≡ₚ x :: mjoin comps.*2.
Proof.
  induction comps as [|[k w] comps IH]; [done|].
  cbn [JsMap.set JsMap.get]. destruct (decide (k = r)) as [->|Hne].
  - rewrite !fmap_cons. simpl. rewrite <- app_assoc. simpl.
    by rewrite <- Permutation_middle.
  - rewrite !fmap_cons. simpl. rewrite IH. by rewrite <- Permutation_middle.
Qed.

Lemma join_singletons {A : Type} (l : list A) : mjoin ((λ x, [x]) <$> l) = l.
Proof. induction l as [|x l IH]; [done|]. rewrite fmap_cons. simpl. by rewrite IH. Qed.

Lemma NoDup_join_filter {A : Type} (P : list A → Prop) `{!∀ l, Decision (P l)}
  (ls : list (list A)) :
  NoDup (mjoin ls) → NoDup (mjoin (filter P ls)).
Proof.
  induction ls as [|l ls IH]; [done|]. simpl.
  intros (Hl & Hdisj & Hls)%NoDup_app. rewrite filter_cons.
  destruct (decide (P l)); [|by apply IH]. simpl. apply NoDup_app.
  split_and!; [done| |by apply IH].
  intros x Hx Hin. apply (Hdisj x Hx).
  apply list_elem_of_join in Hin as (c & Hxc & Hc).
  apply list_elem_of_filter in Hc as [_ Hc]. apply list_elem_of_join. eauto.
Qed.

Lemma tc_last_step {A : Type} (R : relation A) x z :
  tc R x z → ∃ y, rtc R x y ∧ R y z.
Proof.
  induction 1 as [x z H|x y z H Ht (w & Hw & Hz)].
  - exists x. by split.
  - exists w. split; [by eapply rtc_l|done].
Qed.

Section Grouping.
Import Detailed.
Context (infos : list (string * NodeInfo)).
Context (Hnd : NoDup infos.*1).
Context (Hshape : ∀ done x info rest, infos = done ++ (x, info) :: rest →
  ∃ m p, info = VisitedInfo m p ∧ (p = Some x ∨ ∃ p', p = Some p' ∧ p' ∈ done.*1)).

(** The components partition the entries read so far, each component holds
    the nodes mapped to its root, and a node whose [cycleParent] is another
    node has the root of that node. *)
Record groups (done : list (string * NodeInfo)) (roots : gmap string string)
  (comps : list (string * list string)) : Prop := {
  gr_keys : NoDup comps.*1;
  gr_perm : mjoin comps.*2 ≡ₚ done.*1;
  gr_in : ∀ r comp x, JsMap.get comps r = Some comp → x ∈ comp → roots !! x = Some r;
  gr_parent : ∀ x m p, (x, VisitedInfo m (Some p)) ∈ done → p ≠ x →
                       roots !! x = roots !! p
}.

Lemma groups_nil : groups [] ∅ [].
Proof.
  split; [apply NoDup_nil_2|done|done|]. by intros x m p ?%elem_of_nil.
Qed.

(** The root [getComponentRoot] finds: the node itself, or the root already
    known for its [cycleParent]. *)
Lemma getComponentRoot_parent done x m p rest roots comps r :
  infos = done ++ (x, VisitedInfo m p) :: rest → cinv done roots comps →
  getComponentRoot (S (length infos)) infos roots x p = Done r →
  (p = Some x ∧ r = x) ∨ (∃ p', p = Some p' ∧ p' ≠ x ∧ roots !! p' = Some r).
Proof.
  intros Heq Hinv. destruct (infos_entry infos Hnd _ _ _ _ Heq) as [Hx Hget].
  cbn [getComponentRoot]. destruct (decide (p = Some x)) as [->|Hp].
  { intros [= <-]. by left. }
  assert (roots !! x = None) as ->.
  { apply eq_None_not_Some. intros Hs. by apply (ci_dom _ _ _ Hinv) in Hs. }
  destruct (Hshape _ _ _ _ Heq) as (m0 & p0 & Hinfo & Hcase).
  injection Hinfo as <- <-. destruct Hcase as [?|(p' & -> & Hp')]; [done|].
  assert (p' ≠ x) as Hne by congruence.
  pose proof Hp' as Hp'in.
  apply list_elem_of_fmap in Hp' as ([y info'] & Hy & Hin). simpl in Hy. subst y.
  pose proof (Hget _ _ Hin) as Hg.
  apply list_elem_of_split in Hin as (d1 & d2 & Hd).
  destruct (Hshape d1 p' info' (d2 ++ (x, VisitedInfo m (Some p')) :: rest))
    as (m' & pp & -> & _).
  { rewrite Heq, Hd. by rewrite <- app_assoc. }
  rewrite Hg.
  destruct (length infos) as [|n] eqn:Hlen.
  { rewrite Heq, length_app in Hlen. simpl in Hlen. lia. }
  cbn [getComponentRoot]. destruct (decide (pp = Some p')) as [->|Hpp].
  - intros [= <-]. right. exists p'. split_and!; [done|done|].
    apply (ci_self _ _ _ Hinv p' m'). rewrite Hd. apply elem_of_app. right. left.
  - apply (ci_dom _ _ _ Hinv) in Hp'in as [r' Hr']. rewrite Hr'.
    intros [= <-]. right. by exists p'.
Qed.

Lemma groups_step done x m p rest roots comps r :
  infos = done ++ (x, VisitedInfo m p) :: rest →
  cinv done roots comps → groups done roots comps →
  (p = Some x ∧ r = x) ∨ (∃ p', p = Some p' ∧ p' ≠ x ∧ roots !! p' = Some r) →
  groups (done ++ [(x, VisitedInfo m p)]) (<[x := r]> roots)
         (JsMap.set comps r (default [] (JsMap.get comps r) ++ [x])).
Proof.
  intros Heq Hinv [Hk Hperm Hin Hpar] Hr.
  destruct (infos_entry infos Hnd _ _ _ _ Heq) as [Hx Hget].
  assert (∀ y, is_Some (roots !! y) → y ≠ x) as Hfresh.
  { intros y Hy ->. by apply (ci_dom _ _ _ Hinv) in Hy. }
  split.
  - by apply jsmap_set_NoDup.
  - rewrite jsmap_set_push, fmap_app, Hperm. simpl.
    by rewrite <- Permutation_cons_append.
  - intros r' comp y Hc Hy. destruct (decide (r = r')) as [<-|Hne].
    + rewrite jsmap_get_set_eq in Hc. simplify_eq.
      apply elem_of_app in Hy as [Hy| ->%list_elem_of_singleton];
        [|by rewrite lookup_insert_eq].
      destruct (JsMap.get comps r) as [old|] eqn:Hold; [|by apply elem_of_nil in Hy].
      simpl in Hy. pose proof (Hin _ _ _ Hold Hy) as Hroot.
      rewrite lookup_insert_ne; [done|]. intros ->. by eapply Hfresh.
    + rewrite jsmap_get_set_ne in Hc by done. pose proof (Hin _ _ _ Hc Hy) as Hroot.
      rewrite lookup_insert_ne; [done|]. intros ->. by eapply Hfresh.
  - intros y m' p' [Hy|Hy%list_elem_of_singleton]%elem_of_app Hne.
    + assert (y ∈ done.*1) as Hyd.
      { apply list_elem_of_fmap. by exists (y, VisitedInfo m' (Some p')). }
      pose proof (Hpar _ _ _ Hy Hne) as Heqr.
      apply (ci_dom _ _ _ Hinv) in Hyd. rewrite !lookup_insert_ne; [done| |].
      * intros ->. eapply Hfresh; [|done]. by rewrite <- Heqr.
      * intros ->. by eapply Hfresh.
    + simplify_eq. rewrite lookup_insert_eq.
      destruct Hr as [[? _]|(p'' & ? & _ & Hr)]; simplify_eq.
      by rewrite lookup_insert_ne.
Qed.

Lemma collect_groups entries :
  ∀ done roots comps roots' comps',
    infos = done ++ entries → cinv done roots comps → groups done roots comps →
    collect infos entries roots comps = Done (roots', comps') →
    groups infos roots' comps'.
Proof.
  induction entries as [|[x info] rest IH];
    intros done roots comps roots' comps' Heq Hinv Hgr Hrun.
  { rewrite app_nil_r in Heq. subst done. simpl in Hrun. by simplify_eq. }
  destruct (Hshape _ _ _ _ Heq) as (m & p & -> & _).
  destruct (getComponentRoot_ok infos Hnd Hshape _ _ _ _ _ _ _ Heq Hinv)
    as (r & Hroot & Hr).
  pose proof (cinv_step infos Hnd Hshape _ _ _ _ _ _ _ r Heq Hinv Hr) as Hinv'.
  pose proof (getComponentRoot_parent _ _ _ _ _ _ _ _ Heq Hinv Hroot) as Hr'.
  pose proof (groups_step _ _ _ _ _ _ _ _ Heq Hinv Hgr Hr') as Hgr'.
  cbn [collect] in Hrun. rewrite Hroot in Hrun.
  apply (IH (done ++ [(x, VisitedInfo m p)]) (<[x := r]> roots)
            (JsMap.set comps r (default [] (JsMap.get comps r) ++ [x])));
    [by rewrite <- app_assoc|done|done|].
  by destruct (JsMap.get comps r).
Qed.

End Grouping.

Lemma concat_join {A : Type} (ls : list (list A)) : concat ls = mjoin ls.
Proof. induction ls as [|l ls IH]; [done|]. simpl. by rewrite IH. Qed.

#[global] Instance edge_dec D x y : Decision (edge D x y).
Proof.
  unfold edge. destruct (deps_lookup D x) as [ns|].
  - destruct (decide (y ∈ ns)) as [Hy|Hy].
    + left. by exists ns.
    + right. intros (ns' & Hl & Hin). by simplify_eq.
  - right. by intros (ns' & Hl & Hin).
Defined.

Section Report.
Import Detailed.
Context (D : DependenciesListRecord) (Hclosed : closed D).

(** The state in which the traversal ends and the grouping made from it. *)
Lemma getCycles_anatomy :
  ∃ st, wf st ∧ (∀ v, ¬ visiting st v) ∧ flag_inv D st ∧ low_inv D st ∧
        (∀ k, k ∈ keys D → visited st k) ∧
        (∀ k, is_Some (info_of st k) → k ∈ keys D) ∧
        if cycles st then
          ∃ roots comps,
            cinv (mapNodeInfo st) roots comps ∧ groups (mapNodeInfo st) roots comps ∧
            getCycles D =
            Done (((λ node, [node]) <$>
                     filter (λ node, isLoneSelfCycle roots comps node = true)
                            (setSelfCycle st)) ++
                  filter (λ l, 1 < length l) (comps.*2))
        else getCycles D = Done [].
Proof.
  assert (pending D init ≤ S (length D)) as Hbud.
  { unfold pending. etrans; [apply length_filter|].
    unfold keys. rewrite length_fmap. lia. }
  assert (∀ v, ¬ visiting init v) as Hnone0 by (intros v (i & n & Hv); done).
  destruct (visitAll_ok D Hclosed (S (length D)) (keys D) init)
    as (st & Hrun & [Hwf Hnone Hflag _ Hall]);
    [done|apply wf_init|done|apply flag_inv_init|done|].
  pose proof (low_all D Hclosed _ _ _ _ Hrun (reflexivity _) wf_init Hnone0
                (flag_inv_init D) Hbud (low_inv_init D)) as Hlow.
  destruct (visitAll_rec D _ _ _ _ Hrun) as ([Hk _] & _ & _ & _).
  { split; [intros k [? ?]|intros k w [? ?]]; done. }
  { done. }
  exists st. split_and!; try done.
  { intros k Hs. destruct (Hk k Hs) as [ns Hns]. by eapply deps_lookup_Some_key. }
  unfold getCycles. rewrite Hrun. destruct (cycles st) eqn:Hcyc; cbn [negb]; [|done].
  assert (NoDup (mapNodeInfo st).*1) as Hnd.
  { rewrite (wf_keys st Hwf). apply Hwf. }
  pose proof (final_shape st Hwf Hnone) as Hshape.
  destruct (collect_ok (mapNodeInfo st) Hnd Hshape (mapNodeInfo st) [] ∅ [])
    as (roots & comps & Hcol & Hinv); [done|apply cinv_nil|].
  pose proof (collect_groups (mapNodeInfo st) Hnd Hshape (mapNodeInfo st) [] ∅ []
                roots comps eq_refl cinv_nil groups_nil Hcol) as Hgr.
  exists roots, comps. by rewrite Hcol.
Qed.

Lemma getCycles_shape :
  ∃ cs, getCycles D = Done cs ∧
        NoDup (concat cs) ∧
        (∀ c, c ∈ cs → (∃ x, c = [x] ∧ edge D x x) ∨ 1 < length c) ∧
        (∀ c x, c ∈ cs → x ∈ c → x ∈ keys D).
Proof.
  destruct getCycles_anatomy as (st & Hwf & Hnone & Hflag & Hlow & Hall & Hkeys & Hrep).
  destruct (cycles st).
  2:{ exists []. split_and!; [done|apply NoDup_nil_2|by intros c ?%elem_of_nil|].
      by intros c x ?%elem_of_nil. }
  destruct Hrep as (roots & comps & Hinv & [Hk Hperm Hin Hpar] & Hrun).
  eexists. split; [exact Hrun|].
  set (lone := filter (λ node, isLoneSelfCycle roots comps node = true) (setSelfCycle st)).
  set (big := filter (λ l, 1 < length l) (comps.*2)).
  assert (NoDup (mapNodeInfo st).*1) as Hnd.
  { rewrite (wf_keys st Hwf). apply Hwf. }
  assert (∀ c, c ∈ big → 1 < length c ∧ ∃ r, JsMap.get comps r = Some c) as Hbig.
  { intros c [Hlen Hc]%list_elem_of_filter. split; [done|].
    apply list_elem_of_fmap in Hc as ([r c'] & -> & Hrc). exists r.
    by apply jsmap_elem_get. }
  assert (∀ x, x ∈ lone → x ∈ setSelfCycle st ∧ roots !! x = Some x ∧
            ∀ c, JsMap.get comps x = Some c → ¬ 1 < length c) as Hlone.
  { intros x [Hx Hself]%list_elem_of_filter. split; [done|].
    unfold isLoneSelfCycle in Hx. case_decide as Hr; [|done]. split; [done|].
    intros c Hc. rewrite Hc in Hx. apply negb_true_iff, bool_decide_eq_false in Hx.
    done. }
  split_and!.
  - rewrite concat_join, join_app, join_singletons. apply NoDup_app. split_and!.
    + apply NoDup_filter, Hlow.
    + intros x Hx (c & Hxc & Hc)%list_elem_of_join.
      destruct (Hlone x Hx) as (_ & Hroot & Hsmall).
      destruct (Hbig c Hc) as (Hlen & r & Hr).
      pose proof (Hin _ _ _ Hr Hxc) as Hroot'. rewrite Hroot in Hroot'.
      simplify_eq. by eapply Hsmall.
    + apply NoDup_join_filter. rewrite Hperm. done.
  - intros c [Hc|Hc]%elem_of_app.
    + apply list_elem_of_fmap in Hc as (x & -> & Hx). left. exists x. split; [done|].
      apply (li_selfedge D st Hlow). by apply Hlone.
    + right. by apply Hbig.
  - intros c x [Hc|Hc]%elem_of_app Hx.
    + apply list_elem_of_fmap in Hc as (y & -> & Hy).
      apply list_elem_of_singleton in Hx as ->.
      eapply edge_key. apply (li_selfedge D st Hlow). by apply Hlone.
    + apply Hkeys. apply wf_in_list; [done|]. rewrite <- (wf_keys st Hwf), <- Hperm.
      apply list_elem_of_join. exists c. split; [done|].
      by apply list_elem_of_filter in Hc as [_ Hc].
Qed.

Lemma getCycles_complete :
  ∃ cs, getCycles D = Done cs ∧ ∀ v, on_cycle D v → ∃ c, c ∈ cs ∧ v ∈ c.
Proof.
  destruct getCycles_anatomy as (st & Hwf & Hnone & Hflag & Hlow & Hall & Hkeys & Hrep).
  destruct (cycles st) eqn:Hcyc.
  2:{ exists []. split; [done|]. intros v Hv. exfalso.
      destruct (flag_off D st Hflag Hcyc) as [_ Hac].
      eapply Hac; [|exact Hv]. apply Hall. by eapply tc_edge_key. }
  destruct Hrep as (roots & comps & Hinv & [Hk Hperm Hin Hpar] & Hrun).
  eexists. split; [exact Hrun|]. intros v Hv.
  (* a component with two members is reported *)
  assert (∀ x r, roots !! x = Some r → r ≠ x →
            ∃ c, c ∈ filter (λ l, 1 < length l) (comps.*2) ∧ x ∈ c ∧ r ∈ c) as Hbig.
  { intros x r Hr Hne.
    destruct (ci_root _ _ _ Hinv _ _ Hr) as (_ & comp & Hc & Hxc & Hrc).
    exists comp. split_and!; [|done|done].
    apply list_elem_of_filter. split; [by apply (two_elements comp r x)|].
    by eapply jsmap_get_values. }
  assert (visited st v) as (mv & pv & Hinfo) by (by eapply Hall, tc_edge_key).
  assert ((v, VisitedInfo mv pv) ∈ mapNodeInfo st) as Hentry
    by (by apply jsmap_get_Some_elem).
  assert (v ∈ (mapNodeInfo st).*1) as Hvin.
  { apply list_elem_of_fmap. by exists (v, VisitedInfo mv pv). }
  apply (ci_dom _ _ _ Hinv) in Hvin as [r Hr].
  destruct (decide (r = v)) as [->|Hrv].
  2:{ destruct (Hbig v r Hr Hrv) as (c & Hc & Hvc & _). exists c. split; [|done].
      apply elem_of_app. by right. }
  pose proof (ci_fix _ _ _ Hinv _ _ _ Hr Hentry) as ->.
  destruct (wf_info st Hwf _ _ Hinfo) as (iv & Hiv & _ & Hparent).
  symmetry in Hparent.
  destruct (decide (edge D v v)) as [Hloop|Hnoloop].
  - (* a self-loop: alone, or inside a larger component *)
    assert (v ∈ setSelfCycle st) as Hself.
    { apply (li_self D st Hlow); [by exists mv, (Some v)|done]. }
    destruct (ci_root _ _ _ Hinv _ _ Hr) as (_ & comp & Hc & Hvc & _).
    destruct (decide (1 < length comp)) as [Hlen|Hlen].
    + exists comp. split; [|done]. apply elem_of_app. right.
      apply list_elem_of_filter. split; [done|]. by eapply jsmap_get_values.
    + exists [v]. split; [|left]. apply elem_of_app. left.
      apply list_elem_of_fmap. exists v. split; [done|].
      apply list_elem_of_filter. split; [|done].
      unfold isLoneSelfCycle. rewrite decide_True by done. rewrite Hc.
      by rewrite bool_decide_eq_false_2.
  - (* the member before [v] on the cycle has [v] as its [cycleParent] *)
    apply tc_last_step in Hv as (p & Hreach & Hpv).
    assert (p ≠ v) as Hne by (by intros ->).
    destruct (li_root D st Hlow _ _ _ Hinfo Hparent p Hreach) as (mp & pp & Hp & Hle).
    destruct (li_next D st Hlow _ _ _ v Hp Hpv) as (i & Hi & Hmp); [congruence|].
    assert (i = mv) as -> by (eapply NoDup_lookup; [apply Hwf|done|done]).
    assert (mp = mv) as -> by lia.
    destruct (wf_info st Hwf _ _ Hp) as (ip & Hip & _ & Hpp).
    rewrite Hparent in Hpp. subst pp.
    assert (roots !! p = Some v) as Hrp.
    { rewrite <- Hr. apply (Hpar p mv v); [by apply jsmap_get_Some_elem|congruence]. }
    destruct (Hbig p v Hrp) as (c & Hc & _ & Hvc); [congruence|].
    exists c. split; [|done]. apply elem_of_app. by right.
Qed.

End Report.

(** X6: on a mapping whose dependency names are all keys, the list returned
    by [getCycles] names no member twice, names only keys, and each of its
    entries is either a single member that depends on itself or a group of at
    least two members. *)
Theorem getCycles_lists_each_member_once (D : DependenciesListRecord) :
  closed D →
  ∃ cs, Detailed.getCycles D = Done cs ∧
        NoDup (concat cs) ∧
        (∀ c, c ∈ cs → (∃ x, c = [x] ∧ edge D x x) ∨ 1 < length c) ∧
        (∀ c x, c ∈ cs → x ∈ c → x ∈ keys D).
Proof. apply getCycles_shape. Qed.

Lemma getCycles_lists_each_member_once_witness :
  closed scc_example ∧
  ∃ cs, Detailed.getCycles scc_example = Done cs ∧
        NoDup (concat cs) ∧
        (∀ c, c ∈ cs → (∃ x, c = [x] ∧ edge scc_example x x) ∨ 1 < length c) ∧
        (∀ c x, c ∈ cs → x ∈ c → x ∈ keys scc_example).
Proof.
  assert (closed scc_example) as H
    by (apply (bool_decide_unpack _); vm_compute; exact I).
  split; [exact H|]. exact (getCycles_lists_each_member_once scc_example H).
Defined.

(** X7: on a mapping whose dependency names are all keys, every member that
    lies on a cycle (a self-loop included) occurs in the list returned by
    [getCycles]. *)
Theorem getCycles_reports_every_cycle_member (D : DependenciesListRecord) :
  closed D →
  ∃ cs, Detailed.getCycles D = Done cs ∧
        ∀ v, on_cycle D v → ∃ c, c ∈ cs ∧ v ∈ c.
Proof. apply getCycles_complete. Qed.

Lemma getCycles_reports_every_cycle_member_witness :
  closed readme_example ∧
  ∃ cs, Detailed.getCycles readme_example = Done cs ∧
        ∀ v, on_cycle readme_example v → ∃ c, c ∈ cs ∧ v ∈ c.
Proof.
  assert (closed readme_example) as H
    by (apply (bool_decide_unpack _); vm_compute; exact I).
  split; [exact H|]. exact (getCycles_reports_every_cycle_member readme_example H).
Defined.

(** ** More about the accessor *)

Lemma fromEntries_lookup (entries : list (string * value)) x v :
  fromEntries entries !! x = Some v → (x, v) ∈ entries.
Proof.
  unfold fromEntries.
  assert (∀ o : gmap string value,
            foldl (λ o kv, <[kv.1 := kv.2]> o) o entries !! x = Some v →
            (x, v) ∈ entries ∨ o !! x = Some v) as Hgen.
  { induction entries as [|[k u] entries IH]; intros o Hl; [by right|].
    simpl in Hl. destruct (IH _ Hl) as [Hin|Ho]; [left; by right|].
    destruct (decide (k = x)) as [->|Hne].
    - rewrite lookup_insert_eq in Ho. simplify_eq. left. left.
    - rewrite lookup_insert_ne in Ho by done. by right. }
  intros Hl. destruct (Hgen ∅ Hl) as [?|Ho]; [done|].
  by rewrite lookup_empty in Ho.
Qed.

Lemma fromEntries_dom (entries : list (string * value)) :
  dom (fromEntries entries) = list_to_set entries.*1.
Proof.
  unfold fromEntries.
  assert (∀ o : gmap string value,
            dom (foldl (λ o kv, <[kv.1 := kv.2]> o) o entries)
            = dom o ∪ list_to_set entries.*1) as Hgen.
  { induction entries as [|[k u] entries IH]; intros o.
    - simpl. by rewrite (right_id_L ∅ (∪)).
    - rewrite fmap_cons. simpl. rewrite IH, dom_insert_L.
      by rewrite (comm_L (∪) {[k]} (dom o)), (assoc_L (∪)). }
  by rewrite Hgen, dom_empty_L, (left_id_L ∅ (∪)).
Qed.

Section ResolverMore.
Import Injector.
Context {W : Type} (D : DependenciesListRecord) (mdl : gmap string (Provider W))
  (opts : option DependencyInjectionOptions).

Local Abbreviation inj := (mkInjector D mdl opts (keys D)).
Local Abbreviation cache := mapModuleObjects.
Implicit Types (st : State W).

(** *** Reading a member that lies on a cycle *)

(** No member on a cycle has a usable entry. *)
Definition cycle_unbuilt st : Prop :=
  ∀ c, on_cycle D c → hit (cache st !! c) = None.

(** An access that completes was not for a member on a cycle, and left the
    members on cycles without usable entries. *)
Definition off_cycle (name : string) (r : result W value) : Prop :=
  match r with
  | Ok _ st' => ¬ on_cycle D name ∧ cycle_unbuilt st'
  | _ => True
  end.

Lemma cycle_unbuilt_emit s st : cycle_unbuilt st → cycle_unbuilt (emit opts s st).
Proof. intros H c Hc. rewrite emit_cache. by apply H. Qed.

Lemma getDeps_off_cycle acc ns st :
  (∀ d st0, cycle_unbuilt st0 → off_cycle d (acc d st0)) → cycle_unbuilt st →
  match getDeps acc ns st with
  | Ok _ st1 => (∀ d, d ∈ ns → ¬ on_cycle D d) ∧ cycle_unbuilt st1
  | _ => True
  end.
Proof.
  intros Hacc. revert st. induction ns as [|d ns IH]; intros st Hst; cbn [getDeps].
  { split; [|done]. by intros d ?%elem_of_nil. }
  pose proof (Hacc d st Hst) as Hd.
  destruct (acc d st) as [v st1|e st1|]; [|done|done].
  destruct Hd as [Hd Hst1]. specialize (IH st1 Hst1).
  destruct (getDeps acc ns st1) as [entries st2|e st2|]; [|done|done].
  destruct IH as [Hns Hst2]. split; [|done].
  intros d' [->|Hd']%elem_of_cons; [done|by apply Hns].
Qed.

Lemma access_off_cycle fuel :
  ∀ name st, cycle_unbuilt st → off_cycle name (access inj fuel name st).
Proof.
  induction fuel as [|fuel IH]; intros name st Hst; cbn [access dependencies module options].
  - destruct (deps_lookup D name) as [ns|] eqn:Hns; [done|]. split; [|done].
    intros Hc. apply tc_edge_key, deps_lookup_key in Hc as [? ?]. congruence.
  - destruct (deps_lookup D name) as [ns|] eqn:Hns.
    2:{ split; [|done].
        intros Hc. apply tc_edge_key, deps_lookup_key in Hc as [? ?]. congruence. }
    rewrite get_unfold. destruct (hit (cache st !! name)) as [u|] eqn:Hhit.
    { split; [|by do 2 apply cycle_unbuilt_emit].
      intros Hc. apply Hst in Hc. congruence. }
    pose proof (getDeps_off_cycle (access inj fuel) ns
                  (emit opts (name +:+ " - constructing")
                     (emit opts (name +:+ " - get") st)) IH) as Hdeps.
    destruct (getDeps _ ns _) as [entries st1|e st1|]; [|done|done].
    destruct Hdeps as [Hns' Hst1]; [by do 2 apply cycle_unbuilt_emit|].
    destruct (mdl !! name) as [memberProvider|]; [|done].
    destruct (memberProvider _ _) as [[v|e] w]; [|done].
    assert (¬ on_cycle D name) as Hoff.
    { intros (d & (ns' & Hl & Hd) & Hback)%tc_first_step.
      rewrite Hns in Hl. simplify_eq. apply (Hns' d Hd).
      unfold on_cycle. eapply tc_rtc_l; [exact Hback|]. apply tc_once. by exists ns'. }
    split; [done|]. apply cycle_unbuilt_emit. intros c Hc. simpl.
    rewrite lookup_insert_ne; [by apply Hst1|]. by intros ->.
Qed.

(** Every member has a provider, and providers return normally. *)
Definition providers_return : Prop :=
  ∀ m, m ∈ keys D →
    ∃ memberProvider, mdl !! m = Some memberProvider ∧
      ∀ args w, ∃ v w', memberProvider args w = (Normal v, w').

Lemma getDeps_no_raise acc ns st :
  (∀ d st0 e st1, acc d st0 ≠ Raise e st1) →
  ∀ e st1, getDeps acc ns st ≠ Raise e st1.
Proof.
  intros Hacc. revert st. induction ns as [|d ns IH]; intros st e st1; cbn [getDeps];
    [done|].
  pose proof (Hacc d st) as Hd.
  destruct (acc d st) as [v sta|e' sta|]; [|by destruct (Hd e' sta)|done].
  pose proof (IH sta) as Hrest.
  destruct (getDeps acc ns sta) as [entries stb|e' stb|]; [done| |done].
  by destruct (Hrest e' stb).
Qed.

Lemma access_no_raise fuel :
  providers_return → ∀ name st e st', access inj fuel name st ≠ Raise e st'.
Proof.
  intros Hret. induction fuel as [|fuel IH]; intros name st e st';
    cbn [access dependencies module options];
    (destruct (deps_lookup D name) as [ns|] eqn:Hns; [|done]); [done|].
  rewrite get_unfold. destruct (hit (cache st !! name)); [done|].
  pose proof (getDeps_no_raise (access inj fuel) ns
                (emit opts (name +:+ " - constructing")
                   (emit opts (name +:+ " - get") st)) IH) as Hdeps.
  destruct (getDeps _ ns _) as [entries st1|e1 st1|]; [|by destruct (Hdeps e1 st1)|done].
  destruct (Hret name) as (memberProvider & Hp & Hnormal);
    [by eapply deps_lookup_Some_key|].
  unfold Provider in *. rewrite Hp.
  destruct (Hnormal (fromEntries entries) (world st1)) as (v & w' & ->). done.
Qed.

Lemma access_on_cycle fuel m st :
  on_cycle D m → cycle_unbuilt st →
  (∀ v st', access inj fuel m st ≠ Ok v st') ∧
  (providers_return → access inj fuel m st = NoFuel).
Proof.
  intros Hm Hst. pose proof (access_off_cycle fuel m st Hst) as Hoff.
  assert (∀ v st', access inj fuel m st ≠ Ok v st') as Hnever.
  { intros v st' Hrun. rewrite Hrun in Hoff. by destruct Hoff. }
  split; [done|]. intros Hret.
  pose proof (access_no_raise fuel Hret m st) as Hnr.
  destruct (access inj fuel m st) as [v st'|e st'|]; [|by destruct (Hnr e st')|done].
  by destruct (Hnever v st').
Qed.

(** *** The object handed to a provider *)

(** The argument object of an [Invoke] has exactly the declared dependency
    names as keys, and holds [undefined] under a name that is not a member. *)
Definition args_declared (ev : event) : Prop :=
  ∀ m args, ev = Invoke m args →
    ∃ ns, deps_lookup D m = Some ns ∧ dom args = list_to_set ns ∧
          ∀ x, x ∈ ns → x ∉ keys D → args !! x = Some VUndefined.

Definition invokes_declared st (r : result W value) : Prop :=
  match r with
  | Ok _ st' | Raise _ st' =>
      ∃ new, trace st' = trace st ++ new ∧ Forall args_declared new
  | NoFuel => True
  end.

Lemma args_declared_emitted s : Forall args_declared (emitted opts s).
Proof.
  unfold emitted. destruct opts as [o|]; [|constructor].
  destruct (log o); repeat constructor. by intros m args.
Qed.

Lemma getDeps_declared acc ns st :
  (∀ d st0, invokes_declared st0 (acc d st0)) →
  (∀ d st0 v st1, d ∉ keys D → acc d st0 = Ok v st1 → v = VUndefined) →
  match getDeps acc ns st with
  | Ok entries st1 =>
      (∃ new, trace st1 = trace st ++ new ∧ Forall args_declared new) ∧
      entries.*1 = ns ∧
      ∀ x v, (x, v) ∈ entries → x ∉ keys D → v = VUndefined
  | Raise _ st1 => ∃ new, trace st1 = trace st ++ new ∧ Forall args_declared new
  | NoFuel => True
  end.
Proof.
  intros Hacc Hundef. revert st. induction ns as [|d ns IH]; intros st; cbn [getDeps].
  { split_and!; [|done|by intros x v ?%elem_of_nil].
    exists []. by rewrite app_nil_r. }
  pose proof (Hacc d st) as Hd. pose proof (Hundef d st) as Hu.
  destruct (acc d st) as [v sta|e sta|]; [|done|done].
  destruct Hd as (new1 & Ht1 & Hall1). specialize (IH sta).
  destruct (getDeps acc ns sta) as [entries stb|e stb|]; [| |done].
  - destruct IH as ((new2 & Ht2 & Hall2) & Hfst & Hval). split_and!.
    + exists (new1 ++ new2). split; [by rewrite Ht2, Ht1, app_assoc|].
      by apply Forall_app.
    + by rewrite fmap_cons, Hfst.
    + intros x u [Heq|Hin]%elem_of_cons Hx; [|by eapply Hval].
      simplify_eq. by eapply Hu.
  - destruct IH as (new2 & Ht2 & Hall2).
    exists (new1 ++ new2). split; [by rewrite Ht2, Ht1, app_assoc|].
    by apply Forall_app.
Qed.

Lemma access_undefined fuel d st v st1 :
  d ∉ keys D → access inj fuel d st = Ok v st1 → v = VUndefined.
Proof.
  intros Hd. assert (deps_lookup D d = None) as Hnone.
  { destruct (deps_lookup D d) eqn:E; [|done].
    by apply deps_lookup_Some_key in E. }
  destruct fuel; cbn [access dependencies]; rewrite Hnone; congruence.
Qed.

Lemma access_declared fuel :
  ∀ name st, invokes_declared st (access inj fuel name st).
Proof.
  induction fuel as [|fuel IH]; intros name st;
    cbn [access dependencies module options];
    (destruct (deps_lookup D name) as [ns|] eqn:Hns;
      [|exists []; by rewrite app_nil_r]); [done|].
  rewrite get_unfold. destruct (hit (cache st !! name)) as [u|].
  { exists (emitted opts (name +:+ " - get") ++
            emitted opts (name +:+ " - already constructed")).
    split; [by rewrite !emit_trace, app_assoc|].
    apply Forall_app; split; apply args_declared_emitted. }
  set (stc := emit opts (name +:+ " - constructing")
                (emit opts (name +:+ " - get") st)).
  assert (trace stc = trace st ++ (emitted opts (name +:+ " - get") ++
                                   emitted opts (name +:+ " - constructing"))) as Htc.
  { unfold stc. by rewrite !emit_trace, app_assoc. }
  assert (Forall args_declared (emitted opts (name +:+ " - get") ++
                                emitted opts (name +:+ " - constructing"))) as Hc
    by (apply Forall_app; split; apply args_declared_emitted).
  pose proof (getDeps_declared (access inj fuel) ns stc IH
                (λ d st0 v st1, access_undefined fuel d st0 v st1)) as Hdeps.
  destruct (getDeps _ ns _) as [entries st1|e st1|]; [| |done].
  2:{ destruct Hdeps as (new & Ht & Hall). eexists. rewrite Ht, Htc, <- app_assoc.
      split; [done|]. by apply Forall_app. }
  destruct Hdeps as ((new & Ht & Hall) & Hfst & Hval).
  destruct (mdl !! name) as [memberProvider|].
  2:{ eexists. rewrite Ht, Htc, <- app_assoc. split; [done|]. by apply Forall_app. }
  assert (args_declared (Invoke name (fromEntries entries))) as Hinvoke.
  { intros m args [= <- <-]. exists ns. split_and!; [done| |].
    - by rewrite fromEntries_dom, Hfst.
    - intros x Hx Hnk.
      assert (is_Some (fromEntries entries !! x)) as [v Hv].
      { apply elem_of_dom. rewrite fromEntries_dom, Hfst. by apply elem_of_list_to_set. }
      rewrite Hv. f_equal. eapply Hval; [|done]. by apply fromEntries_lookup. }
  destruct (memberProvider _ _) as [[v|e] w]; simpl.
  - eexists. rewrite emit_trace. simpl. rewrite Ht, Htc.
    split; [by rewrite <- !app_assoc|].
    apply Forall_app in Hc as [Hc1 Hc2]. rewrite !Forall_app.
    split_and!; [done|done|done| |apply args_declared_emitted].
    repeat constructor; [done|by intros m args].
  - eexists. rewrite Ht, Htc.
    split; [by rewrite <- !app_assoc|].
    apply Forall_app in Hc as [Hc1 Hc2]. rewrite !Forall_app.
    split_and!; [done|done|done|].
    repeat constructor; [done|by intros m args].
Qed.

(** *** A member that has a usable entry *)

(** The entry of [m] and the number of times its provider was entered. *)
Definition settled (m : string) (u : value) (n : nat) st : Prop :=
  cache st !! m = Some u ∧ invocations m (trace st) = n.

Lemma settled_emit m u n s st : settled m u n st → settled m u n (emit opts s st).
Proof. intros [Hc Hn]. split; [by rewrite emit_cache|by rewrite invocations_emit]. Qed.

Lemma getDeps_settled acc ns m u n st :
  (∀ d st0, settled m u n st0 →
     match acc d st0 with
     | Ok _ st1 | Raise _ st1 => settled m u n st1
     | NoFuel => True
     end) →
  settled m u n st →
  match getDeps acc ns st with
  | Ok _ st1 | Raise _ st1 => settled m u n st1
  | NoFuel => True
  end.
Proof.
  intros Hacc. revert st. induction ns as [|d ns IH]; intros st Hst; cbn [getDeps];
    [done|].
  pose proof (Hacc d st Hst) as Hd.
  destruct (acc d st) as [v sta|e sta|]; [|done|done].
  specialize (IH sta Hd). by destruct (getDeps acc ns sta).
Qed.

Lemma access_settled fuel m u n :
  neq_undefined u = true →
  ∀ name st, settled m u n st →
    match access inj fuel name st with
    | Ok v st' => settled m u n st' ∧ (name = m → name ∈ keys D → v = u)
    | Raise _ st' => settled m u n st'
    | NoFuel => True
    end.
Proof.
  intros Hu. induction fuel as [|fuel IH]; intros name st Hst;
    cbn [access dependencies module options];
    (destruct (deps_lookup D name) as [ns|] eqn:Hns;
      [|split; [done|]; intros _ Hk; apply deps_lookup_key in Hk as [? ?]; congruence]);
    [done|].
  rewrite get_unfold. destruct (hit (cache st !! name)) as [u'|] eqn:Hhit.
  { split; [by do 2 apply settled_emit|]. intros -> _.
    destruct Hst as [Hc _]. apply hit_Some in Hhit as [Hc' _]. congruence. }
  assert (name ≠ m) as Hne.
  { intros ->. destruct Hst as [Hc _]. rewrite Hc in Hhit. simpl in Hhit.
    by rewrite Hu in Hhit. }
  pose proof (getDeps_settled (access inj fuel) ns m u n
                (emit opts (name +:+ " - constructing")
                   (emit opts (name +:+ " - get") st))) as Hdeps.
  destruct (getDeps _ ns _) as [entries st1|e st1|]; [| |done].
  2:{ apply Hdeps; [|by do 2 apply settled_emit].
      intros d st0 Hst0. specialize (IH d st0 Hst0).
      destruct (access inj fuel d st0); [by destruct IH|done|done]. }
  assert (settled m u n st1) as [Hc1 Hn1].
  { apply Hdeps; [|by do 2 apply settled_emit].
    intros d st0 Hst0. specialize (IH d st0 Hst0).
    destruct (access inj fuel d st0); [by destruct IH|done|done]. }
  destruct (mdl !! name) as [memberProvider|]; [|done].
  assert (∀ ev, invocations m (trace st1 ++ [Invoke name (fromEntries entries); ev])
                = n + (if is_invoke m ev then 1 else 0)) as Hcount.
  { intros ev.
    change [Invoke name (fromEntries entries); ev]
      with ([Invoke name (fromEntries entries)] ++ [ev]).
    rewrite app_assoc, !invocations_snoc, Hn1. simpl.
    rewrite bool_decide_eq_false_2 by done. lia. }
  destruct (memberProvider _ _) as [[v|e] w]; simpl.
  - split; [|done]. apply settled_emit. split; simpl.
    + by rewrite lookup_insert_ne.
    + rewrite Hcount. simpl. lia.
  - split; simpl; [done|]. rewrite Hcount. simpl. lia.
Qed.

Lemma accesses_settled fuel m u n :
  neq_undefined u = true → m ∈ keys D →
  ∀ names st, settled m u n st →
    match accesses inj fuel names st with
    | Ok vs st' =>
        settled m u n st' ∧ ∀ i, names !! i = Some m → vs !! i = Some u
    | Raise _ st' => settled m u n st'
    | NoFuel => True
    end.
Proof.
  intros Hu Hm. induction names as [|name names IH]; intros st Hst; cbn [accesses].
  { split; [done|]. by intros i. }
  pose proof (access_settled fuel m u n Hu name st Hst) as Hname.
  destruct (access inj fuel name st) as [v sta|e sta|]; [|done|done].
  destruct Hname as [Hsta Hv]. specialize (IH sta Hsta).
  destruct (accesses inj fuel names sta) as [vs stb|e stb|]; [|done|done].
  destruct IH as [Hstb Hvs]. split; [done|].
  intros [|i] Hi; simpl in *; [|by apply Hvs].
  simplify_eq. f_equal. by apply Hv.
Qed.

End ResolverMore.

(** X8: on an injector created without validation, reading a member that
    lies on a cycle never returns a value as long as no member on a cycle has
    a usable cache entry (as in a fresh injector); when every member has a
    provider and providers return normally, the recursion does not end,
    whatever budget it is given. *)
Theorem access_on_cycle_never_returns {W : Type}
  (D : DependenciesListRecord) (mdl : gmap string (Provider W))
  (opts : option DependencyInjectionOptions)
  (fuel : nat) (m : string) (st : State W) :
  on_cycle D m →
  (∀ c, on_cycle D c → hit (mapModuleObjects st !! c) = None) →
  (∀ v st', access (mkInjector D mdl opts (keys D)) fuel m st ≠ Ok v st') ∧
  (providers_return D mdl →
   access (mkInjector D mdl opts (keys D)) fuel m st = NoFuel).
Proof. apply access_on_cycle. Qed.

Definition two_way_module : gmap string (Provider unit) :=
  list_to_map [("a", constant 1); ("b", constant 2)].

Lemma access_on_cycle_never_returns_witness :
  (on_cycle two_way "a" ∧
   (∀ c, on_cycle two_way c → hit (mapModuleObjects (fresh tt) !! c) = None) ∧
   providers_return two_way two_way_module) ∧
  (∀ v st', access (mkInjector two_way two_way_module None (keys two_way)) 7 "a"
              (fresh tt) ≠ Ok v st') ∧
  (providers_return two_way two_way_module →
   access (mkInjector two_way two_way_module None (keys two_way)) 7 "a" (fresh tt)
   = NoFuel).
Proof.
  assert (on_cycle two_way "a") as H1.
  { eapply tc_l; [|apply tc_once]; by eexists; split; [reflexivity|left]. }
  assert (∀ c, on_cycle two_way c → hit (mapModuleObjects (fresh tt) !! c) = None)
    as H2 by done.
  assert (providers_return two_way two_way_module) as H3.
  { intros m [->|[->|?%elem_of_nil]%elem_of_cons]%elem_of_cons; [| |done].
    - exists (constant 1). split; [done|]. intros args w. by exists (VNum 1), w.
    - exists (constant 2). split; [done|]. intros args w. by exists (VNum 2), w. }
  split; [exact (conj H1 (conj H2 H3))|].
  exact (access_on_cycle_never_returns two_way two_way_module None 7 "a" (fresh tt)
           H1 H2).
Defined.

(** X9: whenever a provider is entered, the object it receives has exactly
    the names declared for its member as keys, and holds [undefined] under
    every declared name that is neither a member nor a name inherited from
    [Object.prototype]; this holds for every access, from any state, on any
    mapping. *)
Theorem provider_receives_declared_dependencies {W : Type}
  (D : DependenciesListRecord) (mdl : gmap string (Provider W))
  (opts : option DependencyInjectionOptions)
  (fuel : nat) (name : string) (st : State W) :
  match access (mkInjector D mdl opts (keys D)) fuel name st with
  | Ok _ st' | Raise _ st' =>
      ∃ new, trace st' = trace st ++ new ∧
        ∀ m args, Invoke m args ∈ new →
          ∃ ns, deps_lookup D m = Some ns ∧ dom args = list_to_set ns ∧
                ∀ x, x ∈ ns → x ∉ keys D → x ∉ inheritedNames →
                     args !! x = Some VUndefined
  | NoFuel => True
  end.
Proof.
  pose proof (access_declared D mdl opts fuel name st) as H.
  destruct (access _ fuel name st) as [v st'|e st'|]; [| |done];
    destruct H as (new & Ht & Hall); exists new; (split; [done|]);
    intros m args Hin; rewrite Forall_forall in Hall;
    destruct (Hall _ Hin m args eq_refl) as (ns & Hns & Hdom & Hundef);
    exists ns; split_and!; auto.
Qed.

(** X10: once a member has an entry that is neither [null] nor [undefined],
    no sequence of accesses changes that entry or enters the provider of that
    member again, and every access of the member in the sequence returns the
    stored value; this holds for any providers and any mapping. *)
Theorem cached_member_is_final {W : Type}
  (D : DependenciesListRecord) (mdl : gmap string (Provider W))
  (opts : option DependencyInjectionOptions)
  (fuel : nat) (names : list string) (m : string) (u : value) (st : State W) :
  m ∈ keys D → mapModuleObjects st !! m = Some u → neq_undefined u = true →
  match accesses (mkInjector D mdl opts (keys D)) fuel names st with
  | Ok vs st' =>
      mapModuleObjects st' !! m = Some u ∧
      invocations m (trace st') = invocations m (trace st) ∧
      ∀ i, names !! i = Some m → vs !! i = Some u
  | Raise _ st' =>
      mapModuleObjects st' !! m = Some u ∧
      invocations m (trace st') = invocations m (trace st)
  | NoFuel => True
  end.
Proof.
  intros Hm Hc Hu.
  pose proof (accesses_settled D mdl opts fuel m u (invocations m (trace st)) Hu Hm
                names st (conj Hc eq_refl)) as H.
  destruct (accesses _ fuel names st) as [vs st'|e st'|]; [| |done].
  - by destruct H as [[? ?] ?].
  - by destruct H.
Qed.

Lemma cached_member_is_final_witness :
  let inj := mkInjector pythagorean pythagorean_module None (keys pythagorean) in
  let st := mkState {["a" := VNum 3]} tt [Invoke "a" ∅; Returned "a" (VNum 3)] in
  match accesses inj 4 ["digest"; "a"] st with
  | Ok vs st' =>
      mapModuleObjects st' !! "a" = Some (VNum 3) ∧
      invocations "a" (trace st') = invocations "a" (trace st) ∧
      ∀ i, ["digest"; "a"] !! i = Some "a" → vs !! i = Some (VNum 3)
  | Raise _ st' =>
      mapModuleObjects st' !! "a" = Some (VNum 3) ∧
      invocations "a" (trace st') = invocations "a" (trace st)
  | NoFuel => True
  end.
Proof.
  apply (cached_member_is_final pythagorean pythagorean_module None 4
           ["digest"; "a"] "a" (VNum 3)
           (mkState {["a" := VNum 3]} tt [Invoke "a" ∅; Returned "a" (VNum 3)])).
  - apply (bool_decide_unpack _). vm_compute. exact I.
  - reflexivity.
  - reflexivity.
Defined.

(** ** Values that do not count as cached *)

#[global] Instance value_eq_dec : EqDecision value.
Proof. solve_decision. Defined.

Section Reconstruction.
Import Injector.
Context {W : Type} (D : DependenciesListRecord) (mdl : gmap string (Provider W))
  (opts : option DependencyInjectionOptions).

Local Abbreviation inj := (mkInjector D mdl opts (keys D)).
Local Abbreviation cache := mapModuleObjects.
Implicit Types (st : State W).










Context (Hacyclic : acyclic D).



Context (Hreturn : providers_return D mdl).

(** What an access does when the entry of the member is not usable. *)
Lemma access_rebuilds fuel m ns st :
  deps_lookup D m = Some ns → hit (cache st !! m) = None → length D ≤ S fuel →
  ∃ entries st1 memberProvider v' w',
    resolved_in_order (access inj fuel) ns
      (emit opts (m +:+ " - constructing") (emit opts (m +:+ " - get") st))
      entries st1 ∧
    entries.*1 = ns ∧
    (∃ mid, trace st1 =
            trace (emit opts (m +:+ " - constructing")
                     (emit opts (m +:+ " - get") st)) ++ mid) ∧
    invocations m (trace st1) = invocations m (trace st) ∧
    mdl !! m = Some memberProvider ∧
    memberProvider (fromEntries entries) (world st1) = (Normal v', w') ∧
    access inj (S fuel) m st =
      Ok v' (emit opts (m +:+ " - constructed")
               (mkState (<[m := v']> (cache st1)) w'
                  (trace st1 ++ [Invoke m (fromEntries entries); Returned m v']))).
Proof.
  intros Hns Hmiss Hfuel.
  pose proof (access_total D mdl opts Hacyclic (S fuel) m st Hfuel) as Htotal.
  pose proof (access_no_raise D mdl opts (S fuel) Hreturn m st) as Hnr.
  cbn [access dependencies module options] in Htotal, Hnr |- *.
  rewrite Hns in Htotal, Hnr |- *. rewrite get_unfold in Htotal, Hnr |- *.
  rewrite Hmiss in Htotal, Hnr |- *.
  set (st0 := emit opts (m +:+ " - constructing") (emit opts (m +:+ " - get") st)) in *.
  pose proof (deps_keep_entry D mdl opts Hacyclic fuel m ns st0 Hns) as Hkeep.
  pose proof (getDeps_effects D (access inj fuel) ns st0
                (λ d st0 _, access_effects D mdl opts Hacyclic fuel d st0)) as Heff.
  destruct (getDeps (access inj fuel) ns st0) as [entries st1|e st1|] eqn:Hrun;
    [|by destruct (Hnr e st1)|done].
  destruct Hkeep as [_ Hkeep]. destruct Heff as (mid & Hmid & _).
  apply getDeps_Ok in Hrun.
  destruct (resolved_cached D mdl opts Hacyclic fuel ns st0 entries st1 Hrun)
    as (Hfst & _ & _).
  destruct (Hreturn m) as (memberProvider & Hp & Hnormal);
    [by eapply deps_lookup_Some_key|].
  unfold Provider in *. rewrite Hp.
  destruct (Hnormal (fromEntries entries) (world st1)) as (v' & w' & Hcall).
  rewrite Hcall. exists entries, st1, memberProvider, v', w'.
  split_and!; try done; [by exists mid|].
  rewrite Hkeep. unfold st0. by rewrite !invocations_emit.
Qed.

(** Reading again and again a member whose provider only returns [null] or
    [undefined]. *)
Lemma accesses_rebuild fuel m n :
  m ∈ keys D →
  (∀ memberProvider args w u w',
     mdl !! m = Some memberProvider → memberProvider args w = (Normal u, w') →
     neq_undefined u = false) →
  length D ≤ fuel →
  ∀ st, hit (cache st !! m) = None →
    ∃ vs st', accesses inj fuel (replicate n m) st = Ok vs st' ∧
              length vs = n ∧
              Forall (λ u, neq_undefined u = false) vs ∧
              invocations m (trace st') = invocations m (trace st) + n.
Proof.
  intros Hm Hnull Hfuel. destruct (deps_lookup_key D m Hm) as [ns Hns].
  assert (∃ fuel', fuel = S fuel') as [fuel' ->].
  { destruct fuel as [|fuel']; [|by eexists]. destruct D; [|simpl in Hfuel; lia].
    by apply elem_of_nil in Hm. }
  induction n as [|n IH]; intros st Hmiss; cbn [replicate accesses].
  { exists [], st. split_and!; [done|done|constructor|lia]. }
  destruct (access_rebuilds fuel' m ns st Hns Hmiss Hfuel)
    as (entries & st1 & memberProvider & v' & w' & _ & _ & _ & Hinv & Hp & Hcall & Hrun).
  rewrite Hrun.
  set (st2 := emit opts (m +:+ " - constructed") _) in *.
  assert (neq_undefined v' = false) as Hv' by (by eapply Hnull).
  assert (hit (cache st2 !! m) = None) as Hmiss2.
  { unfold st2. rewrite emit_cache. simpl. rewrite lookup_insert_eq. simpl.
    by rewrite Hv'. }
  assert (invocations m (trace st2) = S (invocations m (trace st))) as Hinv2.
  { unfold st2. rewrite invocations_emit. simpl.
    rewrite invocations_app, invocations_construct by done.
    rewrite bool_decide_eq_true_2 by done. lia. }
  destruct (IH st2 Hmiss2) as (vs & st' & -> & Hlen & Hall & Hcount).
  exists (v' :: vs), st'. split_and!; [done|by simpl; f_equal|by constructor|lia].
Qed.

End Reconstruction.






(** X18: on an acyclic mapping whose providers return normally, a member
    whose provider only ever returns [null] or [undefined] is built again by
    every read: [n] reads in a row, from a store without a usable entry for
    it, return [n] such values and enter its provider [n] times. *)
Theorem nullish_member_is_rebuilt_by_every_read {W : Type}
  (D : DependenciesListRecord) (mdl : gmap string (Provider W))
  (opts : option DependencyInjectionOptions)
  (fuel : nat) (m : string) (n : nat) (st : State W) :
  acyclic D → providers_return D mdl → m ∈ keys D →
  (∀ memberProvider args w u w',
     mdl !! m = Some memberProvider → memberProvider args w = (Normal u, w') →
     neq_undefined u = false) →
  hit (mapModuleObjects st !! m) = None → length D ≤ fuel →
  ∃ vs st', accesses (mkInjector D mdl opts (keys D)) fuel (replicate n m) st
            = Ok vs st' ∧
            length vs = n ∧
            Forall (λ u, neq_undefined u = false) vs ∧
            invocations m (trace st') = invocations m (trace st) + n.
Proof.
  intros Hac Hret Hm Hnull Hmiss Hfuel.
  by apply accesses_rebuild.
Qed.

(** The Pythagorean mapping with a [c] that forgets to return its value. *)
Definition forgetful_module : gmap string (Provider unit) :=
  list_to_map
    [("a", constant 3); ("b", constant 4);
     ("c", λ _ w, (Normal VUndefined, w));
     ("digest", λ args w, (Normal (VNum (number (args !! "c"))), w))].

Lemma nullish_member_is_rebuilt_by_every_read_witness :
  ∃ vs st', accesses (mkInjector pythagorean forgetful_module None (keys pythagorean))
              4 (replicate 3 "c") (fresh tt) = Ok vs st' ∧
            length vs = 3 ∧
            Forall (λ u, neq_undefined u = false) vs ∧
            invocations "c" (trace st') = invocations "c" (trace (fresh tt)) + 3.
Proof.
  apply (nullish_member_is_rebuilt_by_every_read pythagorean forgetful_module None
           4 "c" 3 (fresh tt)).
  - exact pythagorean_acyclic.
  - intros m Hm. repeat (apply elem_of_cons in Hm as [->|Hm]);
      [| | | |by apply elem_of_nil in Hm];
      (eexists; split; [reflexivity|]; intros args w; by eexists _, _).
  - apply (bool_decide_unpack _). vm_compute. exact I.
  - intros memberProvider args w u w' Hp Hcall.
    assert (forgetful_module !! "c" = Some (λ _ w, (Normal VUndefined, w))) as Hc
      by reflexivity.
    rewrite Hc in Hp. injection Hp as <-. by injection Hcall as <- _.
  - reflexivity.
  - simpl. lia.
Defined.

(** ** The text of a [CyclicDependencyError] *)

(** [this.name], set by the constructor. *)
Definition errorName : string := "CyclicDependencyError".

Definition newline : string := String (Ascii.ascii_of_nat 10) EmptyString.

(** [toString()]: the name and the message, followed by one line per cycle
    when the error carries a list of cycles (an empty list included). *)
Definition toString (err : CyclicDependencyError) : string :=
  match cycles err with
  | Some cs =>
      errorName +:+ ": " +:+ message err +:+ newline +:+ "Cycles: [" +:+ newline +:+
      String.concat newline
        ((λ cycle, "    [" +:+ String.concat ", " cycle +:+ "]") <$> cs) +:+
      newline +:+ "]"
  | None => errorName +:+ ": " +:+ message err
  end.

(** *** Code-unit order is a total order *)

Lemma string_compare_trans a :
  ∀ b c, String.compare a b ≠ Gt → String.compare b c ≠ Gt → String.compare a c ≠ Gt.
Proof.
  induction a as [|x a IH]; intros [|y b] [|z c]; simpl; try done.
  unfold Ascii.compare.
  destruct (N.compare_spec (Ascii.N_of_ascii x) (Ascii.N_of_ascii y)) as [Hxy|Hxy|Hxy];
    destruct (N.compare_spec (Ascii.N_of_ascii y) (Ascii.N_of_ascii z)) as [Hyz|Hyz|Hyz];
    destruct (N.compare_spec (Ascii.N_of_ascii x) (Ascii.N_of_ascii z)) as [Hxz|Hxz|Hxz];
    try done; try lia.
  apply IH.
Qed.

Lemma defaultCompare_le a b : (defaultCompare a b ≤ 0)%Z ↔ String.compare a b ≠ Gt.
Proof. unfold defaultCompare. destruct (String.compare a b); split; (done || lia). Qed.

Lemma defaultCompare_trans a b c :
  (defaultCompare a b ≤ 0)%Z → (defaultCompare b c ≤ 0)%Z → (defaultCompare a c ≤ 0)%Z.
Proof. rewrite !defaultCompare_le. apply string_compare_trans. Qed.

Lemma defaultCompare_antisym a b :
  (defaultCompare a b ≤ 0)%Z → (defaultCompare b a ≤ 0)%Z → a = b.
Proof.
  rewrite !defaultCompare_le, (String.compare_antisym a b).
  destruct (String.compare b a) eqn:E; simpl; try done.
  intros _ _. symmetry. by apply String.compare_eq_iff.
Qed.

(** *** Sorting does not depend on the order of the input *)

Section SortCanonical.
Context {A : Type} (cmp : A → A → Z).
Hypothesis cmp_total : ∀ x y, (cmp x y ≤ 0)%Z ∨ (cmp y x ≤ 0)%Z.
Hypothesis cmp_trans : ∀ x y z, (cmp x y ≤ 0)%Z → (cmp y z ≤ 0)%Z → (cmp x z ≤ 0)%Z.

Lemma sortBy_canonical (l1 l2 : list A) :
  (∀ x y, x ∈ l1 → y ∈ l1 → (cmp x y ≤ 0)%Z → (cmp y x ≤ 0)%Z → x = y) →
  l1 ≡ₚ l2 → sortBy cmp l1 = sortBy cmp l2.
Proof.
  intros Hanti Hperm.
  assert (Transitive (λ a b, (cmp a b ≤ 0)%Z)) as Htrans
    by (intros x y z; apply cmp_trans).
  apply (Sorted_unique_strong (λ a b, (cmp a b ≤ 0)%Z)).
  - intros x y Hx Hy. rewrite sortBy_perm in Hx, Hy. rewrite <- Hperm in Hy.
    by apply Hanti.
  - by apply sortBy_sorted.
  - by apply sortBy_sorted.
  - by rewrite !sortBy_perm.
Qed.

End SortCanonical.

(** *** Joined names identify a cycle when no name contains a comma *)

(** The character [,]. *)
Definition comma : Ascii.ascii :=
  Ascii.Ascii false false true true false true false false.

Fixpoint has_comma (s : string) : bool :=
  match s with
  | EmptyString => false
  | String c s' => if Ascii.eqb c comma then true else has_comma s'
  end.

Lemma append_nil_l s : "" +:+ s = s.
Proof. done. Qed.

Lemma append_cons c s t : String c s +:+ t = String c (s +:+ t).
Proof. done. Qed.

Lemma append_comma_inj x :
  ∀ y r1 r2, has_comma x = false → has_comma y = false →
    x +:+ String comma r1 = y +:+ String comma r2 → x = y ∧ r1 = r2.
Proof.
  induction x as [|c x IH]; intros [|d y] r1 r2 Hx Hy Heq;
    rewrite ?append_nil_l, ?append_cons in Heq; simpl in Hx, Hy.
  - by simplify_eq.
  - by simplify_eq; try rewrite Ascii.eqb_refl in Hy.
  - by simplify_eq; try rewrite Ascii.eqb_refl in Hx.
  - injection Heq as <- Heq.
    destruct (Ascii.eqb c comma); [done|].
    destruct (IH _ _ _ Hx Hy Heq) as [-> ->]. done.
Qed.

Lemma join_inj (a : list string) :
  ∀ b, Forall (λ s, has_comma s = false) a → Forall (λ s, has_comma s = false) b →
    length a = length b → join a = join b → a = b.
Proof.
  unfold join. induction a as [|x a IH]; intros [|y b] Ha Hb Hlen Heq; try done.
  apply Forall_cons in Ha as [Hx Ha]. apply Forall_cons in Hb as [Hy Hb].
  destruct a as [|x' a], b as [|y' b]; try done.
  - simpl in Heq. by subst.
  - change (x +:+ String comma (String.concat "," (x' :: a)) =
            y +:+ String comma (String.concat "," (y' :: b))) in Heq.
    destruct (append_comma_inj _ _ _ _ Hx Hy Heq) as [-> Hrest].
    f_equal. apply IH; try done. simpl in *. lia.
Qed.

Section Canonical.
Variable localeCompare : string → string → Z.
Hypothesis lc_total : ∀ a b, (localeCompare a b ≤ 0)%Z ∨ (localeCompare b a ≤ 0)%Z.
Hypothesis lc_trans : ∀ a b c,
  (localeCompare a b ≤ 0)%Z → (localeCompare b c ≤ 0)%Z → (localeCompare a c ≤ 0)%Z.
Hypothesis lc_antisym : ∀ a b,
  (localeCompare a b ≤ 0)%Z → (localeCompare b a ≤ 0)%Z → a = b.

Lemma compareCycles_total a b :
  (compareCycles localeCompare a b ≤ 0)%Z ∨ (compareCycles localeCompare b a ≤ 0)%Z.
Proof.
  unfold compareCycles. destruct (lc_total (join a) (join b)); repeat case_decide; lia.
Qed.

Lemma compareCycles_trans a b c :
  (compareCycles localeCompare a b ≤ 0)%Z → (compareCycles localeCompare b c ≤ 0)%Z →
  (compareCycles localeCompare a c ≤ 0)%Z.
Proof.
  unfold compareCycles. repeat case_decide; try lia.
  intros Hab Hbc. by eapply lc_trans.
Qed.

Lemma compareCycles_antisym a b :
  Forall (λ s, has_comma s = false) a → Forall (λ s, has_comma s = false) b →
  (compareCycles localeCompare a b ≤ 0)%Z → (compareCycles localeCompare b a ≤ 0)%Z →
  a = b.
Proof.
  intros Ha Hb. unfold compareCycles. repeat case_decide; try lia.
  intros Hab Hba. apply join_inj; try done; [lia|]. by apply lc_antisym.
Qed.

(** The same cycles, as sets of names, in any order. *)
Definition same_cycles (cs1 cs2 : list (list string)) : Prop :=
  ∃ cs', Forall2 (≡ₚ) cs1 cs' ∧ cs' ≡ₚ cs2.

Lemma normalizeCycles_canonical cs1 cs2 :
  Forall (Forall (λ s, has_comma s = false)) cs1 →
  same_cycles cs1 cs2 →
  normalizeCycles localeCompare cs1 = normalizeCycles localeCompare cs2.
Proof.
  intros Hgood (cs' & Hall & Hperm). unfold normalizeCycles.
  assert (sortBy defaultCompare <$> cs1 = sortBy defaultCompare <$> cs') as Hinner.
  { clear Hperm Hgood. induction Hall as [|c1 c' cs1 cs' Hc _ IH]; [done|].
    rewrite !fmap_cons, IH. f_equal.
    apply sortBy_canonical;
      [apply defaultCompare_total|apply defaultCompare_trans| |done].
    intros x y _ _. apply defaultCompare_antisym. }
  apply sortBy_canonical.
  - apply compareCycles_total.
  - apply compareCycles_trans.
  - intros a b Ha Hb. apply compareCycles_antisym.
    + apply list_elem_of_fmap in Ha as (c & -> & Hc). rewrite sortBy_perm.
      rewrite Forall_forall in Hgood. by apply Hgood.
    + apply list_elem_of_fmap in Hb as (c & -> & Hc). rewrite sortBy_perm.
      rewrite Forall_forall in Hgood. by apply Hgood.
  - rewrite Hinner. by apply fmap_Permutation.
Qed.

End Canonical.

(** X11: for a comparison [localeCompare] that orders any two strings one
    way or the other, the list kept by [new CyclicDependencyError(message,
    cycles)] holds the same cycles as the list given, the names of each in
    code-unit order and the cycles by size, then by their joined names; an
    error made without a list keeps none. *)
Theorem error_keeps_cycles_normalized (localeCompare : string → string → Z)
  (msg : string) (cs : list (list string)) :
  (∀ a b, (localeCompare a b ≤ 0)%Z ∨ (localeCompare b a ≤ 0)%Z) →
  (∃ l, cycles (newCyclicDependencyError localeCompare msg (Some cs)) = Some l ∧
        normalized localeCompare cs l) ∧
  cycles (newCyclicDependencyError localeCompare msg None) = None ∧
  message (newCyclicDependencyError localeCompare msg (Some cs)) = msg.
Proof.
  intros Htotal. split_and!; [|done|done].
  exists (normalizeCycles localeCompare cs). split; [done|].
  by apply normalizeCycles_normalized.
Qed.

Lemma error_keeps_cycles_normalized_witness :
  (∃ l, cycles (newCyclicDependencyError defaultCompare "m"
                  (Some [["c"; "a"; "b"]; ["e"]])) = Some l ∧
        normalized defaultCompare [["c"; "a"; "b"]; ["e"]] l) ∧
  cycles (newCyclicDependencyError defaultCompare "m" None) = None ∧
  message (newCyclicDependencyError defaultCompare "m"
             (Some [["c"; "a"; "b"]; ["e"]])) = "m".
Proof.
  exact (error_keeps_cycles_normalized defaultCompare "m" [["c"; "a"; "b"]; ["e"]]
           defaultCompare_total).
Defined.

(** X12: when [localeCompare] is a total order and no name contains a comma,
    two errors made with the same message from lists that hold the same
    cycles, whatever the order of the cycles and of the names inside them,
    are equal and print the same text. *)
Theorem error_text_ignores_order (localeCompare : string → string → Z)
  (msg : string) (cs1 cs2 : list (list string)) :
  (∀ a b, (localeCompare a b ≤ 0)%Z ∨ (localeCompare b a ≤ 0)%Z) →
  (∀ a b c, (localeCompare a b ≤ 0)%Z → (localeCompare b c ≤ 0)%Z →
            (localeCompare a c ≤ 0)%Z) →
  (∀ a b, (localeCompare a b ≤ 0)%Z → (localeCompare b a ≤ 0)%Z → a = b) →
  Forall (Forall (λ s, has_comma s = false)) cs1 →
  same_cycles cs1 cs2 →
  newCyclicDependencyError localeCompare msg (Some cs1) =
  newCyclicDependencyError localeCompare msg (Some cs2) ∧
  toString (newCyclicDependencyError localeCompare msg (Some cs1)) =
  toString (newCyclicDependencyError localeCompare msg (Some cs2)).
Proof.
  intros Htotal Htrans Hanti Hgood Hsame.
  assert (newCyclicDependencyError localeCompare msg (Some cs1) =
          newCyclicDependencyError localeCompare msg (Some cs2)) as Heq.
  { unfold newCyclicDependencyError. simpl. do 2 f_equal.
    by apply normalizeCycles_canonical. }
  split; [done|]. by rewrite Heq.
Qed.

Lemma error_text_ignores_order_witness :
  newCyclicDependencyError defaultCompare "m" (Some [["b"; "a"]; ["c"]]) =
  newCyclicDependencyError defaultCompare "m" (Some [["c"]; ["a"; "b"]]) ∧
  toString (newCyclicDependencyError defaultCompare "m" (Some [["b"; "a"]; ["c"]])) =
  toString (newCyclicDependencyError defaultCompare "m" (Some [["c"]; ["a"; "b"]])).
Proof.
  apply (error_text_ignores_order defaultCompare "m" [["b"; "a"]; ["c"]]
           [["c"]; ["a"; "b"]]).
  - exact defaultCompare_total.
  - exact defaultCompare_trans.
  - exact defaultCompare_antisym.
  - repeat constructor.
  - exists [["a"; "b"]; ["c"]]. split.
    + constructor; [apply perm_swap|]. by constructor.
    + apply perm_swap.
Defined.

(** ** What the error thrown at creation tells *)

Lemma normalizeCycles_members localeCompare cs :
  mjoin (normalizeCycles localeCompare cs) ≡ₚ mjoin cs ∧
  ∀ c v, c ∈ cs → v ∈ c →
         ∃ c', c' ∈ normalizeCycles localeCompare cs ∧ v ∈ c'.
Proof.
  unfold normalizeCycles. split.
  - rewrite sortBy_perm. induction cs as [|c cs IH]; [done|].
    rewrite fmap_cons. simpl. by rewrite sortBy_perm, IH.
  - intros c v Hc Hv. exists (sortBy defaultCompare c). split.
    + rewrite (sortBy_perm (compareCycles localeCompare)).
      apply list_elem_of_fmap. by exists c.
    + by rewrite sortBy_perm.
Qed.

(** X17: on a mapping with a cycle whose dependency names are all keys, the
    error thrown under ['simple'] prints exactly its name and the standard
    message, and the error thrown under ['detailed'] carries a list in which
    every member that lies on a cycle occurs, no member occurs twice, and
    only keys occur. *)
Theorem creation_error_names_cycle_members {W : Type}
  (localeCompare : string → string → Z) (D : DependenciesListRecord)
  (mdl : gmap string (Provider W)) (opts : option DependencyInjectionOptions) :
  closed D → has_cycle D →
  (checkCyclesOption opts = simple →
   ∃ err, makeInjectorFactory localeCompare D mdl opts = Throw (ECyclicDependency err) ∧
          toString err =
          "CyclicDependencyError: At least one cycle found in provided dependencies") ∧
  (checkCyclesOption opts = detailed →
   ∃ err l, makeInjectorFactory localeCompare D mdl opts = Throw (ECyclicDependency err) ∧
            cycles err = Some l ∧
            (∀ v, on_cycle D v → ∃ c, c ∈ l ∧ v ∈ c) ∧
            NoDup (concat l) ∧
            (∀ c x, c ∈ l → x ∈ c → x ∈ keys D)).
Proof.
  intros Hclosed Hcyc. split; intros Hmode.
  - eexists. split; [by apply factory_cyclic_simple|]. reflexivity.
  - destruct (factory_cyclic_detailed localeCompare D mdl opts Hclosed Hcyc Hmode)
      as (cs & Hrun & _ & Hthrow).
    destruct (getCycles_complete D Hclosed) as (cs1 & Hrun1 & Hall).
    destruct (getCycles_shape D Hclosed) as (cs2 & Hrun2 & Hnd & _ & Hkeys).
    rewrite Hrun in Hrun1, Hrun2.
    injection Hrun1 as <-. injection Hrun2 as <-.
    destruct (normalizeCycles_members localeCompare cs) as [Hperm Hmem].
    eexists _, _. split_and!; [exact Hthrow|done| | |].
    + intros v Hv. destruct (Hall v Hv) as (c & Hc & Hvc). by eapply Hmem.
    + rewrite concat_join, Hperm, <- concat_join. done.
    + intros c x Hc Hx.
      assert (x ∈ mjoin cs) as Hin.
      { rewrite <- Hperm. apply list_elem_of_join. by exists c. }
      apply list_elem_of_join in Hin as (c' & Hx' & Hc'). by eapply Hkeys.
Qed.

Lemma creation_error_names_cycle_members_witness :
  (closed readme_example ∧ has_cycle readme_example) ∧
  (checkCyclesOption (Some (mkOptions (Some detailed) false)) = simple →
   ∃ err, makeInjectorFactory (W := unit) defaultCompare readme_example ∅
            (Some (mkOptions (Some detailed) false)) = Throw (ECyclicDependency err) ∧
          toString err =
          "CyclicDependencyError: At least one cycle found in provided dependencies") ∧
  (checkCyclesOption (Some (mkOptions (Some detailed) false)) = detailed →
   ∃ err l, makeInjectorFactory (W := unit) defaultCompare readme_example ∅
              (Some (mkOptions (Some detailed) false)) = Throw (ECyclicDependency err) ∧
            cycles err = Some l ∧
            (∀ v, on_cycle readme_example v → ∃ c, c ∈ l ∧ v ∈ c) ∧
            NoDup (concat l) ∧
            (∀ c x, c ∈ l → x ∈ c → x ∈ keys readme_example)).
Proof.
  assert (closed readme_example) as H
    by (apply (bool_decide_unpack _); vm_compute; exact I).
  assert (has_cycle readme_example) as H'.
  { exists "e". apply tc_once. by eexists; split; [reflexivity|left]. }
  split; [exact (conj H H')|].
  exact (creation_error_names_cycle_members (W := unit) defaultCompare readme_example ∅
           (Some (mkOptions (Some detailed) false)) H H').
Defined.

(** * The earlier revisions kept in [src/index.ts] *)

Module Earlier.
Import Simple.

(** ** [anyCycilcDependencies] as first written

    The loop recurses into every neighbour that is not [VISITNG], also into
    one that is already [VISITED]. *)
Fixpoint dfsNeighbors
  (visit : string -> gmap string VisitState -> outcome (bool * gmap string VisitState))
  (key : string) (neighbors : list string) (visitaitonMap : gmap string VisitState)
  : outcome (bool * gmap string VisitState) :=
  match neighbors with
  | [] => Done (false, visitaitonMap)
  | neighbor :: rest =>
      if decide (neighbor = key) then Done (true, visitaitonMap)
      else
        match visitaitonMap !! neighbor with
        | Some VISITNG => Done (true, visitaitonMap)
        | _ =>
            match visit neighbor visitaitonMap with
            | Done (true, m) => Done (true, m)
            | Done (false, m) => dfsNeighbors visit key rest m
            | Throw e => Throw e
            | OutOfFuel => OutOfFuel
            end
        end
  end.

Fixpoint dfsVisit (fuel : nat) (dependencies : DependenciesListRecord)
  (key : string) (visitaitonMap : gmap string VisitState)
  : outcome (bool * gmap string VisitState) :=
  match fuel with
  | O => OutOfFuel
  | S fuel' =>
      match deps_lookup dependencies key with
      | None => Throw TypeError
      | Some [] => Done (false, <[key := VISITED]> visitaitonMap)
      | Some neighbors =>
          match dfsNeighbors (dfsVisit fuel' dependencies) key neighbors
                  (<[key := VISITNG]> visitaitonMap) with
          | Done (false, m) => Done (false, <[key := VISITED]> m)
          | r => r
          end
      end
  end.

Fixpoint visitAll (fuel : nat) (dependencies : DependenciesListRecord)
  (ks : list string) (visitaitonMap : gmap string VisitState) : outcome bool :=
  match ks with
  | [] => Done false
  | key :: rest =>
      match visitaitonMap !! key with
      | Some _ => visitAll fuel dependencies rest visitaitonMap
      | None =>
          match dfsVisit fuel dependencies key visitaitonMap with
          | Done (true, _) => Done true
          | Done (false, m) => visitAll fuel dependencies rest m
          | Throw e => Throw e
          | OutOfFuel => OutOfFuel
          end
      end
  end.

Definition anyCycilcDependencies (dependencies : DependenciesListRecord)
  : outcome bool :=
  visitAll (S (length dependencies)) dependencies (keys dependencies) ∅.

(** ** The factories of these revisions *)

(** [DependencyInjectionOptions] of the first revision and [DIOptions] of the
    following ones: [checkForCycles] is a boolean. *)
Record DIOptions : Type := mkDIOptions {
  checkForCycles : option bool;
  log : bool
}.

Definition CYCLE_MESSAGE : string := "Dependency graph has cycle".

Section Factories.
Context {W : Type}.

(** [if (anyCycilcDependencies(dependencies)) throw new Error(...)] *)
Definition checkDependencies {A : Type} (dependencies : DependenciesListRecord)
  (finished : A) : outcome A :=
  match anyCycilcDependencies dependencies with
  | Done true => Throw (Error CYCLE_MESSAGE)
  | Done false => Done finished
  | Throw e => Throw e
  | OutOfFuel => OutOfFuel
  end.

(** The getter of the first revision is the getter of the last one; of the
    options it reads [log] only. *)
Definition getterOptions (options : option DIOptions)
  : option DependencyInjectionOptions :=
  (λ o, mkOptions None (log o)) <$> options.

(** [makeInjectorFactory] of the first revision:
    [options?.checkForCycles ?? true]. *)
Definition makeInjectorFactory (dependencies : DependenciesListRecord)
  (module : gmap string (Provider W)) (options : option DIOptions)
  : outcome (Injector W) :=
  let finishedInjector :=
    mkInjector dependencies module (getterOptions options) (keys dependencies) in
  if default true (options ≫= checkForCycles) then
    checkDependencies dependencies finishedInjector
  else Done finishedInjector.

(** What the getters of [makeDIModuleFactory] close over. *)
Record FinishedModule : Type := mkFinishedModule {
  dependencies : DependenciesListRecord;
  memberProviders : gmap string (Provider W);
  options : option DIOptions;
  members : list string
}.

(** [if (options?.log) options.log(statement)] *)
Definition emit (options : option DIOptions) (statement : string) (st : State W)
  : State W :=
  match options with
  | Some o =>
      if log o then
        Injector.mkState (mapModuleObjects st) (world st) (trace st ++ [Log statement])
      else st
  | None => st
  end.

(** The getter [get] of [makeDIModuleFactory] (and of the [makeInjectorFactory]
    before it): the getter of the last revision with other log lines. *)
Definition get (memberProviders : gmap string (Provider W))
  (options : option DIOptions)
  (access : string -> State W -> result W value)
  (member : string) (memberDepsNames : list string) (st : State W)
  : result W value :=
  let st := emit options ("Get " +:+ member) st in
  match hit (mapModuleObjects st !! member) with
  | Some tryGet =>
      Ok tryGet (emit options ("Found member " +:+ member +:+ " in map") st)
  | None =>
      let st :=
        emit options ("Member " +:+ member +:+ " not found in map. Constructing...") st in
      match getDeps access memberDepsNames st with
      | Ok entries st =>
          let memberDeps := fromEntries entries in
          match memberProviders !! member with
          | None => Raise TypeError st
          | Some memberProvider =>
              let st := record (Invoke member memberDeps) st in
              match memberProvider memberDeps (world st) with
              | (Normal memberObject, w) =>
                  let st :=
                    Injector.mkState (<[member := memberObject]> (mapModuleObjects st)) w
                      (trace st ++ [Returned member memberObject]) in
                  Ok memberObject
                     (emit options
                        ("Member " +:+ member +:+ " constructed and saved to map") st)
              | (Abrupt e, w) =>
                  Raise e (Injector.mkState (mapModuleObjects st) w
                             (trace st ++ [Raised member e]))
              end
          end
      | Raise e st => Raise e st
      | NoFuel => NoFuel
      end
  end.

(** [finishedModule[name]] *)
Fixpoint access (m : FinishedModule) (fuel : nat) (name : string) (st : State W)
  : result W value :=
  match deps_lookup (dependencies m) name with
  | None => Ok VUndefined st
  | Some memberDepsNames =>
      match fuel with
      | O => NoFuel
      | S fuel' =>
          get (memberProviders m) (options m) (access m fuel') name memberDepsNames st
      end
  end.

(** [makeDIModuleFactory]'s [diFactory], which is also the [injectorFactory]
    of the revision before it: [if (options?.checkForCycles)]. *)
Definition makeDIModuleFactory (dependencies : DependenciesListRecord)
  (memberProviders : gmap string (Provider W)) (options : option DIOptions)
  : outcome FinishedModule :=
  let finishedModule :=
    mkFinishedModule dependencies memberProviders options (keys dependencies) in
  if default false (options ≫= checkForCycles) then
    checkDependencies dependencies finishedModule
  else Done finishedModule.

End Factories.

Arguments FinishedModule W : clear implicits.

End Earlier.

(** ** The first [anyCycilcDependencies] finds the same cycles *)

#[global] Instance VisitState_eq_dec : EqDecision Simple.VisitState.
Proof. solve_decision. Defined.

Section EarlierCorrect.
Import Simple.
Context (D : DependenciesListRecord) (Hclosed : closed D).

(** Keys that are not under visit: the measure of the recursion. *)
Definition idle (vm : gmap string VisitState) : nat :=
  length (filter (λ k, vm !! k ≠ Some VISITNG) (keys D)).

(** From [key] no node under visit can be reached, and no cycle. *)
Definition clear_below (vm : gmap string VisitState) (key : string) : Prop :=
  (∀ w, tc (edge D) key w → vm !! w ≠ Some VISITNG) ∧
  (∀ w, rtc (edge D) key w → ¬ tc (edge D) w w).

Definition earlier_spec
  (visit : string → gmap string VisitState → outcome (bool * gmap string VisitState))
  (budget : nat) : Prop :=
  ∀ key vm,
    key ∈ keys D → vm !! key ≠ Some VISITNG → stack_reaches D vm key →
    done_acyclic D vm → idle vm ≤ budget →
    ∃ b vm', visit key vm = Done (b, vm') ∧
             if b then has_cycle D
             else same_visiting vm vm' ∧ done_acyclic D vm' ∧ clear_below vm key.

Lemma idle_same vm vm' : same_visiting vm vm' → idle vm' = idle vm.
Proof.
  intros Hs. unfold idle. apply Nat.le_antisymm; apply filter_length_mono;
    intros x _ Hx Hv; apply Hx, Hs, Hv.
Qed.

Lemma idle_enter vm key :
  key ∈ keys D → vm !! key ≠ Some VISITNG → idle (<[key := VISITNG]> vm) < idle vm.
Proof.
  intros Hk Hn. unfold idle. apply (filter_length_lt _ _ _ key); try done.
  - intros x _ Hx Hv. apply Hx. destruct (decide (key = x)) as [<-|Hne].
    + by rewrite lookup_insert_eq.
    + by rewrite lookup_insert_ne.
  - intros Hx. apply Hx. by rewrite lookup_insert_eq.
Qed.

Lemma earlier_loop visit budget key :
  earlier_spec visit budget →
  ∀ ns vm,
    (∀ n, n ∈ ns → edge D key n) →
    vm !! key = Some VISITNG →
    (∀ v, vm !! v = Some VISITNG → v = key ∨ tc (edge D) v key) →
    done_acyclic D vm → idle vm ≤ budget →
    ∃ b vm', Earlier.dfsNeighbors visit key ns vm = Done (b, vm') ∧
      if b then has_cycle D
      else same_visiting vm vm' ∧ done_acyclic D vm' ∧
           ∀ n, n ∈ ns → n ≠ key ∧ vm !! n ≠ Some VISITNG ∧ clear_below vm n.
Proof.
  intros Hvisit. induction ns as [|n ns IH]; intros vm Hedges Hkey Hstack Hac Hbud.
  { exists false, vm. split; [done|].
    split_and!; [apply same_visiting_refl|done|]. by intros n ?%elem_of_nil. }
  assert (edge D key n) as Hn by (apply Hedges; left).
  assert (∀ n', n' ∈ ns → edge D key n') as Hedges' by (intros; apply Hedges; by right).
  simpl. destruct (decide (n = key)) as [->|Hne].
  { exists true, vm. split; [done|]. exists key. by apply tc_once. }
  assert (vm !! n = Some VISITNG → has_cycle D) as Hback.
  { intros En. exists key. destruct (Hstack n En) as [?|Hreach]; [done|]. by eapply tc_l. }
  assert (vm !! n ≠ Some VISITNG →
    ∃ b vm',
      match visit n vm with
      | Done (true, m) => Done (true, m)
      | Done (false, m) => Earlier.dfsNeighbors visit key ns m
      | Throw e => Throw e
      | OutOfFuel => OutOfFuel
      end = Done (b, vm') ∧
      if b then has_cycle D
      else same_visiting vm vm' ∧ done_acyclic D vm' ∧
           ∀ n', n' ∈ n :: ns → n' ≠ key ∧ vm !! n' ≠ Some VISITNG ∧ clear_below vm n')
    as Hrec.
  { intros En.
    destruct (Hvisit n vm) as (b1 & vm1 & -> & Hb1); try done.
    { by eapply closed_edge. }
    { intros v Hv. destruct (Hstack v Hv) as [->|Hreach].
      - by apply tc_once.
      - by eapply tc_r. }
    destruct b1.
    { exists true, vm1. by split. }
    destruct Hb1 as (Hv1 & Hac1 & Hclear1).
    destruct (IH vm1) as (b & vm' & -> & Hb); try done.
    { by apply Hv1. }
    { intros v Hv. apply Hstack. by apply Hv1. }
    { by rewrite (idle_same vm vm1). }
    exists b, vm'. split; [done|]. destruct b; [done|].
    destruct Hb as (Hv & Hac' & Hall). split_and!; [|done|].
    - by eapply same_visiting_trans.
    - intros n' [->|Hn']%elem_of_cons; [done|].
      destruct (Hall n' Hn') as (Hnk & Hnv & [Hc1 Hc2]). split_and!; [done| |split].
      + intros Hv'. by apply Hnv, Hv1.
      + intros w Hw Hv'. by apply (Hc1 w Hw), Hv1.
      + done. }
  destruct (vm !! n) as [[]|] eqn:En.
  - exists true, vm. split; [done|]. by apply Hback.
  - destruct Hrec as (b & vm' & Hrun & Hb); [done|]. by exists b, vm'.
  - destruct Hrec as (b & vm' & Hrun & Hb); [done|]. by exists b, vm'.
Qed.

Lemma earlier_visit fuel : earlier_spec (Earlier.dfsVisit fuel D) fuel.
Proof.
  induction fuel as [|fuel IH]; intros key vm Hk Hnv Hstack Hac Hbud.
  { pose proof (idle_enter vm key Hk Hnv). lia. }
  simpl. destruct (deps_lookup_key D key Hk) as [ns Hns]. rewrite Hns.
  assert (∀ m, same_visiting (<[key := VISITNG]> vm) m →
               same_visiting vm (<[key := VISITED]> m)) as Hsame.
  { intros m Hm v. destruct (decide (key = v)) as [<-|Hne].
    - rewrite lookup_insert_eq. split; [done|]. by intros ?.
    - rewrite lookup_insert_ne by done. rewrite (Hm v). by rewrite lookup_insert_ne. }
  assert (∀ m, done_acyclic D m → ¬ tc (edge D) key key →
               done_acyclic D (<[key := VISITED]> m)) as Hdone.
  { intros m Hm Hkey v Hv. destruct (decide (key = v)) as [<-|Hne]; [done|].
    rewrite lookup_insert_ne in Hv by done. by apply Hm. }
  destruct ns as [|n0 ns0].
  - assert (∀ w, ¬ tc (edge D) key w) as Hnone by (by apply no_edge_from).
    exists false, (<[key := VISITED]> vm). split; [done|]. split_and!.
    + intros v. destruct (decide (key = v)) as [<-|Hne].
      * rewrite lookup_insert_eq. split; [done|]. by intros ?.
      * by rewrite lookup_insert_ne.
    + apply Hdone; [done|apply Hnone].
    + split.
      * intros w Hw. by apply Hnone in Hw.
      * intros w Hr Hw. apply rtc_tc in Hr as [->|Hr]; by eapply Hnone.
  - remember (n0 :: ns0) as ns eqn:Ens.
    destruct (earlier_loop (Earlier.dfsVisit fuel D) fuel key IH ns
                (<[key := VISITNG]> vm)) as (b & vm' & Hrun & Hb).
    + intros n Hn. by exists ns.
    + by rewrite lookup_insert_eq.
    + intros v. destruct (decide (key = v)) as [<-|Hne]; [by left|].
      rewrite lookup_insert_ne by done. intros Hv. right. by apply Hstack.
    + intros v Hv. destruct (decide (key = v)) as [<-|Hne].
      * by rewrite lookup_insert_eq in Hv.
      * rewrite lookup_insert_ne in Hv by done. by apply Hac.
    + pose proof (idle_enter vm key Hk Hnv). lia.
    + assert (match Earlier.dfsNeighbors (Earlier.dfsVisit fuel D) key ns
                      (<[key:=VISITNG]> vm) with
              | Done (false, m) => Done (false, <[key:=VISITED]> m)
              | r => r
              end = if b then Done (true, vm') else Done (false, <[key:=VISITED]> vm'))
        as Hmatch by (rewrite Hrun; by destruct b).
      subst ns. simpl in Hmatch |- *. rewrite Hmatch. clear Hmatch.
      remember (n0 :: ns0) as ns eqn:Ens.
      destruct b.
      { exists true, vm'. by split. }
      exists false, (<[key := VISITED]> vm'). split; [done|].
      destruct Hb as (Hv & Hac' & Hall).
      (* what the first step of a path from [key] gives *)
      assert (∀ w, tc (edge D) key w →
                w ≠ key ∧ vm !! w ≠ Some VISITNG ∧ ¬ tc (edge D) w w) as Hbelow.
      { intros w (n & (ns' & Hl & Hn) & Hr)%tc_first_step.
        rewrite Hns in Hl. simplify_eq.
        destruct (Hall n Hn) as (Hnk & Hnvis & [Hc1 Hc2]).
        apply rtc_tc in Hr as [<-|Hr].
        - split_and!; [done| |by apply Hc2].
          by rewrite lookup_insert_ne in Hnvis.
        - pose proof (Hc1 w Hr) as Hw.
          assert (w ≠ key) as Hwk by (intros ->; by rewrite lookup_insert_eq in Hw).
          split_and!; [done| |apply Hc2; by apply tc_rtc].
          by rewrite lookup_insert_ne in Hw. }
      assert (¬ tc (edge D) key key) as Hkey.
      { intros Hc. by destruct (Hbelow key Hc) as [? _]. }
      split_and!; [by apply Hsame|by apply Hdone|]. split.
      * intros w Hw. by destruct (Hbelow w Hw) as (_ & ? & _).
      * intros w Hr. apply rtc_tc in Hr as [<-|Hr]; [done|].
        by destruct (Hbelow w Hr) as (_ & _ & ?).
Qed.

Lemma earlier_all fuel ks vm :
  ks ⊆ keys D → (∀ v, vm !! v ≠ Some VISITNG) → done_acyclic D vm →
  idle vm ≤ fuel →
  ∃ b, Earlier.visitAll fuel D ks vm = Done b ∧
    if b then has_cycle D else ∀ k, k ∈ ks → ¬ tc (edge D) k k.
Proof.
  revert vm. induction ks as [|k ks IH]; intros vm Hks Hnv Hac Hbud.
  { exists false. split; [done|]. by intros k ?%elem_of_nil. }
  assert (k ∈ keys D) as Hk by (apply Hks; left).
  assert (ks ⊆ keys D) as Hks' by (intros x Hx; apply Hks; by right).
  simpl. destruct (vm !! k) as [s|] eqn:Ek.
  - destruct (IH vm) as (b & -> & Hb); try done.
    exists b. split; [done|]. destruct b; [done|].
    intros k' [->|Hk']%elem_of_cons; [|by apply Hb].
    apply (Hac k). destruct s; [by apply Hnv in Ek|done].
  - destruct (earlier_visit fuel k vm) as (b1 & vm1 & -> & Hb1); try done.
    { intros v Hv. by apply Hnv in Hv. }
    destruct b1; [by exists true|].
    destruct Hb1 as (Hv1 & Hac1 & [_ Hclear]).
    destruct (IH vm1) as (b & -> & Hb); try done.
    { intros v Hv. apply Hv1 in Hv. by apply Hnv in Hv. }
    { by rewrite (idle_same vm vm1). }
    exists b. split; [done|]. destruct b; [done|].
    intros k' [->|Hk']%elem_of_cons; [|by apply Hb].
    by apply Hclear.
Qed.

Lemma earlier_anyCycilcDependencies_spec :
  ∃ b, Earlier.anyCycilcDependencies D = Done b ∧ (b = true ↔ has_cycle D).
Proof.
  unfold Earlier.anyCycilcDependencies.
  destruct (earlier_all (S (length D)) (keys D) ∅) as (b & Hrun & Hb).
  - done.
  - intros v. by rewrite lookup_empty.
  - intros v. by rewrite lookup_empty.
  - unfold idle. etrans; [apply length_filter|].
    unfold keys. rewrite length_fmap. lia.
  - exists b. split; [done|]. destruct b; [done|]. split; [done|].
    intros [x Hx]. exfalso. eapply Hb; [|done]. by eapply tc_edge_key.
Qed.

End EarlierCorrect.
(** ** The accessor of [makeDIModuleFactory] against the last one *)

Definition is_log (ev : event) : bool :=
  match ev with
  | Log _ => true
  | _ => false
  end.

(** The events other than the lines handed to the log sink. *)
Definition unlogged (tr : list event) : list event :=
  filter (λ ev, is_log ev = false) tr.

Section EarlierAccess.
Context {W : Type} (D : DependenciesListRecord) (mdl : gmap string (Provider W)).
Context (opts1 : option Earlier.DIOptions) (opts2 : option DependencyInjectionOptions).

(** Two stores that differ at most by log lines. *)
Definition same_but_logs (st1 st2 : State W) : Prop :=
  mapModuleObjects st1 = mapModuleObjects st2 ∧ world st1 = world st2 ∧
  unlogged (trace st1) = unlogged (trace st2).

Definition matching {A : Type} (r1 r2 : result W A) : Prop :=
  match r1, r2 with
  | Ok a1 s1, Ok a2 s2 => a1 = a2 ∧ same_but_logs s1 s2
  | Raise e1 s1, Raise e2 s2 => e1 = e2 ∧ same_but_logs s1 s2
  | NoFuel, NoFuel => True
  | _, _ => False
  end.

Lemma unlogged_snoc_log tr s : unlogged (tr ++ [Log s]) = unlogged tr.
Proof. unfold unlogged. rewrite filter_app. simpl. by rewrite app_nil_r. Qed.

Lemma same_emit_l s st1 st2 :
  same_but_logs st1 st2 → same_but_logs (Earlier.emit opts1 s st1) st2.
Proof.
  intros (Hc & Hw & Ht). unfold Earlier.emit. destruct opts1 as [o|]; [|done].
  destruct (Earlier.log o); [|done]. split_and!; simpl; try done.
  by rewrite unlogged_snoc_log.
Qed.

Lemma same_emit_r s st1 st2 :
  same_but_logs st1 st2 → same_but_logs st1 (emit opts2 s st2).
Proof.
  intros (Hc & Hw & Ht). unfold emit. destruct opts2 as [o|]; [|done].
  destruct (log o); [|done]. split_and!; simpl; try done.
  by rewrite unlogged_snoc_log.
Qed.

Lemma getDeps_matching acc1 acc2 ns :
  (∀ d s1 s2, same_but_logs s1 s2 → matching (acc1 d s1) (acc2 d s2)) →
  ∀ st1 st2, same_but_logs st1 st2 →
    matching (getDeps acc1 ns st1) (getDeps acc2 ns st2).
Proof.
  intros Hacc. induction ns as [|d ns IH]; intros st1 st2 Hst; cbn [getDeps]; [done|].
  pose proof (Hacc d st1 st2 Hst) as Hd.
  destruct (acc1 d st1) as [v1 s1|e1 s1|], (acc2 d st2) as [v2 s2|e2 s2|]; try done.
  destruct Hd as [<- Hs]. specialize (IH s1 s2 Hs).
  destruct (getDeps acc1 ns s1) as [es1 t1|e1 t1|],
           (getDeps acc2 ns s2) as [es2 t2|e2 t2|]; try done.
  destruct IH as [<- Ht]. done.
Qed.

Lemma get_matching acc1 acc2 name ns st1 st2 :
  (∀ d s1 s2, same_but_logs s1 s2 → matching (acc1 d s1) (acc2 d s2)) →
  same_but_logs st1 st2 →
  matching (Earlier.get mdl opts1 acc1 name ns st1) (get mdl opts2 acc2 name ns st2).
Proof.
  intros Hacc Hst. unfold Earlier.get, get. cbv zeta.
  set (a1 := Earlier.emit opts1 _ st1). set (a2 := emit opts2 _ st2).
  assert (same_but_logs a1 a2) as Ha by (by apply same_emit_l, same_emit_r).
  destruct Ha as (Hc & Hw & Ht). rewrite Hc.
  destruct (hit (mapModuleObjects a2 !! name)) as [u|].
  { split; [done|]. by apply same_emit_l, same_emit_r. }
  set (b1 := Earlier.emit opts1 _ a1). set (b2 := emit opts2 _ a2).
  assert (same_but_logs b1 b2) as Hb by (by apply same_emit_l, same_emit_r).
  pose proof (getDeps_matching acc1 acc2 ns Hacc b1 b2 Hb) as Hdeps.
  destruct (getDeps acc1 ns b1) as [es1 t1|e1 t1|],
           (getDeps acc2 ns b2) as [es2 t2|e2 t2|]; try done.
  destruct Hdeps as [<- (Hc' & Hw' & Ht')].
  destruct (mdl !! name) as [memberProvider|]; [|done].
  unfold record. simpl. rewrite Hw'.
  assert (∀ tr1 tr2 ev, is_log ev = false → unlogged tr1 = unlogged tr2 →
            unlogged (tr1 ++ [ev]) = unlogged (tr2 ++ [ev])) as Hsnoc.
  { intros tr1 tr2 ev Hev Htr. unfold unlogged in *. by rewrite !filter_app, Htr. }
  destruct (memberProvider _ _) as [[v|e] w]; split; try done.
  - apply same_emit_l, same_emit_r. split_and!; simpl; [by rewrite Hc'|done|].
    by do 2 (apply Hsnoc; [done|]).
  - split_and!; simpl; [done|done|]. by do 2 (apply Hsnoc; [done|]).
Qed.

Lemma access_matching fuel :
  ∀ name st1 st2, same_but_logs st1 st2 →
    matching (Earlier.access (Earlier.mkFinishedModule D mdl opts1 (keys D)) fuel name st1)
             (access (mkInjector D mdl opts2 (keys D)) fuel name st2).
Proof.
  induction fuel as [|fuel IH]; intros name st1 st2 Hst;
    cbn [Earlier.access access Earlier.dependencies Earlier.memberProviders
         Earlier.options dependencies module options];
    (destruct (deps_lookup D name) as [ns|]; [|done]); [done|].
  by apply get_matching.
Qed.

End EarlierAccess.

Section EarlierFactories.
Context {W : Type} (D : DependenciesListRecord) (mdl : gmap string (Provider W))
  (opts : option Earlier.DIOptions).

Lemma checkDependencies_spec {A : Type} (finished : A) :
  closed D →
  (has_cycle D →
   Earlier.checkDependencies D finished = Throw (Error Earlier.CYCLE_MESSAGE)) ∧
  (acyclic D → Earlier.checkDependencies D finished = Done finished).
Proof.
  intros Hclosed. unfold Earlier.checkDependencies.
  destruct (earlier_anyCycilcDependencies_spec D Hclosed) as (b & -> & Hb). split.
  - intros Hcyc. by apply Hb in Hcyc as ->.
  - intros Hac. destruct b; [|done]. exfalso. by apply Hac, Hb.
Qed.

End EarlierFactories.

(** X13: on a mapping whose dependency names are all keys, the check of the
    earlier revisions, which walks again through members it has already
    finished, returns, and gives the answer of the last revision: [true]
    exactly when there is a cycle. *)
Theorem earlier_check_agrees (D : DependenciesListRecord) :
  closed D →
  ∃ b, Earlier.anyCycilcDependencies D = Done b ∧
       Simple.anyCycilcDependencies D = Done b ∧
       (b = true ↔ has_cycle D).
Proof.
  intros Hclosed.
  destruct (earlier_anyCycilcDependencies_spec D Hclosed) as (b & Hb & Hiff).
  destruct (anyCycilcDependencies_spec D Hclosed) as (b' & Hb' & Hiff').
  exists b. split_and!; [done| |done]. rewrite Hb'. f_equal.
  destruct b, b'; try done.
  - by apply Hiff', Hiff.
  - symmetry. by apply Hiff, Hiff'.
Qed.

Lemma earlier_check_agrees_witness :
  closed readme_example ∧
  ∃ b, Earlier.anyCycilcDependencies readme_example = Done b ∧
       Simple.anyCycilcDependencies readme_example = Done b ∧
       (b = true ↔ has_cycle readme_example).
Proof.
  assert (closed readme_example) as H
    by (apply (bool_decide_unpack _); vm_compute; exact I).
  split; [exact H|]. exact (earlier_check_agrees readme_example H).
Defined.

(** X14: the [makeInjectorFactory] of the first revision validates unless
    [checkForCycles] is [false]: on a mapping whose dependency names are all
    keys it then throws the plain error "Dependency graph has cycle" when
    there is a cycle, and otherwise returns the injector, whose getters are
    those of the last revision. *)
Theorem first_factory_validates_by_default {W : Type}
  (D : DependenciesListRecord) (mdl : gmap string (Provider W))
  (opts : option Earlier.DIOptions) :
  closed D → opts ≫= Earlier.checkForCycles ≠ Some false →
  (has_cycle D →
   Earlier.makeInjectorFactory D mdl opts = Throw (Error "Dependency graph has cycle")) ∧
  (acyclic D →
   Earlier.makeInjectorFactory D mdl opts =
   Done (mkInjector D mdl (Earlier.getterOptions opts) (keys D))).
Proof.
  intros Hclosed Hon. unfold Earlier.makeInjectorFactory.
  assert (default true (opts ≫= Earlier.checkForCycles) = true) as ->.
  { destruct (opts ≫= Earlier.checkForCycles) as [[]|]; done. }
  by apply checkDependencies_spec.
Qed.

Lemma first_factory_validates_by_default_witness :
  (closed two_way ∧ None ≫= Earlier.checkForCycles ≠ Some false) ∧
  (has_cycle two_way →
   Earlier.makeInjectorFactory (W := unit) two_way ∅ None =
   Throw (Error "Dependency graph has cycle")) ∧
  (acyclic two_way →
   Earlier.makeInjectorFactory (W := unit) two_way ∅ None =
   Done (mkInjector two_way ∅ (Earlier.getterOptions None) (keys two_way))).
Proof.
  assert (closed two_way) as H by (apply (bool_decide_unpack _); vm_compute; exact I).
  assert (None ≫= Earlier.checkForCycles ≠ Some false) as H' by done.
  split; [exact (conj H H')|].
  exact (first_factory_validates_by_default (W := unit) two_way ∅ None H H').
Defined.

(** X15: [makeDIModuleFactory] (and the [makeInjectorFactory] just before
    it) validates only when [checkForCycles] is [true]: on a mapping whose
    dependency names are all keys it returns the module unless the option is
    [true] and the mapping has a cycle, in which case it throws the plain
    error "Dependency graph has cycle"; without the option a cyclic mapping
    is accepted. *)
Theorem module_factory_validates_on_request {W : Type}
  (D : DependenciesListRecord) (mdl : gmap string (Provider W))
  (opts : option Earlier.DIOptions) :
  closed D →
  (has_cycle D ∧ opts ≫= Earlier.checkForCycles = Some true →
   Earlier.makeDIModuleFactory D mdl opts = Throw (Error "Dependency graph has cycle")) ∧
  (acyclic D ∨ opts ≫= Earlier.checkForCycles ≠ Some true →
   Earlier.makeDIModuleFactory D mdl opts =
   Done (Earlier.mkFinishedModule D mdl opts (keys D))).
Proof.
  intros Hclosed. unfold Earlier.makeDIModuleFactory.
  destruct (checkDependencies_spec D (Earlier.mkFinishedModule D mdl opts (keys D))
              Hclosed) as [Hcyc Hac].
  split.
  - intros [Hc ->]. by apply Hcyc.
  - intros [Hc|Hoff].
    + destruct (default false (opts ≫= Earlier.checkForCycles)); [by apply Hac|done].
    + by destruct (opts ≫= Earlier.checkForCycles) as [[]|].
Qed.

Lemma module_factory_validates_on_request_witness :
  closed two_way ∧
  (has_cycle two_way ∧ None ≫= Earlier.checkForCycles = Some true →
   Earlier.makeDIModuleFactory (W := unit) two_way ∅ None =
   Throw (Error "Dependency graph has cycle")) ∧
  (acyclic two_way ∨ None ≫= Earlier.checkForCycles ≠ Some true →
   Earlier.makeDIModuleFactory (W := unit) two_way ∅ None =
   Done (Earlier.mkFinishedModule two_way ∅ None (keys two_way))).
Proof.
  assert (closed two_way) as H by (apply (bool_decide_unpack _); vm_compute; exact I).
  split; [exact H|].
  exact (module_factory_validates_on_request (W := unit) two_way ∅ None H).
Defined.

(** X16: apart from the lines handed to the log sink, reading a member of a
    module made by [makeDIModuleFactory] does what reading it on an injector
    of the last revision does: started from stores that differ at most by
    log lines, both return the same value or throw the same exception (or
    both exhaust the same budget), and leave the same cache, the same
    provider state and the same provider events. *)
Theorem earlier_accessor_differs_only_in_log_lines {W : Type}
  (D : DependenciesListRecord) (mdl : gmap string (Provider W))
  (opts1 : option Earlier.DIOptions) (opts2 : option DependencyInjectionOptions)
  (fuel : nat) (member : string) (st1 st2 : State W) :
  mapModuleObjects st1 = mapModuleObjects st2 → world st1 = world st2 →
  unlogged (trace st1) = unlogged (trace st2) →
  match Earlier.access (Earlier.mkFinishedModule D mdl opts1 (keys D)) fuel member st1,
        access (mkInjector D mdl opts2 (keys D)) fuel member st2 with
  | Ok v1 s1, Ok v2 s2 =>
      v1 = v2 ∧ mapModuleObjects s1 = mapModuleObjects s2 ∧ world s1 = world s2 ∧
      unlogged (trace s1) = unlogged (trace s2)
  | Raise e1 s1, Raise e2 s2 =>
      e1 = e2 ∧ mapModuleObjects s1 = mapModuleObjects s2 ∧ world s1 = world s2 ∧
      unlogged (trace s1) = unlogged (trace s2)
  | NoFuel, NoFuel => True
  | _, _ => False
  end.
Proof.
  intros Hc Hw Ht.
  exact (access_matching D mdl opts1 opts2 fuel member st1 st2 (conj Hc (conj Hw Ht))).
Qed.

Lemma earlier_accessor_differs_only_in_log_lines_witness :
  match Earlier.access
          (Earlier.mkFinishedModule pythagorean pythagorean_module
             (Some (Earlier.mkDIOptions None true)) (keys pythagorean))
          4 "digest" (fresh tt),
        access (mkInjector pythagorean pythagorean_module None (keys pythagorean))
          4 "digest" (fresh tt) with
  | Ok v1 s1, Ok v2 s2 =>
      v1 = v2 ∧ mapModuleObjects s1 = mapModuleObjects s2 ∧ world s1 = world s2 ∧
      unlogged (trace s1) = unlogged (trace s2)
  | Raise e1 s1, Raise e2 s2 =>
      e1 = e2 ∧ mapModuleObjects s1 = mapModuleObjects s2 ∧ world s1 = world s2 ∧
      unlogged (trace s1) = unlogged (trace s2)
  | NoFuel, NoFuel => True
  | _, _ => False
  end.
Proof.
  exact (earlier_accessor_differs_only_in_log_lines pythagorean pythagorean_module
           (Some (Earlier.mkDIOptions None true)) None 4 "digest" (fresh tt) (fresh tt)
           eq_refl eq_refl eq_refl).
Defined.
